(** * An in-memory B+ tree: shallow embedding and verification

    The development embeds [include/Node.h] and [include/BPlusTree.h]
    (namespace [bptree]) and proves the properties the specification
    states about them.

    Modelling conventions.

    - [KeyType] is instantiated at [int], the key type of nearly all the
      tests of the repository, and modelled by [Z]; only comparisons are
      applied to keys, so no arithmetic on keys can overflow.  [ValueType]
      stays a parameter.
    - A node's [keys] (and [values], [children]) vector is pre-allocated
      beyond [numKeys]; the model keeps the slots in use, i.e. the first
      [numKeys] keys and values and the first [numKeys + 1] children, as a
      list, so [numKeys] is the length of [keys].
    - Child slots own their nodes, so the ownership structure is an
      inductive tree.  The non-owning links are modelled as follows: a leaf
      carries an identity [lid] (its address) and its [next]/[prev] fields
      hold identities of leaves; the [parent] back-reference of the node an
      operation works on is the stack of ancestors ([Frame]s) that
      [findLeaf] walked through, innermost first, together with the index
      [getNodeIndex] would find.
    - Integers that count ([order], [maxKeys], [minKeys], binary-search
      bounds) are [Z], positions in lists are [nat].  The constructor's
      arithmetic on the order, where an [int] leaves its range at the
      order [INT_MAX], is written with the wrap-around.
    - Of the two revisions of [BPlusTree.h], the model follows the one
      that indexes the pre-allocated vectors of [Node.h] by [numKeys]. *)

From Stdlib Require Import ZArith Lia Sorted.
From stdpp Require Import base tactics option list numbers strings sorting.

Open Scope Z_scope.

Ltac Zify.zify_post_hook ::= Z.to_euclidean_division_equations.

(** ** Node.h *)

Section Model.
Context {V : Type}.

(** [LeafNode]: parallel [keys]/[values] and the chain links. *)
Record LeafNode := mkLeaf {
  lid : nat;
  lkeys : list Z;
  lvalues : list V;
  lnext : option nat;
  lprev : option nat
}.

(** [Node]: the two shapes, [NodeType::LEAF] and [NodeType::INTERNAL]. *)
Unset Elimination Schemes.
Inductive Node :=
| Leaf (leaf : LeafNode)
| Internal (keys : list Z) (children : list Node).
Set Elimination Schemes.

Definition keysOf (n : Node) : list Z :=
  match n with
  | Leaf l => lkeys l
  | Internal keys _ => keys
  end.

Definition numKeys (n : Node) : Z := Z.of_nat (length (keysOf n)).

Definition isLeaf (n : Node) : bool :=
  match n with Leaf _ => true | Internal _ _ => false end.

Definition isInternal (n : Node) : bool := negb (isLeaf n).

(** [isFull]: [numKeys > maxKeys]. *)
Definition isFull (maxKeys : Z) (keys : list Z) : bool :=
  maxKeys <? Z.of_nat (length keys).

(** [isUnderflow]: [numKeys < minKeys]. *)
Definition isUnderflow (minKeys : Z) (keys : list Z) : bool :=
  Z.of_nat (length keys) <? minKeys.

(** [findKeyPosition]: the binary search loop.  Every iteration shrinks
    [right - left], so [fuel = numKeys] iterations are never used up
    (lemma [findKeyPosition_loop_fuel]). *)
Fixpoint findKeyPosition_loop (fuel : nat) (keys : list Z) (key : Z)
    (left right result : Z) : Z :=
  match fuel with
  | O => result
  | S fuel' =>
      if left <=? right then
        let mid := left + (right - left) `quot` 2 in
        let k := nth (Z.to_nat mid) keys 0 in
        if k =? key then mid
        else if k <? key then
          findKeyPosition_loop fuel' keys key (mid + 1) right result
        else
          findKeyPosition_loop fuel' keys key left (mid - 1) mid
      else result
  end.

Definition findKeyPosition (keys : list Z) (key : Z) : Z :=
  let n := Z.of_nat (length keys) in
  findKeyPosition_loop (length keys) keys key 0 (n - 1) n.

(** [insertKeyAt]: shift [keys[pos..numKeys)] right, store, count up. *)
Definition insertKeyAt (pos : nat) (key : Z) (keys : list Z) : list Z :=
  take pos keys ++ key :: drop pos keys.

(** [removeKeyAt]: shift [keys(pos..numKeys)] left, count down. *)
Definition removeKeyAt (pos : nat) (keys : list Z) : list Z :=
  take pos keys ++ drop (S pos) keys.

(** [insertChildAt] / [removeChildAt] on the child slots in use. *)
Definition insertChildAt (pos : nat) (child : Node) (children : list Node)
    : list Node :=
  take pos children ++ child :: drop pos children.

Definition removeChildAt (pos : nat) (children : list Node) : list Node :=
  take pos children ++ drop (S pos) children.

(** [findChildIndex]: [while (i < numKeys && key >= keys[i]) i++]. *)
Fixpoint findChildIndex (keys : list Z) (key : Z) : nat :=
  match keys with
  | [] => O
  | k :: keys' => if k <=? key then S (findChildIndex keys' key) else O
  end.

(** [LeafNode::insertAt]. *)
Definition insertAt (pos : nat) (key : Z) (value : V) (l : LeafNode)
    : LeafNode :=
  mkLeaf (lid l)
         (take pos (lkeys l) ++ key :: drop pos (lkeys l))
         (take pos (lvalues l) ++ value :: drop pos (lvalues l))
         (lnext l) (lprev l).

(** [LeafNode::removeAt]. *)
Definition removeAt (pos : nat) (l : LeafNode) : LeafNode :=
  mkLeaf (lid l)
         (removeKeyAt pos (lkeys l))
         (take pos (lvalues l) ++ drop (S pos) (lvalues l))
         (lnext l) (lprev l).

(** [LeafNode::findValue]: linear scan; [None] is the [false] result. *)
Fixpoint findValue_scan (keys : list Z) (values : list V) (key : Z)
    : option V :=
  match keys, values with
  | k :: keys', v :: values' =>
      if k =? key then Some v else findValue_scan keys' values' key
  | _, _ => None
  end.

Definition findValue (l : LeafNode) (key : Z) : option V :=
  findValue_scan (lkeys l) (lvalues l) key.


(** ** BPlusTree.h *)

(** The tree object.  [nextLeaf] is the allocator's next fresh leaf
    identity ([new LeafNode]). *)
Record BPlusTree := mkTree {
  root : option Node;
  order : Z;
  maxKeys : Z;
  minKeys : Z;
  nextLeaf : nat
}.

Definition withRoot (t : BPlusTree) (r : option Node) : BPlusTree :=
  mkTree r (order t) (maxKeys t) (minKeys t) (nextLeaf t).

Definition withRootAlloc (t : BPlusTree) (r : option Node) : BPlusTree :=
  mkTree r (order t) (maxKeys t) (minKeys t) (S (nextLeaf t)).

(** The range of [int], and the value an [int] operation leaves when its
    result is outside of it: the low 32 bits, two's complement. *)
Definition INT_MAX : Z := 2147483647.
Definition INT_MIN : Z := -2147483648.

Definition wrap (x : Z) : Z := (x + 2 ^ 31) mod 2 ^ 32 - 2 ^ 31.

(** Constructor.  [MIN_ORDER] comes from [Config.h], which is not among
    the sources, and is a parameter here.  [order], [maxKeys] and
    [minKeys] are [int]s: [order + 1] is outside of [int] when the order
    is [INT_MAX]. *)
Definition BPlusTree_new (MIN_ORDER : Z) (ord : Z) : BPlusTree :=
  let order := if ord <? MIN_ORDER then MIN_ORDER else ord in
  mkTree None order (wrap (order - 1)) (wrap (wrap (order + 1) `quot` 2 - 1)) O.

Definition isEmpty (t : BPlusTree) : bool :=
  match root t with None => true | Some _ => false end.

(** An ancestor on the path from the root to the current node: the
    parent's keys and child slots, and the index of the slot that leads
    to the current node.  The slot itself holds the node as it was when
    the descent passed; [rebuild] stores the current node back. *)
Record Frame := mkFrame {
  fkeys : list Z;
  fchildren : list Node;
  fidx : nat
}.

(** Mutations of a node are visible through its parent's child slot;
    [rebuild path n] is the root that results from the current node
    being [n]. *)
Fixpoint rebuild (path : list Frame) (n : Node) : Node :=
  match path with
  | [] => n
  | parent :: up =>
      rebuild up (Internal (fkeys parent) (<[fidx parent := n]> (fchildren parent)))
  end.

(** [findLeaf]: descend along [findChildIndex]; [None] is the null
    pointer that a missing child slot yields. *)
Fixpoint findLeaf (path : list Frame) (current : Node) (key : Z)
    : option (list Frame * LeafNode) :=
  match current with
  | Leaf leaf => Some (path, leaf)
  | Internal keys children =>
      let index := findChildIndex keys key in
      (fix descend (cs : list Node) (i : nat) {struct cs} :=
         match cs, i with
         | [], _ => None
         | c :: _, O => findLeaf (mkFrame keys children index :: path) c key
         | _ :: cs', S i' => descend cs' i'
         end) children index
  end.

(** [search]. *)
Definition search (t : BPlusTree) (key : Z) : option V :=
  match root t with
  | None => None
  | Some r =>
      match findLeaf [] r key with
      | None => None
      | Some (_, leaf) => findValue leaf key
      end
  end.

(** Assignments through the chain links reach leaves anywhere in the
    tree; [mapLeaves] and [mapPath] apply such an assignment. *)
Fixpoint mapLeaves (f : LeafNode → LeafNode) (n : Node) : Node :=
  match n with
  | Leaf l => Leaf (f l)
  | Internal keys children => Internal keys (map (mapLeaves f) children)
  end.

Definition mapFrame (f : LeafNode → LeafNode) (fr : Frame) : Frame :=
  mkFrame (fkeys fr) (map (mapLeaves f) (fchildren fr)) (fidx fr).

Definition mapPath (f : LeafNode → LeafNode) (path : list Frame) : list Frame :=
  map (mapFrame f) path.

(** [if (target) target->prev = p]. *)
Definition setPrev (target : option nat) (p : nat) (l : LeafNode) : LeafNode :=
  match target with
  | Some id =>
      if Nat.eqb (lid l) id
      then mkLeaf (lid l) (lkeys l) (lvalues l) (lnext l) (Some p)
      else l
  | None => l
  end.

Definition splitPointOf (maxKeys : Z) : nat := Z.to_nat ((maxKeys + 1) `quot` 2).

(** The partition [splitInternal] performs: the node keeps
    [keys[0, splitPoint)] and [children[0, splitPoint]], [keys[splitPoint]]
    is promoted, the new node receives the rest. *)
Definition splitInternal_parts (maxKeys : Z) (keys : list Z)
    (children : list Node) : Node * Z * Node :=
  let splitPoint := splitPointOf maxKeys in
  let promoteKey := nth splitPoint keys 0 in
  let newNode := Internal (drop (S splitPoint) keys) (drop (S splitPoint) children) in
  let node := Internal (take splitPoint keys) (take (S splitPoint) children) in
  (node, promoteKey, newNode).

(** [insertIntoParent]; the result is the root afterwards.  The call of
    [splitInternal] on a full parent is unfolded in place, since the two
    functions call each other. *)
Fixpoint insertIntoParent (maxKeys : Z) (path : list Frame)
    (left : Node) (key : Z) (right : Node) : Node :=
  match path with
  | [] => Internal [key] [left; right]
  | parent :: up =>
      let pos := Z.to_nat (findKeyPosition (fkeys parent) key) in
      let keys := insertKeyAt pos key (fkeys parent) in
      let children :=
        insertChildAt (pos + 1) right (<[fidx parent := left]> (fchildren parent)) in
      if isFull maxKeys keys then
        let '(node, promoteKey, newNode) := splitInternal_parts maxKeys keys children in
        insertIntoParent maxKeys up node promoteKey newNode
      else rebuild up (Internal keys children)
  end.


(** The two leaves [splitLeaf] produces, with the chain links as it
    leaves them, and the promoted key. *)
Definition splitLeaf_parts (maxKeys : Z) (newId : nat) (leaf : LeafNode)
    : LeafNode * Z * LeafNode :=
  let splitPoint := splitPointOf maxKeys in
  let newLeaf :=
    mkLeaf newId (drop splitPoint (lkeys leaf)) (drop splitPoint (lvalues leaf))
           (lnext leaf) (Some (lid leaf)) in
  let relinked := setPrev (lnext leaf) newId leaf in
  let leaf' :=
    mkLeaf (lid leaf) (take splitPoint (lkeys leaf)) (take splitPoint (lvalues leaf))
           (Some newId) (lprev relinked) in
  (leaf', nth 0 (lkeys newLeaf) 0, newLeaf).

(** [splitLeaf]; the result is the root afterwards. *)
Definition splitLeaf (maxKeys : Z) (newId : nat) (path : list Frame)
    (leaf : LeafNode) : Node :=
  let '(leaf', promoteKey, newLeaf) := splitLeaf_parts maxKeys newId leaf in
  insertIntoParent maxKeys (mapPath (setPrev (lnext leaf) newId) path)
                   (Leaf leaf') promoteKey (Leaf newLeaf).

(** [values[pos] = value]. *)
Definition setValue (pos : nat) (value : V) (l : LeafNode) : LeafNode :=
  mkLeaf (lid l) (lkeys l) (<[pos := value]> (lvalues l)) (lnext l) (lprev l).

(** [insert]. *)
Definition insert (t : BPlusTree) (key : Z) (value : V) : BPlusTree :=
  match root t with
  | None =>
      withRootAlloc t
        (Some (Leaf (insertAt 0 key value (mkLeaf (nextLeaf t) [] [] None None))))
  | Some r =>
      match findLeaf [] r key with
      | None => t
      | Some (path, leaf) =>
          let pos := findKeyPosition (lkeys leaf) key in
          if (pos <? Z.of_nat (length (lkeys leaf)))
             && (nth (Z.to_nat pos) (lkeys leaf) 0 =? key)
          then withRoot t (Some (rebuild path (Leaf (setValue (Z.to_nat pos) value leaf))))
          else
            let leaf' := insertAt (Z.to_nat pos) key value leaf in
            if isFull (maxKeys t) (lkeys leaf')
            then withRootAlloc t (Some (splitLeaf (maxKeys t) (nextLeaf t) path leaf'))
            else withRoot t (Some (rebuild path (Leaf leaf')))
      end
  end.

(** [redistributeNodes]: the node, the sibling and the parent's keys
    afterwards.  [keys.back()] of a vector is its last slot in use. *)
Definition redistributeNodes (node sibling : Node) (parentKeys : list Z)
    (parentIndex : nat) (isLeftSibling : bool) : Node * Node * list Z :=
  match node, sibling with
  | Leaf leaf, Leaf siblingLeaf =>
      if isLeftSibling then
        let n := length (lkeys siblingLeaf) in
        let leaf' :=
          mkLeaf (lid leaf)
                 (drop (n - 1) (lkeys siblingLeaf) ++ lkeys leaf)
                 (drop (n - 1) (lvalues siblingLeaf) ++ lvalues leaf)
                 (lnext leaf) (lprev leaf) in
        let siblingLeaf' :=
          mkLeaf (lid siblingLeaf)
                 (take (n - 1) (lkeys siblingLeaf))
                 (take (n - 1) (lvalues siblingLeaf))
                 (lnext siblingLeaf) (lprev siblingLeaf) in
        (Leaf leaf', Leaf siblingLeaf',
         <[parentIndex := nth 0 (lkeys leaf') 0]> parentKeys)
      else
        let leaf' :=
          mkLeaf (lid leaf)
                 (lkeys leaf ++ take 1 (lkeys siblingLeaf))
                 (lvalues leaf ++ take 1 (lvalues siblingLeaf))
                 (lnext leaf) (lprev leaf) in
        let siblingLeaf' :=
          mkLeaf (lid siblingLeaf)
                 (drop 1 (lkeys siblingLeaf))
                 (drop 1 (lvalues siblingLeaf))
                 (lnext siblingLeaf) (lprev siblingLeaf) in
        (Leaf leaf', Leaf siblingLeaf',
         <[parentIndex := nth 0 (lkeys siblingLeaf') 0]> parentKeys)
  | Internal keys children, Internal siblingKeys siblingChildren =>
      if isLeftSibling then
        let n := length siblingKeys in
        (Internal (nth parentIndex parentKeys 0 :: keys)
                  (drop n siblingChildren ++ children),
         Internal (take (n - 1) siblingKeys) (take n siblingChildren),
         <[parentIndex := nth (n - 1) siblingKeys 0]> parentKeys)
      else
        (Internal (keys ++ [nth parentIndex parentKeys 0])
                  (children ++ take 1 siblingChildren),
         Internal (drop 1 siblingKeys) (drop 1 siblingChildren),
         <[parentIndex := nth 0 siblingKeys 0]> parentKeys)
  | _, _ => (node, sibling, parentKeys)
  end.

(** The node that [mergeNodes] leaves in the left slot. *)
Definition mergeNodes_merged (left right : Node) (parentKeys : list Z)
    (parentIndex : nat) : Node :=
  match left, right with
  | Leaf leftLeaf, Leaf rightLeaf =>
      Leaf (mkLeaf (lid leftLeaf)
                   (lkeys leftLeaf ++ lkeys rightLeaf)
                   (lvalues leftLeaf ++ lvalues rightLeaf)
                   (lnext rightLeaf) (lprev leftLeaf))
  | Internal leftKeys leftChildren, Internal rightKeys rightChildren =>
      Internal (leftKeys ++ nth parentIndex parentKeys 0 :: rightKeys)
               (leftChildren ++ rightChildren)
  | _, _ => left
  end.

(** The chain assignment of a leaf merge:
    [if (rightLeaf->next) rightLeaf->next->prev = leftLeaf]. *)
Definition mergeNodes_relink (left right : Node) : LeafNode → LeafNode :=
  match left, right with
  | Leaf leftLeaf, Leaf rightLeaf => setPrev (lnext rightLeaf) (lid leftLeaf)
  | _, _ => fun l => l
  end.

(** The parent's keys and child slots after [mergeNodes] removed the
    separator and the right child. *)
Definition mergeNodes_parent (left right : Node) (parentKeys : list Z)
    (children : list Node) (parentIndex : nat) : list Z * list Node :=
  let merged := mergeNodes_merged left right parentKeys parentIndex in
  (removeKeyAt parentIndex parentKeys,
   removeChildAt (parentIndex + 1) (<[parentIndex := merged]> children)).

Definition relinkRoot (relink : LeafNode → LeafNode) (r : option Node)
    : option Node :=
  match r with
  | Some n => Some (mapLeaves relink n)
  | None => None
  end.

Definition hasSurplus (minKeys : Z) (sibling : option Node) : bool :=
  match sibling with
  | Some s => minKeys <? numKeys s
  | None => false
  end.

(** [deleteEntry]; the result is the root afterwards ([None]: the tree
    became empty).  [getNodeIndex] is the index recorded in the frame.
    The call of [mergeNodes] is unfolded in place, since the two
    functions call each other.  The chain assignment of a leaf merge
    reaches a leaf somewhere else in the tree; nothing after it reads or
    writes a chain field, so it is applied to the resulting root.  A
    missing sibling slot, which the source would dereference, leaves the
    tree as it is. *)
Fixpoint deleteEntry (minKeys : Z) (path : list Frame) (node : Node)
    : option Node :=
  match path with
  | [] =>
      if numKeys node =? 0 then
        match node with
        | Internal _ children => head children
        | Leaf _ => None
        end
      else Some node
  | parent :: up =>
      let nodeIndex := fidx parent in
      let children := <[nodeIndex := node]> (fchildren parent) in
      let leftSibling :=
        if (0 <? nodeIndex)%nat then children !! (nodeIndex - 1)%nat else None in
      let rightSibling :=
        if (Z.of_nat nodeIndex <? Z.of_nat (length (fkeys parent)))
        then children !! (nodeIndex + 1)%nat else None in
      if hasSurplus minKeys leftSibling then
        match leftSibling with
        | Some sibling =>
            let '(node', sibling', keys') :=
              redistributeNodes node sibling (fkeys parent) (nodeIndex - 1) true in
            Some (rebuild up
              (Internal keys'
                 (<[(nodeIndex - 1)%nat := sibling']> (<[nodeIndex := node']> children))))
        | None => Some (rebuild path node)
        end
      else if hasSurplus minKeys rightSibling then
        match rightSibling with
        | Some sibling =>
            let '(node', sibling', keys') :=
              redistributeNodes node sibling (fkeys parent) nodeIndex false in
            Some (rebuild up
              (Internal keys'
                 (<[(nodeIndex + 1)%nat := sibling']> (<[nodeIndex := node']> children))))
        | None => Some (rebuild path node)
        end
      else
        let merge :=
          if (0 <? nodeIndex)%nat then
            match children !! (nodeIndex - 1)%nat with
            | Some sibling => Some (sibling, node, (nodeIndex - 1)%nat)
            | None => None
            end
          else
            match children !! (nodeIndex + 1)%nat with
            | Some sibling => Some (node, sibling, nodeIndex)
            | None => None
            end in
        match merge with
        | Some (mleft, mright, parentIndex) =>
            let '(keys', children') :=
              mergeNodes_parent mleft mright (fkeys parent) children parentIndex in
            relinkRoot (mergeNodes_relink mleft mright)
              (if isUnderflow minKeys keys'
               then deleteEntry minKeys up (Internal keys' children')
               else Some (rebuild up (Internal keys' children')))
        | None => Some (rebuild path node)
        end
  end.

(** [mergeNodes]. *)
Definition mergeNodes (minKeys : Z) (left right : Node) (parentKeys : list Z)
    (children : list Node) (parentIndex : nat) (up : list Frame) : option Node :=
  let '(keys', children') :=
    mergeNodes_parent left right parentKeys children parentIndex in
  relinkRoot (mergeNodes_relink left right)
    (if isUnderflow minKeys keys'
     then deleteEntry minKeys up (Internal keys' children')
     else Some (rebuild up (Internal keys' children'))).

(** The scan for the key in [remove]; [None] is [pos == -1]. *)
Fixpoint findPos (keys : list Z) (key : Z) : option nat :=
  match keys with
  | [] => None
  | k :: keys' =>
      if k =? key then Some O
      else match findPos keys' key with Some i => Some (S i) | None => None end
  end.

(** [remove]: the result and the tree afterwards. *)
Definition remove (t : BPlusTree) (key : Z) : bool * BPlusTree :=
  match root t with
  | None => (false, t)
  | Some r =>
      match findLeaf [] r key with
      | None => (false, t)
      | Some (path, leaf) =>
          match findPos (lkeys leaf) key with
          | None => (false, t)
          | Some pos =>
              let leaf' := removeAt pos leaf in
              match path with
              | [] =>
                  if Z.of_nat (length (lkeys leaf')) =? 0
                  then (true, withRoot t None)
                  else (true, withRoot t (Some (Leaf leaf')))
              | _ :: _ =>
                  if isUnderflow (minKeys t) (lkeys leaf')
                  then (true, withRoot t (deleteEntry (minKeys t) path (Leaf leaf')))
                  else (true, withRoot t (Some (rebuild path (Leaf leaf'))))
              end
          end
      end
  end.

(** The leaves in the order of the owning tree, left to right. *)
Fixpoint leaves (n : Node) : list LeafNode :=
  match n with
  | Leaf l => [l]
  | Internal _ children => flat_map leaves children
  end.

(** Dereferencing a leaf identity. *)
Definition leafAt (r : Node) (id : nat) : option LeafNode :=
  find (fun l => Nat.eqb (lid l) id) (leaves r).

(** The [for] loop of [rangeQuery] over one leaf; the flag tells that the
    loop executed [return result]. *)
Fixpoint rangeQuery_leaf (keys : list Z) (values : list V) (start end_ : Z)
    (result : list (Z * V)) : list (Z * V) * bool :=
  match keys, values with
  | k :: keys', v :: values' =>
      if (start <=? k) && (k <=? end_)
      then rangeQuery_leaf keys' values' start end_ (result ++ [(k, v)])
      else if end_ <? k then (result, true)
      else rangeQuery_leaf keys' values' start end_ result
  | _, _ => (result, false)
  end.

(** The [while (leaf)] loop of [rangeQuery]; [None] when [fuel] leaves
    were visited without reaching the end of the chain. *)
Fixpoint rangeQuery_walk (fuel : nat) (r : Node) (leaf : option LeafNode)
    (start end_ : Z) (result : list (Z * V)) : option (list (Z * V)) :=
  match leaf with
  | None => Some result
  | Some l =>
      match fuel with
      | O => None
      | S fuel' =>
          match rangeQuery_leaf (lkeys l) (lvalues l) start end_ result with
          | (result', true) => Some result'
          | (result', false) =>
              rangeQuery_walk fuel' r
                (match lnext l with Some id => leafAt r id | None => None end)
                start end_ result'
          end
      end
  end.

(** [rangeQuery]; the chain of a tree cannot have more leaves than the
    tree, which bounds the walk. *)
Definition rangeQuery (t : BPlusTree) (start end_ : Z) : option (list (Z * V)) :=
  match root t with
  | None => Some []
  | Some r =>
      match findLeaf [] r start with
      | None => Some []
      | Some (_, leaf) =>
          rangeQuery_walk (length (leaves r)) r (Some leaf) start end_ []
      end
  end.

(** [height]. *)
Fixpoint height_from (current : Node) : Z :=
  match current with
  | Leaf _ => 1
  | Internal _ [] => 2
  | Internal _ (c :: _) => 1 + height_from c
  end.

Definition height (t : BPlusTree) : Z :=
  match root t with
  | None => 0
  | Some r => height_from r
  end.

(** The sortedness loop of [validateNode]: [false] when some
    [keys[i-1] >= keys[i]]. *)
Fixpoint keysSorted (keys : list Z) : bool :=
  match keys with
  | k1 :: ((k2 :: _) as keys') => (k1 <? k2) && keysSorted keys'
  | _ => true
  end.

(** [validateNode]; [leafLevel] is passed by reference in the source and
    is returned here together with the result.  [isRoot] is
    [node == root].  The loop over the children reads the slots
    [0 .. numKeys]; a slot that holds no child is the null pointer, which
    [validateNode] accepts, and the slots after these are not read. *)
Fixpoint validateNode (minKeys maxKeys : Z) (isRoot : bool) (node : Node)
    (level : Z) (leafLevel : Z) : bool * Z :=
  if negb isRoot && ((numKeys node <? minKeys) || (maxKeys <? numKeys node))
  then (false, leafLevel)
  else if negb (keysSorted (keysOf node)) then (false, leafLevel)
  else
    match node with
    | Leaf _ =>
        if leafLevel =? -1 then (true, level)
        else if negb (leafLevel =? level) then (false, leafLevel)
        else (true, leafLevel)
    | Internal keys children =>
        (fix each (cs : list Node) (numChildren : nat) (leafLevel : Z) {struct cs}
             : bool * Z :=
           match cs, numChildren with
           | child :: cs', S numChildren' =>
               match validateNode minKeys maxKeys false child (level + 1) leafLevel with
               | (true, leafLevel') => each cs' numChildren' leafLevel'
               | (false, leafLevel') => (false, leafLevel')
               end
           | _, _ => (true, leafLevel)
           end) children (S (length keys)) leafLevel
    end.

(** [validate]. *)
Definition validate (t : BPlusTree) : bool :=
  match root t with
  | None => true
  | Some r => fst (validateNode (minKeys t) (maxKeys t) true r 0 (-1))
  end.

(** The stored entries, in leaf order. *)
Definition leafEntries (l : LeafNode) : list (Z * V) :=
  zip (lkeys l) (lvalues l).

Definition entriesOf (n : Node) : list (Z * V) :=
  flat_map leafEntries (leaves n).

Definition entries (t : BPlusTree) : list (Z * V) :=
  match root t with
  | None => []
  | Some r => entriesOf r
  end.

End Model.

Arguments LeafNode : clear implicits.
Arguments Node : clear implicits.
Arguments BPlusTree : clear implicits.
Arguments Frame : clear implicits.

(** * Invariants *)

(** The position binary search finds in strictly increasing keys: the
    number of keys below [key]. *)
Fixpoint lowerBound (keys : list Z) (key : Z) : nat :=
  match keys with
  | [] => O
  | k :: keys' => if k <? key then S (lowerBound keys' key) else O
  end.

(** Key ranges.  A subtree owns a half-open range [[lo, hi)] of keys; an
    absent bound is infinite. *)
Definition ble (lo : option Z) (k : Z) : Prop :=
  match lo with Some a => a <= k | None => True end.

Definition blt (lo hi : option Z) : Prop :=
  match lo, hi with Some a, Some b => a < b | _, _ => True end.

Definition inRange (lo hi : option Z) (k : Z) : Prop :=
  ble lo k ∧ blt (Some k) hi.

(** The bound that the last of [ks] (resp. the first) puts on what
    follows (resp. precedes) it. *)
Definition lastB (lo : option Z) (ks : list Z) : option Z :=
  match last ks with Some k => Some k | None => lo end.

Definition headB (ks : list Z) (hi : option Z) : option Z :=
  match ks with k :: _ => Some k | [] => hi end.

(** * The stored map

    The logical content of a tree is the list of its entries in leaf
    order, strictly increasing in the key.  [upsert], [erase] and [assoc]
    are insertion-or-overwrite, removal and lookup on such lists. *)
Fixpoint upsert {V} (k : Z) (v : V) (es : list (Z * V)) : list (Z * V) :=
  match es with
  | [] => [(k, v)]
  | (k', v') :: es' =>
      if k' <? k then (k', v') :: upsert k v es'
      else if k' =? k then (k, v) :: es'
      else (k, v) :: es
  end.

Fixpoint erase {V} (k : Z) (es : list (Z * V)) : list (Z * V) :=
  match es with
  | [] => []
  | (k', v') :: es' => if k' =? k then es' else (k', v') :: erase k es'
  end.

Fixpoint assoc {V} (k : Z) (es : list (Z * V)) : option V :=
  match es with
  | [] => None
  | (k', v') :: es' => if k' =? k then Some v' else assoc k es'
  end.

(** What merging does to the leaves: nothing for internal nodes; two
    adjacent leaves become one. *)
Definition mergeLeavesRel {V} (h : nat) (left right merged : Node V) : Prop :=
  match h with
  | S _ =>
      leaves merged = leaves left ++ leaves right ∧
      ∀ l, mergeNodes_relink left right l = l
  | O =>
      ∃ l r m,
        left = Leaf l ∧ right = Leaf r ∧ merged = Leaf m ∧
        lid m = lid l ∧ lprev m = lprev l ∧ lnext m = lnext r ∧
        leafEntries m = leafEntries l ++ leafEntries r ∧
        mergeNodes_relink left right = setPrev (lnext r) (lid l)
  end.

(** The identity and links of a leaf. *)
Definition linksOf {V} (l : LeafNode V) : nat * option nat * option nat :=
  (lid l, lnext l, lprev l).

(** What one step of [deleteEntry] does to the leaves [Cf] below the
    parent: redistribution keeps the leaves, their links and the sequence
    of entries; merging is as [mergeLeavesRel] says. *)
Definition frameRedistributed {V} (h : nat) (Cf : list (LeafNode V))
    (cs' : list (Node V)) : Prop :=
  map linksOf (flat_map leaves cs') = map linksOf Cf ∧
  flat_map leafEntries (flat_map leaves cs') = flat_map leafEntries Cf ∧
  (h ≠ O → flat_map leaves cs' = Cf).

Definition frameMerged {V} (h : nat) (Cf : list (LeafNode V))
    (cs' : list (Node V)) (relink : LeafNode V → LeafNode V) : Prop :=
  match h with
  | S _ => flat_map leaves cs' = Cf ∧ ∀ l, relink l = l
  | O =>
      ∃ A B l r m,
        Cf = A ++ l :: r :: B ∧ flat_map leaves cs' = A ++ m :: B ∧
        lid m = lid l ∧ lprev m = lprev l ∧ lnext m = lnext r ∧
        leafEntries m = leafEntries l ++ leafEntries r ∧
        relink = setPrev (lnext r) (lid l)
  end.

Section Invariants.
Context {V : Type}.

(** Every key of every leaf of [ls] satisfies [P]. *)
Definition allKeys (P : Z → Prop) (ls : list (LeafNode V)) : Prop :=
  Forall (fun l => Forall P (lkeys l)) ls.

(** Below everything from [lo] on, resp. not below [hi]. *)
Definition belowB (lo : option Z) (k : Z) : Prop := ∀ x, ble lo x → k < x.
Definition aboveB (hi : option Z) (k : Z) : Prop := ∀ x, blt (Some x) hi → x < k.

Definition leafKeys (ls : list (LeafNode V)) : list Z := flat_map lkeys ls.

Section Children.
Variable P : option Z → option Z → Node V → Prop.

(** Children [c0 .. cn] separated by keys [k0 .. k(n-1)]: child [ci]
    owns [[k(i-1), ki)], and the separators strictly increase within
    [(lo, hi)]. *)
Fixpoint wf_children (lo hi : option Z) (ks : list Z) (cs : list (Node V))
    {struct cs} : Prop :=
  match cs with
  | [] => False
  | c :: cs' =>
      match ks with
      | [] => cs' = [] ∧ P lo hi c ∧ blt lo hi
      | k :: ks' =>
          P lo (Some k) c ∧ blt lo (Some k) ∧ wf_children (Some k) hi ks' cs'
      end
  end.

(** A run [c0 k0 c1 k1 ..] of children each followed by its separator. *)
Fixpoint wfL (lo : option Z) (ks : list Z) (cs : list (Node V)) {struct cs}
    : Prop :=
  match cs, ks with
  | [], [] => True
  | c :: cs', k :: ks' => P lo (Some k) c ∧ blt lo (Some k) ∧ wfL (Some k) ks' cs'
  | _, _ => False
  end.

(** A run [k0 c0 k1 c1 ..] of children each preceded by its separator. *)
Fixpoint wfR (ks : list Z) (cs : list (Node V)) (hi : option Z) {struct cs}
    : Prop :=
  match cs, ks with
  | [], [] => True
  | c :: cs', k :: ks' =>
      P (Some k) (headB ks' hi) c ∧ blt (Some k) (headB ks' hi) ∧ wfR ks' cs' hi
  | _, _ => False
  end.

End Children.

Variables (minK maxK : Z).

Definition wf_leaf (lo hi : option Z) (l : LeafNode V) : Prop :=
  length (lvalues l) = length (lkeys l) ∧
  StronglySorted Z.lt (lkeys l) ∧
  Forall (inRange lo hi) (lkeys l).

Definition countOk (n : Node V) : Prop := minK <= numKeys n <= maxK.

(** Everything the invariant says about the subtree [n] of height [h]
    owning [[lo, hi)], except the bounds on the key count of [n] itself. *)
Fixpoint wf_body (h : nat) (lo hi : option Z) (n : Node V) {struct n} : Prop :=
  match n with
  | Leaf l => h = O ∧ wf_leaf lo hi l
  | Internal ks cs =>
      match h with
      | O => False
      | S h' => wf_children (fun lo hi c => wf_body h' lo hi c ∧ countOk c) lo hi ks cs
      end
  end.

Definition wf_node (h : nat) (lo hi : option Z) (n : Node V) : Prop :=
  wf_body h lo hi n ∧ countOk n.

(** The least key count of the node the path leads to its parent from:
    the root needs one key, every other node [minKeys]. *)
Definition countLo (up : list (Frame V)) : Z :=
  match up with [] => 1 | _ :: _ => minK end.

(** The ancestors of a node of height [h] owning [[lo, hi)]. *)
Fixpoint wf_path (h : nat) (lo hi : option Z) (path : list (Frame V)) : Prop :=
  match path with
  | [] => lo = None ∧ hi = None
  | f :: up =>
      let i := fidx f in
      let ks := fkeys f in
      let cs := fchildren f in
      ∃ plo phi,
        (i <= length ks)%nat ∧ length cs = S (length ks) ∧
        wfL (wf_node h) plo (take i ks) (take i cs) ∧
        wfR (wf_node h) (drop i ks) (drop (S i) cs) phi ∧
        lo = lastB plo (take i ks) ∧ hi = headB (drop i ks) phi ∧
        blt lo hi ∧
        countLo up <= Z.of_nat (length ks) <= maxK ∧
        wf_path (S h) plo phi up
  end.

(** A subtree at the end of a path, with the key count its place asks
    for. *)
Definition wf_at (path : list (Frame V)) (h : nat) (lo hi : option Z)
    (n : Node V) : Prop :=
  wf_path h lo hi path ∧ wf_body h lo hi n ∧ countLo path <= numKeys n <= maxK.

Definition wf_root (r : Node V) : Prop :=
  ∃ h, wf_body h None None r ∧ 1 <= numKeys r <= maxK.

(** The leaves left and right of the node a path leads to. *)
Fixpoint pathLeft (path : list (Frame V)) : list (LeafNode V) :=
  match path with
  | [] => []
  | f :: up => pathLeft up ++ flat_map leaves (take (fidx f) (fchildren f))
  end.

Fixpoint pathRight (path : list (Frame V)) : list (LeafNode V) :=
  match path with
  | [] => []
  | f :: up => flat_map leaves (drop (S (fidx f)) (fchildren f)) ++ pathRight up
  end.

(** The chain.  In a segment [ls] of it, entered from [prev] and left
    towards [nx], every [next] is the identity of the following leaf and
    every [prev] that of the preceding one. *)
Definition headId (ls : list (LeafNode V)) (nx : option nat) : option nat :=
  match ls with l :: _ => Some (lid l) | [] => nx end.

Definition lastId (prev : option nat) (ls : list (LeafNode V)) : option nat :=
  match last ls with Some l => Some (lid l) | None => prev end.

Fixpoint chainSeg (prev : option nat) (ls : list (LeafNode V)) (nx : option nat)
    : Prop :=
  match ls with
  | [] => True
  | l :: ls' =>
      lprev l = prev ∧ lnext l = headId ls' nx ∧ chainSeg (Some (lid l)) ls' nx
  end.

(** The whole chain: distinct leaves, null at both ends. *)
Definition chainOk (ls : list (LeafNode V)) : Prop :=
  NoDup (map lid ls) ∧ chainSeg None ls None.

(** Two leaves with the same identity and links. *)
Definition sameLinks (a b : LeafNode V) : Prop :=
  lid a = lid b ∧ lnext a = lnext b ∧ lprev a = lprev b.

(** An assignment to chain fields only. *)
Definition keepsData (f : LeafNode V → LeafNode V) : Prop :=
  ∀ l, lid (f l) = lid l ∧ lkeys (f l) = lkeys l ∧ lvalues (f l) = lvalues l.

End Invariants.

(** * Observations of a tree *)

(** The keys a range query asks for. *)
Definition keyIn {V} (start end_ : Z) (p : Z * V) : bool :=
  (start <=? p.1) && (p.1 <=? end_).

(** The leftmost leaf: the first child, repeatedly. *)
Fixpoint leftmost {V} (n : Node V) : option (LeafNode V) :=
  match n with
  | Leaf l => Some l
  | Internal _ [] => None
  | Internal _ (c :: _) => leftmost c
  end.

(** The leaves met from the leaf [cur] on by following [next], at most
    [fuel] of them. *)
Fixpoint chainWalk {V} (fuel : nat) (r : Node V) (cur : option nat)
    : list (LeafNode V) :=
  match fuel, cur with
  | S fuel', Some id =>
      match leafAt r id with
      | Some l => l :: chainWalk fuel' r (lnext l)
      | None => []
      end
  | _, _ => []
  end.

(** The chain of a tree, from its leftmost leaf. *)
Definition chainOf {V} (r : Node V) : list (LeafNode V) :=
  chainWalk (length (leaves r)) r (option_map lid (leftmost r)).

(** All the nodes of a subtree, the subtree's root first. *)
Fixpoint subnodes {V} (n : Node V) : list (Node V) :=
  n :: match n with
       | Leaf _ => []
       | Internal _ children => flat_map subnodes children
       end.

(** The depth of every leaf below a node at depth [d]. *)
Fixpoint leafDepths {V} (d : Z) (n : Node V) : list Z :=
  match n with
  | Leaf _ => [d]
  | Internal _ children => flat_map (leafDepths (d + 1)) children
  end.

(** The nodes other than the root. *)
Definition nonRoot {V} (r : Node V) : list (Node V) :=
  match r with
  | Leaf _ => []
  | Internal _ children => flat_map subnodes children
  end.

(** An internal node has one child more than keys. *)
Definition childCount {V} (n : Node V) : Prop :=
  match n with
  | Leaf _ => True
  | Internal ks cs => length cs = S (length ks)
  end.

(** The bounds on the number of keys of a node, and the four properties
    below of a subtree at depth [level] whose leaves are at depth [d]. *)
Definition bounds {V} (minK maxK : Z) (n : Node V) : Prop :=
  minK <= numKeys n <= maxK.

Definition valid_sub {V} (minK maxK : Z) (n : Node V) (level d : Z) : Prop :=
  Forall (fun n => StronglySorted Z.lt (keysOf n)) (subnodes n) ∧
  Forall childCount (subnodes n) ∧
  Forall (bounds minK maxK) (nonRoot n) ∧
  Forall (fun x => x = d) (leafDepths level n).

(** The four properties of the nodes of a tree that do not relate a
    separator to the subtrees around it: keys strictly increasing within
    every node; all leaves at one depth; every node but the root holds
    between [minKeys] and [maxKeys] keys; an internal node has one child
    more than keys. *)
Record Checked {V} (minK maxK : Z) (r : Node V) : Prop := mkChecked {
  keys_increasing : Forall (fun n => StronglySorted Z.lt (keysOf n)) (subnodes r);
  leaves_level : ∃ d, Forall (fun x => x = d) (leafDepths 0 r);
  nonroot_bounds : Forall (bounds minK maxK) (nonRoot r);
  child_count : Forall childCount (subnodes r)
}.

(** The structural invariants of the data model: the four above, and the
    root, exempt from the lower bound only, holds at most [maxKeys]
    keys. *)
Definition Structure {V} (minK maxK : Z) (r : Node V) : Prop :=
  Checked minK maxK r ∧ numKeys r <= maxK.

(** The tree as [validateNode] reads it: of an internal node the
    children in the slots [0 .. numKeys], and no other. *)
Fixpoint trim {V} (n : Node V) : Node V :=
  match n with
  | Leaf l => Leaf l
  | Internal ks cs => Internal ks (take (S (length ks)) (map trim cs))
  end.

(** What the validator checks of a tree: of the nodes it reads, keys
    strictly increasing within every node; the leaves at one depth;
    every node but the root holds between [minKeys] and [maxKeys] keys.
    The number of children of an internal node is not among them. *)
Record Validated {V} (minK maxK : Z) (r : Node V) : Prop := mkValidated {
  val_keys : Forall (fun n => StronglySorted Z.lt (keysOf n)) (subnodes (trim r));
  val_level : ∃ d, Forall (fun x => x = d) (leafDepths 0 (trim r));
  val_bounds : Forall (bounds minK maxK) (nonRoot (trim r))
}.

(** [maxKeys] and [minKeys] as the constructor derives them from an order
    of at least 3. *)
Definition paramsOk (minK maxK : Z) : Prop :=
  1 <= minK ∧ (maxK = 2 * minK ∨ maxK = 2 * minK + 1).

(** The invariant of the tree object. *)
Definition Inv {V} (t : BPlusTree V) : Prop :=
  paramsOk (minKeys t) (maxKeys t) ∧
  match root t with
  | None => True
  | Some r =>
      wf_root (minKeys t) (maxKeys t) r ∧
      chainOk (leaves r) ∧
      Forall (fun l => (lid l < nextLeaf t)%nat) (leaves r)
  end.

(** * Bulk loading

    [bulkLoad] is exercised by [tests/test_bulk_load.cpp], but its body
    is not among the sources.  The definitions of this section follow
    section 4.6 of the specification. *)

Section BulkLoad.
Context {V : Type}.

(** Modelled from the spec: the body of [bulkLoad] is missing; this is
    step 1 of 4.6, the stable sort by key, done by insertion.  An entry
    goes after the entries already placed whose key is not greater, so
    that entries with equal keys keep the order of the input. *)
Fixpoint insertByKey (p : Z * V) (es : list (Z * V)) : list (Z * V) :=
  match es with
  | [] => [p]
  | q :: es' => if q.1 <=? p.1 then q :: insertByKey p es' else p :: es
  end.

(** Modelled from the spec: the body of [bulkLoad] is missing; this is
    step 1 of 4.6 on the whole input, entry after entry in input order. *)
Definition sortByKey (data : list (Z * V)) : list (Z * V) :=
  foldl (fun acc p => insertByKey p acc) [] data.

(** Modelled from the spec: the body of [bulkLoad] is missing; this is
    step 2 of 4.6: of the entries with one key, which the sort has made
    adjacent, the last is kept. *)
Fixpoint dedupLast (es : list (Z * V)) : list (Z * V) :=
  match es with
  | [] => []
  | p :: es' =>
      match es' with
      | q :: _ => if p.1 =? q.1 then dedupLast es' else p :: dedupLast es'
      | [] => [p]
      end
  end.

(** Modelled from the spec: the body of [bulkLoad] is missing; this is
    the grouping of steps 3 and 4 of 4.6: groups of at most [hi] members,
    left to right, and of at least [lo] members: when what remains after
    a full group would be fewer than [lo], the last two groups share the
    remainder, since the loader must produce structures the validator
    accepts (section 2).  A list of at most [hi] members is one group,
    whatever [lo] is: that is the final remainder forcing fewer than
    [lo] members, in the one node that may hold them, the root.
    [fuel] bounds the number of groups; the length of the list is
    enough. *)
Fixpoint chunks {A} (fuel lo hi : nat) (l : list A) : list (list A) :=
  match fuel with
  | O => [l]
  | S fuel' =>
      if (length l <=? hi)%nat then [l]
      else if (lo + hi <=? length l)%nat
           then take hi l :: chunks fuel' lo hi (drop hi l)
           else [take (length l - lo) l; drop (length l - lo) l]
  end.

(** Modelled from the spec: the body of [bulkLoad] is missing; this is
    step 3 of 4.6: one leaf per group of entries, each linked to its
    neighbours.  [id] is the identity of the first leaf and [prev] the
    leaf before it. *)
Fixpoint linkLeaves (id : nat) (prev : option nat) (groups : list (list (Z * V)))
    : list (LeafNode V) :=
  match groups with
  | [] => []
  | es :: groups' =>
      mkLeaf id (map fst es) (map snd es)
             (match groups' with [] => None | _ :: _ => Some (S id) end) prev
      :: linkLeaves (S id) (Some id) groups'
  end.

(** Modelled from the spec: the body of [bulkLoad] is missing; this is
    the parent of a group of nodes in step 4 of 4.6.  A node travels with
    its minimal key; the separators of the parent are the minimal keys of
    the members after the first. *)
Definition mkParent (group : list (Z * Node V)) : Z * Node V :=
  (match group with (k, _) :: _ => k | [] => 0 end,
   Internal (map fst (tail group)) (map snd group)).

(** Modelled from the spec: the body of [bulkLoad] is missing; this is
    step 4 of 4.6: parent levels are built until one node remains.
    [None] when [fuel] levels did not suffice. *)
Fixpoint buildLevels (fuel : nat) (minK maxK : Z) (level : list (Z * Node V))
    : option (Node V) :=
  match level with
  | [] => None
  | [(_, n)] => Some n
  | _ :: _ :: _ =>
      match fuel with
      | O => None
      | S fuel' =>
          buildLevels fuel' minK maxK
            (map mkParent
               (chunks (length level) (Z.to_nat (minK + 1)) (Z.to_nat (maxK + 1)) level))
      end
  end.

(** Modelled from the spec: the body of [bulkLoad] is missing; this is
    a leaf with its minimal key, its first, as step 4 of 4.6 uses it. *)
Definition leafItem (l : LeafNode V) : Z * Node V :=
  (match lkeys l with k :: _ => k | [] => 0 end, Leaf l).

(** Modelled from the spec: the body of [bulkLoad] is missing; this is
    4.6 as a whole.  The content of the tree is discarded; the entries
    are sorted, deduplicated, packed into leaves, and the levels above
    built.  No entry gives the empty tree. *)
Definition bulkLoad (t : BPlusTree V) (data : list (Z * V)) : BPlusTree V :=
  let es := dedupLast (sortByKey data) in
  let groups := chunks (length es) (Z.to_nat (minKeys t)) (Z.to_nat (maxKeys t)) es in
  let ls := linkLeaves (nextLeaf t) None groups in
  match es with
  | [] => mkTree None (order t) (maxKeys t) (minKeys t) (nextLeaf t)
  | _ :: _ =>
      mkTree (buildLevels (length ls) (minKeys t) (maxKeys t) (map leafItem ls))
             (order t) (maxKeys t) (minKeys t) (nextLeaf t + length ls)%nat
  end.

End BulkLoad.

(** The shape of a packed leaf that is not the root. *)
Definition packed {V} (minK maxK : Z) (l : LeafNode V) : Prop :=
  length (lvalues l) = length (lkeys l) ∧
  1 <= Z.of_nat (length (lkeys l)) ∧
  minK <= Z.of_nat (length (lkeys l)) <= maxK.

(** The content a sequence of upserts leaves. *)
Definition upsertAll {V} (data : list (Z * V)) : list (Z * V) :=
  foldl (fun acc p => upsert p.1 p.2 acc) [] data.

(** Sequential insertion. *)
Definition insertAll {V} (t : BPlusTree V) (data : list (Z * V)) : BPlusTree V :=
  foldl (fun t p => insert t p.1 p.2) t data.

(** The trees that the public operations produce, from a new tree of an
    order below [INT_MAX]: the constructor computes [order + 1]. *)
Inductive reachable {V} (MIN_ORDER : Z) : BPlusTree V → Prop :=
  | reach_new ord :
      ord < INT_MAX → reachable MIN_ORDER (BPlusTree_new MIN_ORDER ord)
  | reach_insert t key value :
      reachable MIN_ORDER t → reachable MIN_ORDER (insert t key value)
  | reach_remove t key :
      reachable MIN_ORDER t → reachable MIN_ORDER (remove t key).2
  | reach_bulkLoad t data :
      reachable MIN_ORDER t → reachable MIN_ORDER (bulkLoad t data).

(** * The vocabulary of the properties *)

Section Properties.
Context {V : Type}.

(** The entries met along the chain from the leftmost leaf. *)
Definition chainEntries (t : BPlusTree V) : list (Z * V) :=
  match root t with
  | None => []
  | Some r => flat_map leafEntries (chainOf r)
  end.

(** The invariants of the data model on a tree: the structure of its
    nodes; it is empty exactly when the root is absent; its chain visits
    the stored entries, all of them and each once, by strictly increasing
    key.  The chain is the leaves of the tree in their order; it ends by
    itself, the [next] of its last leaf being null, so that a walk
    allowed more steps finds no more; and no leaf is met twice. *)
Record Invariants (t : BPlusTree V) : Prop := mkInvariants {
  inv_structure :
    ∀ r, root t = Some r → Structure (minKeys t) (maxKeys t) r;
  inv_empty : isEmpty t = true ↔ entries t = [];
  inv_chain_leaves : ∀ r, root t = Some r → chainOf r = leaves r;
  inv_chain_ends :
    ∀ r, root t = Some r → ∀ l, last (chainOf r) = Some l → lnext l = None;
  inv_chain_whole :
    ∀ r, root t = Some r →
      ∀ fuel : nat, (length (leaves r) <= fuel)%nat →
        chainWalk fuel r (option_map lid (leftmost r)) = chainOf r;
  inv_chain_once : ∀ r, root t = Some r → NoDup (map lid (chainOf r));
  inv_chain_entries : chainEntries t = entries t;
  inv_chain_sorted : StronglySorted Z.lt (map fst (chainEntries t));
  inv_chain_keys_once : NoDup (map fst (chainEntries t))
}.

(** An insert of [key] makes the key count of a leaf exceed [maxKeys]:
    the key is new, and the leaf it goes to is full. *)
Definition overflows (t : BPlusTree V) (key : Z) : Prop :=
  ∃ r path leaf,
    root t = Some r ∧ findLeaf [] r key = Some (path, leaf) ∧
    findValue leaf key = None ∧
    maxKeys t < Z.of_nat (length (lkeys leaf)) + 1.

(** The insert of [key] splits its leaf at [sp]: of the entries [full]
    of the leaf with the new one, the leaf [left] keeps [[0, sp)], the
    new leaf [right] receives [[sp, count)], the first key of [right] is
    the separator handed to [insertIntoParent], and both leaves are in
    the tree afterwards, [right] next to [left]. *)
Definition splitsAt (sp : nat) (t : BPlusTree V) (key : Z) (value : V) : Prop :=
  ∀ r path leaf,
    root t = Some r → findLeaf [] r key = Some (path, leaf) →
    let full := insertAt (Z.to_nat (findKeyPosition (lkeys leaf) key)) key value leaf in
    ∃ left right sep r',
      lkeys left = take sp (lkeys full) ∧ lvalues left = take sp (lvalues full) ∧
      lkeys right = drop sp (lkeys full) ∧ lvalues right = drop sp (lvalues full) ∧
      head (lkeys right) = Some sep ∧
      r' = insertIntoParent (maxKeys t)
             (mapPath (setPrev (lnext full) (nextLeaf t)) path)
             (Leaf left) sep (Leaf right) ∧
      root (insert t key value) = Some r' ∧
      ∃ A B, leaves r' = A ++ left :: right :: B.

End Properties.

(** ⌈x/2⌉. *)
Definition ceilHalf (x : Z) : Z := (x + 1) / 2.

(** ** Example trees *)

(** Keys 0..99, each with itself as value. *)
Definition upTo (n : nat) : list (Z * Z) :=
  map (fun i => (Z.of_nat i, Z.of_nat i)) (seq 0 n).

(** An empty tree of order 4 and one of order 5. *)
Definition empty4 : BPlusTree Z := BPlusTree_new 3 4.
Definition empty5 : BPlusTree Z := BPlusTree_new 3 5.

(** An empty tree of order 4 with strings as values. *)
Definition emptyS : BPlusTree string := BPlusTree_new 3 4.

(** Trees built by insertion. *)
Definition tree10 : BPlusTree Z :=
  insertAll empty4 [(50, 5); (20, 2); (80, 8); (10, 1); (30, 3); (70, 7); (90, 9);
                    (40, 4); (60, 6)].

Definition tree100 : BPlusTree Z := insertAll empty4 (upTo 100).

(** A root leaf of order 5 holding four entries. *)
Definition fullLeaf5 : BPlusTree Z := insertAll empty5 [(1, 1); (2, 2); (3, 3); (4, 4)].

(** A tree of order 4 whose left leaf holds a key above the separator
    and whose right leaf one below it. *)
Definition misplaced : BPlusTree Z :=
  mkTree
    (Some (Internal [10]
             [Leaf (mkLeaf 0 [20] [0] (Some 1%nat) None);
              Leaf (mkLeaf 1 [5] [0] None (Some 0%nat))]))
    4 3 1 2.



(** A leaf of order 4 left with no key between a sibling with two keys
    and one with one. *)
Definition underflowParent : Frame Z :=
  mkFrame [10; 20]
    [Leaf (mkLeaf 0 [1; 5] [0; 0] (Some 1%nat) None);
     Leaf (mkLeaf 1 [10] [0] (Some 2%nat) (Some 0%nat));
     Leaf (mkLeaf 2 [20] [0] None (Some 1%nat))]
    1.

Definition emptied : Node Z := Leaf (mkLeaf 1 [] [] (Some 2%nat) (Some 0%nat)).

(** The same leaf between a left sibling that holds [minKeys = 1] key,
    no more, and a right sibling that holds two. *)
Definition underflowParentR : Frame Z :=
  mkFrame [10; 20]
    [Leaf (mkLeaf 0 [1] [0] (Some 1%nat) None);
     Leaf (mkLeaf 1 [10] [0] (Some 2%nat) (Some 0%nat));
     Leaf (mkLeaf 2 [20; 25] [0; 0] None (Some 1%nat))]
    1.

(** The same leaf between two siblings that hold one key each. *)
Definition underflowParentM : Frame Z :=
  mkFrame [10; 20]
    [Leaf (mkLeaf 0 [1] [0] (Some 1%nat) None);
     Leaf (mkLeaf 1 [10] [0] (Some 2%nat) (Some 0%nat));
     Leaf (mkLeaf 2 [20] [0] None (Some 1%nat))]
    1.

(** The leftmost leaf of three, left with no key, beside a sibling that
    holds one key. *)
Definition underflowParentF : Frame Z :=
  mkFrame [10; 20]
    [Leaf (mkLeaf 0 [1] [0] (Some 1%nat) None);
     Leaf (mkLeaf 1 [10] [0] (Some 2%nat) (Some 0%nat));
     Leaf (mkLeaf 2 [20] [0] None (Some 1%nat))]
    0.

Definition emptiedF : Node Z := Leaf (mkLeaf 0 [] [] (Some 1%nat) None).

(** A tree of order 4 whose root holds one key and a child in the first
    slot only: the second slot is the null pointer. *)
Definition missingChild : BPlusTree Z :=
  mkTree (Some (Internal [10] [Leaf (mkLeaf 0 [5] [0] None None)])) 4 3 1 1.

(** * Further properties of the nodes *)

(** The order between the separators of an internal node and the keys
    below its children, as the comment on [findChildIndex] has it:
    [keys[i]] is above every key below [children[i]], and no key below
    [children[i+1]] is less than it. *)
Definition separates {V} (ks : list Z) (cs : list (Node V)) : Prop :=
  ∀ (i : nat) sep, ks !! i = Some sep →
    (∀ c, cs !! i = Some c → Forall (fun k => k < sep) (leafKeys (leaves c))) ∧
    (∀ c, cs !! S i = Some c → Forall (fun k => sep <= k) (leafKeys (leaves c))).

(** The root of [tree10]. *)
Definition root10 : Node Z :=
  Internal [30; 50; 80]
    [Leaf (mkLeaf 0 [10; 20] [1; 2] (Some 3%nat) None);
     Leaf (mkLeaf 3 [30; 40] [3; 4] (Some 1%nat) (Some 0%nat));
     Leaf (mkLeaf 1 [50; 60; 70] [5; 6; 7] (Some 2%nat) (Some 3%nat));
     Leaf (mkLeaf 2 [80; 90] [8; 9] None (Some 1%nat))].

(** * Searching within a node *)

Lemma sorted_lookup_lt (keys : list Z) (i j : nat) (a b : Z) :
  StronglySorted Z.lt keys → keys !! i = Some a → keys !! j = Some b →
  (i < j)%nat → a < b.
Proof.
  intros Hs. revert i j. induction Hs as [|k keys Hs IH Hall]; intros i j Hi Hj Hlt.
  - by rewrite lookup_nil in Hi.
  - destruct j as [|j]; [lia|]. destruct i as [|i]; simpl in *.
    + simplify_eq. rewrite Forall_forall in Hall. apply Hall.
      by eapply list_elem_of_lookup_2.
    + eapply IH; eauto. lia.
Qed.

Lemma sorted_nth_lt (keys : list Z) (i j : nat) :
  StronglySorted Z.lt keys → (i < j < length keys)%nat →
  nth i keys 0 < nth j keys 0.
Proof.
  intros Hs [Hij Hj].
  destruct (lookup_lt_is_Some_2 keys i) as [a Ha]; [lia|].
  destruct (lookup_lt_is_Some_2 keys j) as [b Hb]; [lia|].
  rewrite (nth_lookup_Some _ _ _ _ Ha), (nth_lookup_Some _ _ _ _ Hb).
  eapply sorted_lookup_lt; eauto.
Qed.

Lemma lowerBound_le (keys : list Z) (key : Z) :
  (lowerBound keys key <= length keys)%nat.
Proof. induction keys as [|k keys IH]; simpl; [lia|]. case_match; simpl; lia. Qed.

Lemma lowerBound_below (keys : list Z) (key : Z) (i : nat) :
  (i < lowerBound keys key)%nat → nth i keys 0 < key.
Proof.
  revert i. induction keys as [|k keys IH]; simpl; intros i Hi; [lia|].
  destruct (k <? key) eqn:E; [|lia].
  destruct i as [|i]; [lia|]. apply IH. lia.
Qed.

Lemma lowerBound_above (keys : list Z) (key : Z) (i : nat) :
  StronglySorted Z.lt keys →
  (lowerBound keys key <= i < length keys)%nat → key <= nth i keys 0.
Proof.
  intros Hs. revert i. induction Hs as [|k keys Hs IH Hall]; simpl; intros i Hi; [lia|].
  destruct (k <? key) eqn:E.
  - destruct i as [|i]; [lia|]. apply IH. lia.
  - destruct i as [|i]; [lia|].
    rewrite Forall_forall in Hall.
    assert (k < nth i keys 0); [|lia].
    apply Hall, list_elem_of_In, nth_In. lia.
Qed.

(** The binary search loop on strictly increasing keys. *)
Lemma findKeyPosition_loop_sorted (keys : list Z) (key : Z) :
  StronglySorted Z.lt keys →
  ∀ (fuel : nat) (left right : Z),
    0 <= left → right < Z.of_nat (length keys) → left <= right + 1 →
    right - left + 1 <= Z.of_nat fuel →
    left <= Z.of_nat (lowerBound keys key) <= right + 1 →
    findKeyPosition_loop fuel keys key left right (right + 1)
    = Z.of_nat (lowerBound keys key).
Proof.
  intros Hs. induction fuel as [|fuel IH]; intros left right Hl Hr Hlr Hf Hlb; simpl.
  - lia.
  - destruct (left <=? right) eqn:E; [|lia].
    set (mid := left + (right - left) `quot` 2).
    assert (left <= mid <= right) as Hmid by (subst mid; lia).
    destruct (nth (Z.to_nat mid) keys 0 =? key) eqn:E1.
    + destruct (decide (Z.of_nat (lowerBound keys key) = mid)) as [|Hne]; [lia|].
      exfalso.
      destruct (decide (mid < Z.of_nat (lowerBound keys key))).
      * pose proof (lowerBound_below keys key (Z.to_nat mid)). lia.
      * pose proof (lowerBound_above keys key (lowerBound keys key) Hs).
        pose proof (sorted_nth_lt keys (lowerBound keys key) (Z.to_nat mid) Hs).
        lia.
    + destruct (nth (Z.to_nat mid) keys 0 <? key) eqn:E2.
      * apply IH; try lia.
        pose proof (lowerBound_above keys key (Z.to_nat mid) Hs). lia.
      * replace mid with (mid - 1 + 1) at 2 by lia.
        apply IH; try lia.
        pose proof (lowerBound_below keys key (Z.to_nat mid)). lia.
Qed.

Lemma findKeyPosition_sorted (keys : list Z) (key : Z) :
  StronglySorted Z.lt keys →
  findKeyPosition keys key = Z.of_nat (lowerBound keys key).
Proof.
  intros Hs. unfold findKeyPosition.
  pose proof (lowerBound_le keys key).
  replace (Z.of_nat (length keys)) with (Z.of_nat (length keys) - 1 + 1) at 2 by lia.
  apply findKeyPosition_loop_sorted; auto; lia.
Qed.


Lemma lowerBound_app_all_lt (ks1 ks2 : list Z) (key : Z) :
  Forall (fun k => k < key) ks1 →
  lowerBound (ks1 ++ ks2) key = (length ks1 + lowerBound ks2 key)%nat.
Proof.
  induction 1 as [|k ks1 Hk _ IH]; simpl; [done|].
  destruct (k <? key) eqn:E; [|lia]. by rewrite IH.
Qed.

Lemma lowerBound_head_gt (ks : list Z) (key : Z) (hi : option Z) :
  blt (Some key) (headB ks hi) → lowerBound ks key = O.
Proof.
  destruct ks as [|k ks]; simpl; [done|].
  intros ?. destruct (k <? key) eqn:E; lia.
Qed.

Lemma lowerBound_take (keys : list Z) (key : Z) :
  Forall (fun k => k < key) (take (lowerBound keys key) keys).
Proof.
  induction keys as [|k keys IH]; simpl; [constructor|].
  destruct (k <? key) eqn:E; simpl; constructor; [lia|done].
Qed.

Lemma lowerBound_drop (keys : list Z) (key : Z) :
  StronglySorted Z.lt keys →
  Forall (fun k => key <= k) (drop (lowerBound keys key) keys).
Proof.
  induction 1 as [|k keys Hs IH Hall]; simpl; [constructor|].
  destruct (k <? key) eqn:E; simpl; [done|].
  constructor; [lia|]. eapply Forall_impl; [done|]. simpl. lia.
Qed.

Lemma lowerBound_drop_strict (keys : list Z) (key : Z) :
  StronglySorted Z.lt keys →
  ((lowerBound keys key < length keys)%nat →
   nth (lowerBound keys key) keys 0 ≠ key) →
  Forall (fun k => key < k) (drop (lowerBound keys key) keys).
Proof.
  induction 1 as [|k keys Hs IH Hall]; simpl; [constructor|].
  destruct (k <? key) eqn:E; simpl.
  - intros Hne. apply IH. intros ?. apply Hne. lia.
  - intros Hne. assert (k ≠ key) by (apply Hne; lia).
    constructor; [lia|]. eapply Forall_impl; [done|]. simpl. lia.
Qed.

Lemma sorted_insert (keys : list Z) (key : Z) (pos : nat) :
  StronglySorted Z.lt keys →
  Forall (fun k => k < key) (take pos keys) →
  Forall (fun k => key < k) (drop pos keys) →
  StronglySorted Z.lt (take pos keys ++ key :: drop pos keys).
Proof.
  intros Hs Ht Hd. rewrite <-(take_drop pos keys) in Hs.
  apply StronglySorted_app in Hs as (Hc & H1 & H2).
  apply StronglySorted_app. split_and!; [|done|by constructor].
  intros x1 x2 Hx1 Hx2. rewrite Forall_forall in Ht, Hd.
  apply elem_of_cons in Hx2 as [->|Hx2]; [by apply Ht|].
  specialize (Ht _ Hx1). specialize (Hd _ Hx2). lia.
Qed.

(** [findChildIndex] counts the keys that are at most [key]. *)
Lemma findChildIndex_le (keys : list Z) (key : Z) :
  (findChildIndex keys key <= length keys)%nat.
Proof. induction keys as [|k keys IH]; simpl; [lia|]. case_match; simpl; lia. Qed.

Lemma findChildIndex_take (keys : list Z) (key : Z) :
  Forall (fun k => k <= key) (take (findChildIndex keys key) keys).
Proof.
  induction keys as [|k keys IH]; simpl; [constructor|].
  destruct (k <=? key) eqn:E; simpl; constructor; [lia|done].
Qed.

Lemma findChildIndex_drop (keys : list Z) (key : Z) :
  blt (Some key) (headB (drop (findChildIndex keys key) keys) None).
Proof.
  induction keys as [|k keys IH]; simpl; [done|].
  destruct (k <=? key) eqn:E; simpl; [done|lia].
Qed.

(** * Induction over nodes *)

Lemma Node_ind' {V} (P : Node V → Prop) :
  (∀ l, P (Leaf l)) →
  (∀ ks cs, Forall P cs → P (Internal ks cs)) →
  ∀ n, P n.
Proof.
  intros HL HI.
  fix IH 1. intros [l|ks cs]; [apply HL|].
  apply HI. induction cs as [|c cs IHcs]; constructor; [apply IH|apply IHcs].
Qed.

(** * Bounds *)

Lemma lastB_nil lo : lastB lo [] = lo.
Proof. done. Qed.

Lemma lastB_snoc lo ks k : lastB lo (ks ++ [k]) = Some k.
Proof. unfold lastB. by rewrite last_snoc. Qed.

Lemma lastB_cons lo k ks : lastB lo (k :: ks) = lastB (Some k) ks.
Proof.
  unfold lastB. destruct ks as [|k' ks]; [done|].
  rewrite last_cons. by destruct (last (k' :: ks)).
Qed.

Lemma lastB_is_Some k ks : ∃ m, lastB (Some k) ks = Some m.
Proof. unfold lastB. destruct (last ks); eauto. Qed.

Lemma lastB_app lo ks1 ks2 : lastB lo (ks1 ++ ks2) = lastB (lastB lo ks1) ks2.
Proof.
  revert lo. induction ks1 as [|k ks1 IH]; intros lo; [done|].
  simpl. by rewrite !lastB_cons, IH.
Qed.

Lemma headB_app ks1 ks2 hi : headB (ks1 ++ ks2) hi = headB ks1 (headB ks2 hi).
Proof. by destruct ks1. Qed.

Lemma blt_trans lo k hi : blt lo (Some k) → blt (Some k) hi → blt lo hi.
Proof. destruct lo, hi; simpl; auto; lia. Qed.

Lemma ble_blt_trans lo k hi : ble lo k → blt (Some k) hi → blt lo hi.
Proof. destruct lo, hi; simpl; auto; lia. Qed.

Lemma blt_ble lo k : blt lo (Some k) → ble lo k.
Proof. destruct lo; simpl; auto; lia. Qed.

Lemma ble_trans lo a b : ble lo a → a <= b → ble lo b.
Proof. destruct lo; simpl; auto; lia. Qed.

Lemma blt_lt_trans lo a b : blt lo (Some a) → a <= b → blt lo (Some b).
Proof. destruct lo; simpl; auto; lia. Qed.

Lemma lt_blt_trans a b hi : a <= b → blt (Some b) hi → blt (Some a) hi.
Proof. destruct hi; simpl; auto; lia. Qed.

Lemma inRange_weaken lo hi lo' hi' k :
  inRange lo hi k →
  (∀ x, ble lo x → ble lo' x) → (∀ x, blt (Some x) hi → blt (Some x) hi') →
  inRange lo' hi' k.
Proof. intros [??] ??. split; auto. Qed.

(** * Runs of children and separators *)

Section Children.
Context {V : Type}.
Variable P : option Z → option Z → Node V → Prop.

Lemma wfL_length lo ks cs : wfL P lo ks cs → length ks = length cs.
Proof.
  revert lo ks. induction cs as [|c cs IH]; intros lo [|k ks]; simpl; try done.
  intros (_ & _ & H). f_equal. eauto.
Qed.

Lemma wfR_length ks cs hi : wfR P ks cs hi → length ks = length cs.
Proof.
  revert ks. induction cs as [|c cs IH]; intros [|k ks]; simpl; try done.
  intros (_ & _ & H). f_equal. eauto.
Qed.

Lemma wf_children_length lo hi ks cs :
  wf_children P lo hi ks cs → length cs = S (length ks).
Proof.
  revert lo ks. induction cs as [|c cs IH]; intros lo [|k ks]; simpl; try done.
  - by intros (-> & _).
  - intros (_ & _ & H). f_equal. eauto.
Qed.

Lemma wfL_app lo ks1 ks2 cs1 cs2 :
  length ks1 = length cs1 →
  wfL P lo (ks1 ++ ks2) (cs1 ++ cs2) ↔
  wfL P lo ks1 cs1 ∧ wfL P (lastB lo ks1) ks2 cs2.
Proof.
  revert lo ks1. induction cs1 as [|c cs1 IH]; intros lo [|k ks1] Hlen;
    simplify_eq/=.
  - rewrite lastB_nil. tauto.
  - rewrite lastB_cons, IH by done. tauto.
Qed.

Lemma wfR_app ks1 ks2 cs1 cs2 hi :
  length ks1 = length cs1 →
  wfR P (ks1 ++ ks2) (cs1 ++ cs2) hi ↔
  wfR P ks1 cs1 (headB ks2 hi) ∧ wfR P ks2 cs2 hi.
Proof.
  revert ks1. induction cs1 as [|c cs1 IH]; intros [|k ks1] Hlen;
    simplify_eq/=.
  - tauto.
  - rewrite IH, headB_app by done. tauto.
Qed.

Lemma wf_children_head lo hi ks c cs :
  wf_children P lo hi ks (c :: cs) ↔
  P lo (headB ks hi) c ∧ blt lo (headB ks hi) ∧ wfR P ks cs hi.
Proof.
  revert lo ks c. induction cs as [|c' cs IH]; intros lo [|k ks] c.
  - simpl. tauto.
  - simpl. tauto.
  - simpl. split; [by intros [? _]|tauto].
  - change (P lo (Some k) c ∧ blt lo (Some k) ∧ wf_children P (Some k) hi ks (c' :: cs)
            ↔ P lo (Some k) c ∧ blt lo (Some k) ∧ wfR P (k :: ks) (c' :: cs) hi).
    rewrite IH. simpl. tauto.
Qed.

(** Focusing on one child. *)
Lemma wf_children_focus lo hi ks1 ks2 cs1 c cs2 :
  length ks1 = length cs1 →
  wf_children P lo hi (ks1 ++ ks2) (cs1 ++ c :: cs2) ↔
  wfL P lo ks1 cs1 ∧
  P (lastB lo ks1) (headB ks2 hi) c ∧
  blt (lastB lo ks1) (headB ks2 hi) ∧
  wfR P ks2 cs2 hi.
Proof.
  revert lo ks1. induction cs1 as [|c1 cs1 IH]; intros lo [|k ks1] Hlen;
    try discriminate.
  - cbn [app wfL]. rewrite wf_children_head, lastB_nil. tauto.
  - cbn [app wfL wf_children]. injection Hlen as Hlen.
    rewrite lastB_cons, IH by done. tauto.
Qed.

(** Cutting at a separator. *)
Lemma wf_children_split lo hi ks1 k ks2 cs1 cs2 :
  length cs1 = S (length ks1) →
  wf_children P lo hi (ks1 ++ k :: ks2) (cs1 ++ cs2) ↔
  wf_children P lo (Some k) ks1 cs1 ∧ wf_children P (Some k) hi ks2 cs2.
Proof.
  revert lo ks1. induction cs1 as [|c1 cs1 IH]; intros lo ks1 Hlen;
    simplify_eq/=.
  destruct ks1 as [|k1 ks1]; simpl.
  - destruct cs1; [|done]. simpl. split; [intros (? & ? & ?)|intros ((_ & ? & ?) & ?)]; tauto.
  - simpl in Hlen. rewrite IH by lia. tauto.
Qed.

Lemma wfL_snoc lo ks k cs c :
  wfL P lo (ks ++ [k]) (cs ++ [c]) ↔
  wfL P lo ks cs ∧ P (lastB lo ks) (Some k) c ∧ blt (lastB lo ks) (Some k).
Proof.
  split.
  - intros H. pose proof (wfL_length _ _ _ H) as Hlen.
    rewrite !length_app in Hlen. simpl in Hlen.
    rewrite wfL_app in H by lia. simpl in H. tauto.
  - intros (H & ? & ?). pose proof (wfL_length _ _ _ H) as Hlen.
    rewrite wfL_app by lia. simpl. tauto.
Qed.

(** Separators strictly increase, so a bound above the last separator is
    above all of them, and below the first one below all of them. *)
Lemma wfL_above lo ks cs x :
  wfL P lo ks cs → blt (lastB lo ks) (Some x) →
  Forall (fun k => k < x) ks ∧ blt lo (Some x).
Proof.
  revert lo ks. induction cs as [|c cs IH]; intros lo [|k ks]; simpl; try done.
  intros (_ & Hlo & H) Hx. rewrite lastB_cons in Hx.
  destruct (IH _ _ H Hx) as [Hall Hk]. simpl in Hk.
  split; [constructor; [lia|done]|].
  eapply blt_lt_trans; [done|lia].
Qed.

Lemma wfL_last lo ks cs :
  wfL P lo ks cs → lastB lo ks = lo ∨ ∃ m, lastB lo ks = Some m ∧ blt lo (Some m).
Proof.
  revert lo ks. induction cs as [|c cs IH]; intros lo [|k ks]; simpl; try done.
  - auto.
  - intros (_ & Hlo & H). right. rewrite lastB_cons.
    destruct (IH _ _ H) as [->|(m & -> & H')]; [by exists k|].
    exists m. split; [done|].
    eapply blt_lt_trans; [done|]. simpl in H'. lia.
Qed.

Lemma wfL_last_ble lo ks cs x :
  wfL P lo ks cs → ble (lastB lo ks) x → ble lo x.
Proof.
  intros H Hx. destruct (wfL_last _ _ _ H) as [E|(m & E & Hm)]; rewrite E in Hx;
    [done|].
  simpl in Hx. eapply ble_trans; [by apply blt_ble|done].
Qed.

Lemma wfR_below ks cs hi x :
  wfR P ks cs hi → blt (Some x) (headB ks hi) →
  Forall (fun k => x < k) ks ∧ blt (Some x) hi.
Proof.
  revert ks x. induction cs as [|c cs IH]; intros [|k ks] x; simpl; try done.
  intros (_ & Hk & H) Hx.
  destruct (IH _ _ H Hk) as [Hall Hhi]. split.
  - constructor; [done|]. eapply Forall_impl; [done|]. simpl. lia.
  - eapply lt_blt_trans; [|done]. lia.
Qed.

Lemma wfL_sorted lo ks cs : wfL P lo ks cs → StronglySorted Z.lt ks.
Proof.
  revert lo ks. induction cs as [|c cs IH]; intros lo [|k ks]; simpl; try done.
  - constructor.
  - intros (_ & _ & H). constructor; [by eapply IH|].
    clear IH. revert k ks H.
    induction cs as [|c' cs IH]; intros k [|k' ks]; simpl; try done.
    intros (_ & Hk & H). constructor; [done|].
    eapply Forall_impl; [by apply IH|]. simpl. lia.
Qed.

Lemma wfR_sorted ks cs hi : wfR P ks cs hi → StronglySorted Z.lt ks.
Proof.
  revert ks. induction cs as [|c cs IH]; intros [|k ks]; simpl; try done.
  - constructor.
  - intros (_ & Hk & H). constructor; [by eapply IH|].
    by eapply wfR_below.
Qed.

Lemma wf_children_lookup lo hi ks cs i c :
  wf_children P lo hi ks cs → cs !! i = Some c →
  (i <= length ks)%nat ∧
  wfL P lo (take i ks) (take i cs) ∧
  P (lastB lo (take i ks)) (headB (drop i ks) hi) c ∧
  blt (lastB lo (take i ks)) (headB (drop i ks) hi) ∧
  wfR P (drop i ks) (drop (S i) cs) hi.
Proof.
  intros Hwf Hc.
  pose proof (wf_children_length _ _ _ _ Hwf) as Hlen.
  pose proof (lookup_lt_Some _ _ _ Hc) as Hi.
  split; [lia|].
  rewrite <-(take_drop i ks), <-(take_drop_middle cs i c Hc) in Hwf at 1.
  apply wf_children_focus in Hwf; [done|].
  rewrite !length_take. lia.
Qed.

End Children.

Lemma wfL_impl {V} (P Q : option Z → option Z → Node V → Prop) lo ks cs :
  (∀ lo hi c, c ∈ cs → P lo hi c → Q lo hi c) →
  wfL P lo ks cs → wfL Q lo ks cs.
Proof.
  revert lo ks. induction cs as [|c cs IH]; intros lo [|k ks] HPQ; simpl; try done.
  intros (? & ? & ?). split_and!; [apply HPQ; [left|done]|done|].
  apply IH; [|done]. intros ??? Hc. apply HPQ. by right.
Qed.

Lemma wfR_impl {V} (P Q : option Z → option Z → Node V → Prop) ks cs hi :
  (∀ lo hi c, c ∈ cs → P lo hi c → Q lo hi c) →
  wfR P ks cs hi → wfR Q ks cs hi.
Proof.
  revert ks. induction cs as [|c cs IH]; intros [|k ks] HPQ; simpl; try done.
  intros (? & ? & ?). split_and!; [apply HPQ; [left|done]|done|].
  apply IH; [|done]. intros ??? Hc. apply HPQ. by right.
Qed.

Lemma wf_children_impl {V} (P Q : option Z → option Z → Node V → Prop) lo hi ks cs :
  (∀ lo hi c, c ∈ cs → P lo hi c → Q lo hi c) →
  wf_children P lo hi ks cs → wf_children Q lo hi ks cs.
Proof.
  destruct cs as [|c cs]; [done|]. intros HPQ.
  rewrite !wf_children_head. intros (? & ? & ?).
  split_and!; [apply HPQ; [left|done]|done|].
  eapply wfR_impl; [|done]. intros ??? Hc. apply HPQ. by right.
Qed.

(** * Descent and rebuilding *)

Section Descent.
Context {V : Type}.
Variables (minK maxK : Z).

Local Abbreviation wf_body := (@wf_body V minK maxK).
Local Abbreviation wf_node := (@wf_node V minK maxK).
Local Abbreviation wf_path := (@wf_path V minK maxK).
Local Abbreviation wf_root := (@wf_root V minK maxK).
Local Abbreviation countLo := (@countLo V minK).

Lemma findLeaf_Internal (path : list (Frame V)) ks cs key :
  findLeaf path (Internal ks cs) key =
  match cs !! findChildIndex ks key with
  | Some c => findLeaf (mkFrame ks cs (findChildIndex ks key) :: path) c key
  | None => None
  end.
Proof.
  simpl. generalize (mkFrame ks cs (findChildIndex ks key) :: path) as p.
  generalize (findChildIndex ks key) as i.
  induction cs as [|c cs IH]; intros i p; [done|].
  destruct i as [|i]; [done|]. apply IH.
Qed.

Lemma findLeaf_path_suffix (n : Node V) :
  ∀ path key path' leaf,
    findLeaf path n key = Some (path', leaf) → ∃ p, path' = p ++ path.
Proof.
  induction n as [l|ks cs IH] using Node_ind'; intros path key path' leaf.
  - simpl. intros [= <- <-]. by exists [].
  - rewrite findLeaf_Internal. destruct (cs !! _) as [c|] eqn:E; [|done].
    intros Hf. rewrite Forall_lookup in IH.
    destruct (IH _ _ E _ _ _ _ Hf) as [p ->].
    exists (p ++ [mkFrame ks cs (findChildIndex ks key)]). by rewrite <-app_assoc.
Qed.

Lemma findLeaf_path_nonnil ks cs i (path : list (Frame V)) (c : Node V) key leaf :
  findLeaf (mkFrame ks cs i :: path) c key = Some ([], leaf) → False.
Proof.
  intros Hf. apply findLeaf_path_suffix in Hf as [p Hp].
  by destruct p.
Qed.

Lemma wf_path_idx h lo hi (f : Frame V) up :
  wf_path h lo hi (f :: up) → (fidx f < length (fchildren f))%nat.
Proof. simpl. intros (? & ? & ? & ? & _). lia. Qed.

Lemma leaves_Internal ks (cs1 cs2 : list (Node V)) :
  leaves (Internal ks (cs1 ++ cs2)) = flat_map leaves cs1 ++ flat_map leaves cs2.
Proof. simpl. by rewrite flat_map_app. Qed.

Lemma leaves_rebuild h lo hi (path : list (Frame V)) n :
  wf_path h lo hi path →
  leaves (rebuild path n) = pathLeft path ++ leaves n ++ pathRight path.
Proof.
  revert h lo hi n. induction path as [|f up IH]; intros h lo hi n Hp.
  - simpl. by rewrite app_nil_r.
  - pose proof (wf_path_idx _ _ _ _ _ Hp) as Hi.
    destruct Hp as (plo & phi & _ & _ & _ & _ & _ & _ & _ & _ & Hup).
    simpl. erewrite IH by done.
    rewrite insert_take_drop by done.
    rewrite leaves_Internal. simpl. by rewrite <-!app_assoc.
Qed.

Lemma rebuild_wf h lo hi (path : list (Frame V)) n :
  wf_path h lo hi path → wf_body h lo hi n →
  countLo path <= numKeys n <= maxK →
  wf_root (rebuild path n).
Proof.
  revert h lo hi n. induction path as [|f up IH]; intros h lo hi n Hp Hn Hc.
  - destruct Hp as [-> ->]. by exists h.
  - pose proof (wf_path_idx _ _ _ _ _ Hp) as Hi.
    destruct Hp as (plo & phi & Hik & Hlen & HL & HR & -> & -> & Hlt & Hcnt & Hup).
    simpl. eapply IH; [done| |done].
    rewrite insert_take_drop by done.
    rewrite <-(take_drop (fidx f) (fkeys f)) at 1.
    simpl. apply wf_children_focus.
    { rewrite !length_take. lia. }
    split_and!; done.
Qed.

Local Abbreviation wf_at := (@wf_at V minK maxK).

Lemma findLeaf_wf (n : Node V) :
  ∀ path h lo hi key,
    wf_at path h lo hi n → inRange lo hi key →
    ∃ path' leaf lo' hi',
      findLeaf path n key = Some (path', leaf) ∧
      wf_at path' O lo' hi' (Leaf leaf) ∧
      inRange lo' hi' key ∧
      rebuild path' (Leaf leaf) = rebuild path n ∧
      (path' = [] → n = Leaf leaf).
Proof.
  induction n as [l|ks cs IH] using Node_ind';
    intros path h lo hi key (Hp & Hn & Hc) Hkey.
  - exists path, l, lo, hi. destruct Hn as [-> Hl].
    split_and!; try done.
  - rewrite findLeaf_Internal.
    destruct h as [|h]; [done|]. simpl in Hn.
    pose proof (wf_children_length _ _ _ _ _ Hn) as Hlen.
    pose proof (findChildIndex_le ks key) as Hi.
    set (i := findChildIndex ks key) in *.
    destruct (lookup_lt_is_Some_2 cs i) as [c Hci]; [lia|].
    rewrite Hci.
    destruct (wf_children_lookup _ _ _ _ _ _ _ Hn Hci) as (_ & HL & [Hcb Hcc] & Hlt & HR).
    rewrite Forall_lookup in IH.
    assert (inRange (lastB lo (take i ks)) (headB (drop i ks) hi) key) as Hkey'.
    { destruct Hkey as [Hlo Hhi]. split.
      - pose proof (findChildIndex_take ks key) as Ht. fold i in Ht.
        unfold lastB. destruct (last (take i ks)) as [k|] eqn:El; [|done].
        apply last_Some_elem_of in El.
        rewrite Forall_forall in Ht. by apply Ht.
      - pose proof (findChildIndex_drop ks key) as Hd. fold i in Hd.
        destruct (drop i ks); [done|done]. }
    destruct (IH i c Hci (mkFrame ks cs i :: path) h
                (lastB lo (take i ks)) (headB (drop i ks) hi) key) as
      (path' & leaf & lo' & hi' & Hf & Hat & Hk & Hreb & Hnil); [|done|].
    { split; [|by split].
      simpl. exists lo, hi. split_and!; try done; apply Hc. }
    exists path', leaf, lo', hi'. split_and!; try done.
    + rewrite Hreb. simpl. by rewrite list_insert_id.
    + intros ->. apply findLeaf_path_nonnil in Hf. done.
Qed.

End Descent.

(** * Keys of a subtree: range and order *)

Section Entries.
Context {V : Type}.
Variables (minK maxK : Z).

Local Abbreviation wf_body := (@wf_body V minK maxK).
Local Abbreviation wf_node := (@wf_node V minK maxK).
Local Abbreviation wf_path := (@wf_path V minK maxK).
Local Abbreviation wf_root := (@wf_root V minK maxK).
Local Abbreviation wf_at := (@wf_at V minK maxK).

Lemma allKeys_app (P : Z → Prop) (l1 l2 : list (LeafNode V)) :
  allKeys P (l1 ++ l2) ↔ allKeys P l1 ∧ allKeys P l2.
Proof. apply Forall_app. Qed.

Lemma allKeys_impl (P Q : Z → Prop) (ls : list (LeafNode V)) :
  (∀ k, P k → Q k) → allKeys P ls → allKeys Q ls.
Proof.
  intros HPQ H. eapply Forall_impl; [exact H|].
  intros l Hl. eapply Forall_impl; [exact Hl|exact HPQ].
Qed.

Lemma allKeys_leafKeys (P : Z → Prop) (ls : list (LeafNode V)) :
  allKeys P ls ↔ Forall P (leafKeys ls).
Proof.
  unfold allKeys, leafKeys. induction ls as [|l ls IH]; simpl.
  - split; constructor.
  - rewrite Forall_cons, Forall_app, IH. tauto.
Qed.

Lemma leafKeys_app (l1 l2 : list (LeafNode V)) :
  leafKeys (l1 ++ l2) = leafKeys l1 ++ leafKeys l2.
Proof. apply flat_map_app. Qed.

(** The keys below a run [c0 k0 c1 k1 ..] stay below its last
    separator, those of a run [k0 c0 k1 c1 ..] are not below its first. *)
Lemma wfL_keys (P : option Z → option Z → Node V → Prop) lo ks cs :
  (∀ lo hi c, c ∈ cs → P lo hi c → allKeys (inRange lo hi) (leaves c)) →
  wfL P lo ks cs →
  allKeys (fun k => ble lo k ∧ belowB (lastB lo ks) k) (flat_map leaves cs).
Proof.
  revert lo ks. induction cs as [|c cs IH]; intros lo [|k ks] HP; simpl; try done.
  - constructor.
  - intros (Hc & Hlo & H). apply allKeys_app. split.
    + eapply allKeys_impl; [|apply (HP lo (Some k) c); [left|done]].
      intros x [Hx1 Hx2]. split; [done|].
      intros y Hy. rewrite lastB_cons in Hy.
      apply (wfL_last_ble _ _ _ _ _ H) in Hy. simpl in *. lia.
    + eapply allKeys_impl; [|apply IH; [|done]].
      * intros x [Hx1 Hx2]. rewrite lastB_cons. split; [|done].
        eapply ble_trans; [by apply blt_ble|done].
      * intros ??? Hin. apply HP. by right.
Qed.

Lemma wfR_keys (P : option Z → option Z → Node V → Prop) ks cs hi :
  (∀ lo hi c, c ∈ cs → P lo hi c → allKeys (inRange lo hi) (leaves c)) →
  wfR P ks cs hi →
  allKeys (fun k => aboveB (headB ks hi) k ∧ blt (Some k) hi) (flat_map leaves cs).
Proof.
  revert ks. induction cs as [|c cs IH]; intros [|k ks] HP; simpl; try done.
  - constructor.
  - intros (Hc & Hk & H). apply allKeys_app. split.
    + eapply allKeys_impl; [|apply (HP (Some k) (headB ks hi) c); [left|done]].
      intros x [Hx1 Hx2]. split.
      * intros y Hy. simpl in *. lia.
      * destruct (wfR_below _ _ _ _ x H Hx2) as [_ ?]. done.
    + eapply allKeys_impl; [|apply IH; [|done]].
      * intros x [Hx1 Hx2]. split; [|done].
        intros y Hy. simpl in Hy. apply Hx1.
        eapply lt_blt_trans; [|done]. lia.
      * intros ??? Hin. apply HP. by right.
Qed.

Lemma wf_body_keys (n : Node V) :
  ∀ h lo hi, wf_body h lo hi n → allKeys (inRange lo hi) (leaves n).
Proof.
  induction n as [l|ks cs IH] using Node_ind'; intros h lo hi Hn.
  - destruct Hn as (_ & _ & _ & H). by constructor.
  - destruct h as [|h]; [done|]. simpl in Hn.
    destruct cs as [|c cs]; [done|].
    apply wf_children_head in Hn as ([Hc _] & Hlt & HR).
    apply Forall_cons in IH as [IHc IH].
    change (allKeys (inRange lo hi) (leaves c ++ flat_map leaves cs)).
    destruct ks as [|k ks].
    { destruct cs; [|done]. simpl. rewrite app_nil_r. by eapply IHc. }
    apply allKeys_app. split.
    + eapply allKeys_impl; [|by eapply IHc].
      intros x [Hx1 Hx2]. split; [done|].
      by destruct (wfR_below _ _ _ _ x HR Hx2).
    + eapply allKeys_impl; [|eapply wfR_keys; [|done]].
      * intros x [Hx1 Hx2]. split; [|done].
        simpl in *. eapply ble_trans; [by apply blt_ble|].
        assert (k - 1 < x); [|lia]. apply Hx1. simpl. lia.
      * intros lo' hi' c' Hin [Hb _]. rewrite Forall_forall in IH.
        by eapply IH.
Qed.

Lemma wf_path_keys h lo hi (path : list (Frame V)) :
  wf_path h lo hi path →
  allKeys (belowB lo) (pathLeft path) ∧ allKeys (aboveB hi) (pathRight path).
Proof.
  revert h lo hi. induction path as [|f up IH]; intros h lo hi Hp.
  - split; constructor.
  - destruct Hp as (plo & phi & Hik & Hlen & HL & HR & -> & -> & Hlt & Hcnt & Hup).
    destruct (IH _ _ _ Hup) as [IHl IHr]. simpl. split.
    + apply allKeys_app. split.
      * eapply allKeys_impl; [|done]. intros x Hx y Hy. apply Hx.
        by eapply wfL_last_ble.
      * eapply allKeys_impl; [|eapply wfL_keys; [|done]].
        { by intros x [_ ?]. }
        intros lo' hi' c' _ [Hb _]. by eapply wf_body_keys.
    + apply allKeys_app. split.
      * eapply allKeys_impl; [|eapply wfR_keys; [|done]].
        { by intros x [? _]. }
        intros lo' hi' c' _ [Hb _]. by eapply wf_body_keys.
      * eapply allKeys_impl; [|done]. intros x Hx y Hy. apply Hx.
        destruct (drop (fidx f) (fkeys f)) as [|k ks] eqn:E; [done|].
        simpl in Hy. by destruct (wfR_below _ _ _ _ y HR Hy).
Qed.

(** The keys of a subtree strictly increase in leaf order. *)
Lemma sorted_app_ranges (l1 l2 : list Z) (m : Z) :
  StronglySorted Z.lt l1 → StronglySorted Z.lt l2 →
  Forall (fun k => k < m) l1 → Forall (fun k => m <= k) l2 →
  StronglySorted Z.lt (l1 ++ l2).
Proof.
  intros H1 H2 F1 F2. apply StronglySorted_app. split_and!; try done.
  intros x1 x2 Hx1 Hx2. rewrite Forall_forall in F1, F2.
  specialize (F1 _ Hx1). specialize (F2 _ Hx2). lia.
Qed.

Lemma wfR_sorted_keys (P : option Z → option Z → Node V → Prop) ks cs hi :
  (∀ lo hi c, c ∈ cs → P lo hi c →
     allKeys (inRange lo hi) (leaves c) ∧
     StronglySorted Z.lt (leafKeys (leaves c))) →
  wfR P ks cs hi →
  StronglySorted Z.lt (leafKeys (flat_map leaves cs)).
Proof.
  revert ks. induction cs as [|c cs IH]; intros [|k ks] HP; simpl; try done.
  - constructor.
  - intros (Hc & Hk & H). rewrite leafKeys_app.
    destruct (HP _ _ c ltac:(left) Hc) as [Hr Hs].
    destruct ks as [|k' ks].
    { destruct cs; [|done]. simpl. by rewrite app_nil_r. }
    apply (sorted_app_ranges _ _ k'); [done| | |].
    + apply (IH (k' :: ks)); [|done]. intros ??? Hin. apply HP. by right.
    + apply allKeys_leafKeys. eapply allKeys_impl; [|done].
      intros x [_ Hx]. simpl in Hx. done.
    + apply allKeys_leafKeys. eapply allKeys_impl; [|eapply wfR_keys; [|done]].
      * intros x [Hx _]. simpl in Hx.
        assert (k' - 1 < x); [|lia]. apply Hx. simpl. lia.
      * intros ??? Hin HP'. apply HP; [by right|done].
Qed.

Lemma wf_body_sorted (n : Node V) :
  ∀ h lo hi, wf_body h lo hi n → StronglySorted Z.lt (leafKeys (leaves n)).
Proof.
  induction n as [l|ks cs IH] using Node_ind'; intros h lo hi Hn.
  - destruct Hn as (_ & _ & H & _). unfold leafKeys. simpl. by rewrite app_nil_r.
  - destruct h as [|h]; [done|]. simpl in Hn.
    destruct cs as [|c cs]; [done|].
    apply wf_children_head in Hn as ([Hc _] & Hlt & HR).
    apply Forall_cons in IH as [IHc IH].
    change (StronglySorted Z.lt (leafKeys (leaves c ++ flat_map leaves cs))).
    rewrite leafKeys_app.
    assert (∀ lo hi c', c' ∈ cs → wf_node h lo hi c' →
              allKeys (inRange lo hi) (leaves c') ∧
              StronglySorted Z.lt (leafKeys (leaves c'))) as HP.
    { intros lo' hi' c' Hin [Hb _]. split; [by eapply wf_body_keys|].
      rewrite Forall_forall in IH. by eapply IH. }
    destruct ks as [|k ks].
    { destruct cs; [|done]. simpl. rewrite app_nil_r. by eapply IHc. }
    apply (sorted_app_ranges _ _ k).
    + by eapply IHc.
    + by eapply wfR_sorted_keys.
    + apply allKeys_leafKeys. eapply allKeys_impl; [|by eapply wf_body_keys].
      by intros x [_ Hx].
    + apply allKeys_leafKeys. eapply allKeys_impl; [|eapply wfR_keys; [|done]].
      * intros x [Hx _]. simpl in Hx.
        assert (k - 1 < x); [|lia]. apply Hx. simpl. lia.
      * intros ??? Hin HP'. by apply HP.
Qed.

End Entries.

(** * Insertion *)

(** ** Lists of entries *)

Lemma upsert_app_l {V} (k : Z) (v : V) (l e : list (Z * V)) :
  Forall (fun p => p.1 < k) l → upsert k v (l ++ e) = l ++ upsert k v e.
Proof.
  induction 1 as [|[k' v'] l Hk _ IH]; simpl; [done|].
  simpl in Hk. destruct (k' <? k) eqn:E; [|lia]. by rewrite IH.
Qed.

Lemma upsert_app_r {V} (k : Z) (v : V) (m r : list (Z * V)) :
  Forall (fun p => k < p.1) r → upsert k v (m ++ r) = upsert k v m ++ r.
Proof.
  intros Hr. induction m as [|[k' v'] m IH]; simpl.
  - destruct Hr as [|[k' v'] r Hk _]; simpl; [done|]. simpl in Hk.
    destruct (k' <? k) eqn:E1; [lia|]. destruct (k' =? k) eqn:E2; [lia|done].
  - destruct (k' <? k); [by rewrite IH|]. by destruct (k' =? k).
Qed.

Lemma assoc_upsert {V} (k : Z) (v : V) (es : list (Z * V)) :
  assoc k (upsert k v es) = Some v.
Proof.
  induction es as [|[k' v'] es IH]; simpl.
  - by rewrite Z.eqb_refl.
  - destruct (k' <? k) eqn:E1; simpl.
    + destruct (k' =? k) eqn:E2; [lia|done].
    + destruct (k' =? k) eqn:E2; simpl; by rewrite Z.eqb_refl.
Qed.

(** The leaf step of [insert] is [upsert] on the leaf's entries. *)
Lemma leaf_upsert {V} (keys : list Z) (values : list V) (k : Z) (v : V) :
  length values = length keys →
  let pos := lowerBound keys k in
  (if (Z.of_nat pos <? Z.of_nat (length keys)) && (nth pos keys 0 =? k)
   then zip keys (<[pos := v]> values)
   else zip (take pos keys ++ k :: drop pos keys)
            (take pos values ++ v :: drop pos values))
  = upsert k v (zip keys values).
Proof.
  revert values. induction keys as [|k' keys IH]; intros [|v' values] Hlen;
    simplify_eq/=; [done|].
  destruct (k' <? k) eqn:E1.
  - rewrite <-(IH values) by done. simpl.
    replace (Z.of_nat (S (lowerBound keys k)) <? Z.of_nat (S (length keys)))
      with (Z.of_nat (lowerBound keys k) <? Z.of_nat (length keys)).
    2:{ destruct (Z.ltb_spec (Z.of_nat (lowerBound keys k)) (Z.of_nat (length keys)));
        destruct (Z.ltb_spec (Z.of_nat (S (lowerBound keys k))) (Z.of_nat (S (length keys))));
        lia. }
    by destruct (_ && _).
  - simpl. destruct (k' =? k) eqn:E2.
    + replace (Z.pos (Pos.of_succ_nat (length keys))) with (Z.of_nat (S (length keys))) by lia.
      destruct (Z.ltb_spec 0 (Z.of_nat (S (length keys)))); [|lia]. simpl.
      f_equal. f_equal. lia.
    + done.
Qed.

(** ** List surgery *)

Lemma take_S_middle {A} (l1 l2 : list A) (x : A) (i : nat) :
  length l1 = i → take (S i) (l1 ++ x :: l2) = l1 ++ [x].
Proof.
  intros <-. rewrite cons_middle, app_assoc.
  apply take_app_length'. rewrite length_app. simpl. lia.
Qed.

Lemma drop_S_middle {A} (l1 l2 : list A) (x : A) (i : nat) :
  length l1 = i → drop (S i) (l1 ++ x :: l2) = l2.
Proof.
  intros <-. rewrite cons_middle, app_assoc.
  apply drop_app_length'. rewrite length_app. simpl. lia.
Qed.

Lemma insertChildAt_after {V} (cs : list (Node V)) (i : nat) (l r : Node V) :
  (i < length cs)%nat →
  insertChildAt (i + 1) r (<[i := l]> cs) = take i cs ++ l :: r :: drop (S i) cs.
Proof.
  intros Hi. unfold insertChildAt. rewrite insert_take_drop by done.
  replace (i + 1)%nat with (S i) by lia.
  rewrite take_S_middle, drop_S_middle by (rewrite length_take; lia).
  by rewrite <-app_assoc.
Qed.

(** ** [insertIntoParent] *)

Section Insert.
Context {V : Type}.
Variables (minK maxK : Z).
Hypothesis Hparams : paramsOk minK maxK.

Local Abbreviation wf_body := (@wf_body V minK maxK).
Local Abbreviation wf_node := (@wf_node V minK maxK).
Local Abbreviation wf_path := (@wf_path V minK maxK).
Local Abbreviation wf_root := (@wf_root V minK maxK).
Local Abbreviation wf_at := (@wf_at V minK maxK).
Local Abbreviation countLo := (@countLo V minK).

Lemma splitPoint_bounds :
  minK <= Z.of_nat (splitPointOf maxK) ∧
  (1 <= splitPointOf maxK)%nat ∧
  Z.of_nat (splitPointOf maxK) <= maxK ∧
  minK <= maxK - Z.of_nat (splitPointOf maxK) ∧
  minK <= maxK + 1 - Z.of_nat (splitPointOf maxK) <= maxK.
Proof. unfold splitPointOf. destruct Hparams as [? [?|?]]; lia. Qed.

Lemma countLo_bounds (up : list (Frame V)) : 1 <= countLo up <= minK.
Proof. destruct Hparams as [? _]. destruct up; simpl; lia. Qed.

Lemma wfR_below_head (P : option Z → option Z → Node V → Prop) ks cs hi k :
  wfR P (k :: ks) cs hi → blt (Some k) hi.
Proof.
  destruct cs as [|c cs]; [done|]. simpl. intros (_ & Hk & HR).
  by destruct (wfR_below _ _ _ _ k HR Hk).
Qed.

Lemma wf_children_blt (P : option Z → option Z → Node V → Prop) lo hi ks cs :
  wf_children P lo hi ks cs → blt lo hi.
Proof.
  destruct cs as [|c cs]; [done|]. rewrite wf_children_head.
  intros (_ & Hlt & HR). destruct ks as [|k ks]; [done|].
  simpl in Hlt. eapply blt_trans; [done|]. by eapply wfR_below_head.
Qed.

Lemma frame_lowerBound (P : option Z → option Z → Node V → Prop)
    plo phi ks cs (i : nat) key :
  (i <= length ks)%nat →
  wfL P plo (take i ks) (take i cs) →
  wfR P (drop i ks) (drop (S i) cs) phi →
  blt (lastB plo (take i ks)) (Some key) →
  blt (Some key) (headB (drop i ks) phi) →
  StronglySorted Z.lt ks ∧ lowerBound ks key = i.
Proof.
  intros Hi HL HR Hlo Hhi.
  destruct (wfL_above _ _ _ _ _ HL Hlo) as [Ha _].
  destruct (wfR_below _ _ _ _ _ HR Hhi) as [Hb _].
  split.
  - rewrite <-(take_drop i ks). apply StronglySorted_app. split_and!.
    + intros x1 x2 Hx1 Hx2. rewrite Forall_forall in Ha, Hb.
      specialize (Ha _ Hx1). specialize (Hb _ Hx2). lia.
    + by eapply wfL_sorted.
    + by eapply wfR_sorted.
  - rewrite <-(take_drop i ks), lowerBound_app_all_lt by done.
    rewrite (lowerBound_head_gt _ _ phi) by done.
    rewrite length_take. lia.
Qed.

Lemma insertIntoParent_spec (path : list (Frame V)) :
  ∀ h lo hi left key right,
    wf_path h lo hi path →
    wf_node h lo (Some key) left → wf_node h (Some key) hi right →
    blt lo (Some key) → blt (Some key) hi →
    wf_root (insertIntoParent maxK path left key right) ∧
    leaves (insertIntoParent maxK path left key right)
    = pathLeft path ++ leaves left ++ leaves right ++ pathRight path.
Proof.
  pose proof splitPoint_bounds as Hsp.
  induction path as [|f up IH]; intros h lo hi left key right Hp Hl Hr Hlo Hhi.
  - destruct Hp as [-> ->]. simpl. split.
    + exists (S h). split; [|unfold numKeys; simpl; lia].
      destruct Hl, Hr. simpl. split_and!; done.
    + by rewrite !app_nil_r.
  - pose proof (wf_path_idx _ _ _ _ _ _ _ Hp) as Hi.
    destruct Hp as (plo & phi & Hik & Hlen & HL & HR & -> & -> & Hlt & Hcnt & Hup).
    destruct (frame_lowerBound _ _ _ _ _ _ _ Hik HL HR Hlo Hhi) as [Hs Hlb].
    cbn [insertIntoParent].
    rewrite findKeyPosition_sorted, Nat2Z.id, Hlb by done.
    rewrite insertChildAt_after by done.
    unfold insertKeyAt.
    set (ks := fkeys f) in *. set (cs := fchildren f) in *. set (i := fidx f) in *.
    assert (wf_children (wf_node h) plo phi
              (take i ks ++ key :: drop i ks)
              (take i cs ++ left :: right :: drop (S i) cs)) as Hwf.
    { apply wf_children_focus; [rewrite !length_take; lia|].
      destruct Hl, Hr. simpl. split_and!; done. }
    assert (length (take i ks ++ key :: drop i ks) = S (length ks)) as Hlk.
    { rewrite length_app, length_take. simpl. rewrite length_drop. lia. }
    assert (flat_map leaves (take i cs ++ left :: right :: drop (S i) cs)
            = flat_map leaves (take i cs) ++ leaves left ++ leaves right
              ++ flat_map leaves (drop (S i) cs)) as Hlv.
    { rewrite flat_map_app. simpl. by rewrite <-?app_assoc. }
    unfold isFull. rewrite Hlk.
    destruct (Z.ltb_spec maxK (Z.of_nat (S (length ks)))) as [Hfull|Hfull].
    + unfold splitInternal_parts.
      set (sp := splitPointOf maxK) in *.
      set (ks' := take i ks ++ key :: drop i ks) in *.
      set (cs' := take i cs ++ left :: right :: drop (S i) cs) in *.
      pose proof (wf_children_length _ _ _ _ _ Hwf) as Hlc.
      destruct (lookup_lt_is_Some_2 ks' sp) as [pk Hpk]; [lia|].
      rewrite (nth_lookup_Some _ _ _ _ Hpk).
      rewrite <-(take_drop_middle _ _ _ Hpk), <-(take_drop (S sp) cs') in Hwf.
      apply wf_children_split in Hwf as [Hw1 Hw2].
      2:{ rewrite !length_take. lia. }
      destruct (IH (S h) plo phi
                  (Internal (take sp ks') (take (S sp) cs')) pk
                  (Internal (drop (S sp) ks') (drop (S sp) cs'))) as [IH1 IH2].
      * done.
      * split; [done|]. unfold countOk, numKeys. simpl. rewrite length_take. lia.
      * split; [done|]. unfold countOk, numKeys. simpl. rewrite length_drop. lia.
      * by eapply wf_children_blt.
      * by eapply wf_children_blt.
      * split; [done|]. rewrite IH2. simpl.
        rewrite (app_assoc (flat_map leaves (take (S sp) cs'))).
        rewrite <-flat_map_app, take_drop. subst cs'. rewrite Hlv.
        by rewrite <-!app_assoc.
    + split.
      * eapply rebuild_wf; [done|done|]. unfold numKeys. simpl.
        rewrite Hlk. pose proof (countLo_bounds up). lia.
      * erewrite leaves_rebuild by done. simpl. rewrite Hlv.
        by rewrite <-!app_assoc.
Qed.

End Insert.

(** * The leaf chain *)

Section Chain.
Context {V : Type}.
Implicit Types (ls : list (LeafNode V)) (l : LeafNode V).

Lemma lastId_nil p : lastId p ([] : list (LeafNode V)) = p.
Proof. done. Qed.

Lemma lastId_cons p l ls : lastId p (l :: ls) = lastId (Some (lid l)) ls.
Proof.
  unfold lastId. destruct ls as [|l' ls]; [done|].
  rewrite last_cons. by destruct (last (l' :: ls)).
Qed.

Lemma lastId_snoc p ls l : lastId p (ls ++ [l]) = Some (lid l).
Proof. unfold lastId. by rewrite last_snoc. Qed.

Lemma headId_app ls1 ls2 nx : headId (ls1 ++ ls2) nx = headId ls1 (headId ls2 nx).
Proof. by destruct ls1. Qed.

Lemma chainSeg_app p ls1 ls2 nx :
  chainSeg p (ls1 ++ ls2) nx ↔
  chainSeg p ls1 (headId ls2 nx) ∧ chainSeg (lastId p ls1) ls2 nx.
Proof.
  revert p. induction ls1 as [|l ls1 IH]; intros p; simpl.
  - rewrite lastId_nil. tauto.
  - rewrite lastId_cons, IH, headId_app. tauto.
Qed.

(** The chain around one leaf. *)
Lemma chainSeg_middle p ls1 l ls2 nx :
  chainSeg p (ls1 ++ l :: ls2) nx ↔
  chainSeg p ls1 (Some (lid l)) ∧
  lprev l = lastId p ls1 ∧ lnext l = headId ls2 nx ∧
  chainSeg (Some (lid l)) ls2 nx.
Proof. rewrite chainSeg_app. simpl. tauto. Qed.

(** [setPrev] leaves alone every leaf but the target. *)
Lemma setPrev_other target p l :
  target ≠ Some (lid l) → setPrev target p l = l.
Proof.
  unfold setPrev. destruct target as [id|]; [|done].
  intros Hne. destruct (Nat.eqb_spec (lid l) id); [|done]. by subst.
Qed.

Lemma map_setPrev_other target p ls :
  (∀ id, target = Some id → id ∉ map lid ls) →
  map (setPrev target p) ls = ls.
Proof.
  intros Hnot. induction ls as [|l ls IH]; simpl; [done|].
  rewrite setPrev_other, IH; [done| |].
  - intros id Hid Hin. eapply Hnot; [done|]. simpl. by right.
  - intros ->. eapply Hnot; [done|]. simpl. by left.
Qed.

Lemma setPrev_keepsData target p : keepsData (@setPrev V target p).
Proof.
  intros l. unfold setPrev. destruct target as [id|]; [|done].
  by destruct (Nat.eqb (lid l) id).
Qed.

Lemma setPrev_target p l :
  setPrev (Some (lid l)) p l
  = mkLeaf (lid l) (lkeys l) (lvalues l) (lnext l) (Some p).
Proof. unfold setPrev. by rewrite Nat.eqb_refl. Qed.

Lemma NoDup_app_cons_notin (ids1 ids2 : list nat) (x : nat) :
  NoDup (ids1 ++ x :: ids2) → (x ∉ ids1) ∧ (x ∉ ids2) ∧ NoDup (ids1 ++ ids2).
Proof.
  intros H. apply NoDup_app in H as (H1 & H2 & H3).
  apply NoDup_cons in H3 as [H3 H4].
  split_and!; [|done|].
  - intros Hin. apply (H2 _ Hin). by left.
  - apply NoDup_app. split_and!; [done| |done].
    intros y Hy Hy'. apply (H2 _ Hy). by right.
Qed.

End Chain.

(** * Assignments to chain fields leave the rest of the invariant alone *)

Lemma wfL_map {V} (P Q : option Z → option Z → Node V → Prop) g lo ks cs :
  (∀ lo hi c, c ∈ cs → P lo hi c → Q lo hi (g c)) →
  wfL P lo ks cs → wfL Q lo ks (map g cs).
Proof.
  revert lo ks. induction cs as [|c cs IH]; intros lo [|k ks] HPQ; simpl; try done.
  intros (? & ? & ?). split_and!; [apply HPQ; [left|done]|done|].
  apply IH; [|done]. intros ??? Hc. apply HPQ. by right.
Qed.

Lemma wfR_map {V} (P Q : option Z → option Z → Node V → Prop) g ks cs hi :
  (∀ lo hi c, c ∈ cs → P lo hi c → Q lo hi (g c)) →
  wfR P ks cs hi → wfR Q ks (map g cs) hi.
Proof.
  revert ks. induction cs as [|c cs IH]; intros [|k ks] HPQ; simpl; try done.
  intros (? & ? & ?). split_and!; [apply HPQ; [left|done]|done|].
  apply IH; [|done]. intros ??? Hc. apply HPQ. by right.
Qed.

Lemma wf_children_map {V} (P Q : option Z → option Z → Node V → Prop) g lo hi ks cs :
  (∀ lo hi c, c ∈ cs → P lo hi c → Q lo hi (g c)) →
  wf_children P lo hi ks cs → wf_children Q lo hi ks (map g cs).
Proof.
  destruct cs as [|c cs]; [done|]. intros HPQ.
  change (map g (c :: cs)) with (g c :: map g cs).
  rewrite !wf_children_head. intros (? & ? & ?).
  split_and!; [apply HPQ; [left|done]|done|].
  eapply wfR_map; [|done]. intros ??? Hc. apply HPQ. by right.
Qed.

Section MapLeaves.
Context {V : Type}.
Variables (minK maxK : Z).
Variable f : LeafNode V → LeafNode V.
Hypothesis Hf : keepsData f.

Local Abbreviation wf_body := (@wf_body V minK maxK).
Local Abbreviation wf_node := (@wf_node V minK maxK).
Local Abbreviation wf_path := (@wf_path V minK maxK).

Lemma leaves_mapLeaves (n : Node V) : leaves (mapLeaves f n) = map f (leaves n).
Proof.
  induction n as [l|ks cs IH] using Node_ind'; [done|].
  simpl. induction IH as [|c cs Hc _ IHcs]; simpl; [done|].
  by rewrite map_app, Hc, IHcs.
Qed.

Lemma numKeys_mapLeaves (n : Node V) : numKeys (mapLeaves f n) = numKeys n.
Proof.
  destruct n as [l|ks cs]; [|done].
  unfold numKeys. simpl. destruct (Hf l) as (_ & -> & _). done.
Qed.

Lemma leafEntries_keepsData (l : LeafNode V) : leafEntries (f l) = leafEntries l.
Proof. unfold leafEntries. destruct (Hf l) as (_ & -> & ->). done. Qed.

Lemma entries_map_keepsData (ls : list (LeafNode V)) :
  flat_map leafEntries (map f ls) = flat_map leafEntries ls.
Proof.
  induction ls as [|l ls IH]; simpl; [done|].
  by rewrite leafEntries_keepsData, IH.
Qed.

Lemma ids_map_keepsData (ls : list (LeafNode V)) : map lid (map f ls) = map lid ls.
Proof.
  induction ls as [|l ls IH]; simpl; [done|].
  destruct (Hf l) as (-> & _). by rewrite IH.
Qed.

Lemma wf_body_mapLeaves (n : Node V) :
  ∀ h lo hi, wf_body h lo hi n → wf_body h lo hi (mapLeaves f n).
Proof.
  induction n as [l|ks cs IH] using Node_ind'; intros h lo hi.
  - simpl. unfold wf_leaf. destruct (Hf l) as (_ & -> & ->). done.
  - destruct h as [|h]; [done|]. simpl. apply wf_children_map.
    intros lo' hi' c Hc [Hb Hcnt]. rewrite Forall_forall in IH.
    split; [by apply IH|]. unfold countOk. by rewrite numKeys_mapLeaves.
Qed.

Lemma wf_node_mapLeaves h lo hi (n : Node V) :
  wf_node h lo hi n → wf_node h lo hi (mapLeaves f n).
Proof.
  intros [Hb Hc]. split; [by apply wf_body_mapLeaves|].
  unfold countOk. by rewrite numKeys_mapLeaves.
Qed.

Lemma wf_path_mapPath (path : list (Frame V)) :
  ∀ h lo hi, wf_path h lo hi path → wf_path h lo hi (mapPath f path).
Proof.
  induction path as [|fr up IH]; intros h lo hi; [done|].
  intros (plo & phi & Hik & Hlen & HL & HR & -> & -> & Hlt & Hcnt & Hup).
  simpl. exists plo, phi. rewrite length_map, firstn_map, skipn_map.
  split_and!; try done.
  - eapply wfL_map; [|done]. intros ??? _. apply wf_node_mapLeaves.
  - eapply wfR_map; [|done]. intros ??? _. apply wf_node_mapLeaves.
  - destruct up; apply Hcnt.
  - apply Hcnt.
  - by apply IH.
Qed.

Lemma flat_map_leaves_map (cs : list (Node V)) :
  flat_map leaves (map (mapLeaves f) cs) = map f (flat_map leaves cs).
Proof.
  induction cs as [|c cs IH]; simpl; [done|].
  by rewrite map_app, leaves_mapLeaves, IH.
Qed.

Lemma pathLeft_mapPath (path : list (Frame V)) :
  pathLeft (mapPath f path) = map f (pathLeft path).
Proof.
  induction path as [|fr up IH]; simpl; [done|].
  by rewrite IH, firstn_map, flat_map_leaves_map, map_app.
Qed.

Lemma pathRight_mapPath (path : list (Frame V)) :
  pathRight (mapPath f path) = map f (pathRight path).
Proof.
  induction path as [|fr up IH]; simpl; [done|].
  by rewrite IH, skipn_map, flat_map_leaves_map, map_app.
Qed.

End MapLeaves.

(** * The focus of an operation: a leaf and its path *)

Lemma zip_take_drop {A B} (n : nat) (a : list A) (b : list B) :
  zip (take n a) (take n b) ++ zip (drop n a) (drop n b) = zip a b.
Proof.
  revert a b. induction n as [|n IH]; intros [|x a] [|y b]; simpl; try done.
  - by destruct (take n a), (drop n a).
  - by rewrite IH.
Qed.

Lemma allKeys_entries {V} (P : Z → Prop) (ls : list (LeafNode V)) :
  allKeys P ls → Forall (fun p => P p.1) (flat_map leafEntries ls).
Proof.
  induction 1 as [|l ls Hl _ IH]; simpl; [constructor|].
  apply Forall_app. split; [|done].
  unfold leafEntries. apply Forall_forall. intros [k v] Hin.
  apply elem_of_zip_l in Hin. rewrite Forall_forall in Hl. by apply Hl.
Qed.

Lemma upsert_focus {V} (k : Z) (v : V) (L M R : list (Z * V)) :
  Forall (fun p => p.1 < k) L → Forall (fun p => k < p.1) R →
  upsert k v (L ++ M ++ R) = L ++ upsert k v M ++ R.
Proof. intros HL HR. by rewrite upsert_app_l, upsert_app_r. Qed.

Section Focus.
Context {V : Type}.
Variables (minK maxK : Z).
Hypothesis Hparams : paramsOk minK maxK.

Local Abbreviation wf_body := (@wf_body V minK maxK).
Local Abbreviation wf_node := (@wf_node V minK maxK).
Local Abbreviation wf_path := (@wf_path V minK maxK).
Local Abbreviation wf_root := (@wf_root V minK maxK).
Local Abbreviation wf_at := (@wf_at V minK maxK).
Local Abbreviation countLo := (@countLo V minK).

Lemma path_entries_bounds h lo hi (path : list (Frame V)) key :
  wf_path h lo hi path → inRange lo hi key →
  Forall (fun p => p.1 < key) (flat_map leafEntries (pathLeft path)) ∧
  Forall (fun p => key < p.1) (flat_map leafEntries (pathRight path)).
Proof.
  intros Hp [Hlo Hhi]. destruct (wf_path_keys _ _ _ _ _ _ Hp) as [HL HR].
  split.
  - apply (allKeys_entries (fun k => k < key)).
    eapply allKeys_impl; [|done]. intros k Hk. by apply Hk.
  - apply (allKeys_entries (fun k => key < k)).
    eapply allKeys_impl; [|done]. intros k Hk. by apply Hk.
Qed.

Lemma entries_focus h lo hi (path : list (Frame V)) (n : Node V) :
  wf_path h lo hi path →
  entriesOf (rebuild path n)
  = flat_map leafEntries (pathLeft path) ++ entriesOf n
    ++ flat_map leafEntries (pathRight path).
Proof.
  intros Hp. unfold entriesOf. erewrite leaves_rebuild by done.
  by rewrite !flat_map_app.
Qed.

(** The leaf step without overflow or underflow keeps the links of the
    leaf, hence the chain. *)
Lemma chainOk_replace (L R : list (LeafNode V)) (l l' : LeafNode V) :
  sameLinks l' l → chainOk (L ++ l :: R) → chainOk (L ++ l' :: R).
Proof.
  intros (Hid & Hnx & Hpv) [Hnd Hch]. split.
  - rewrite map_app in *. simpl in *. by rewrite Hid.
  - apply chainSeg_middle in Hch as (H1 & H2 & H3 & H4).
    apply chainSeg_middle. rewrite Hid, Hnx, Hpv. done.
Qed.

Lemma ids_replace (L R : list (LeafNode V)) (l l' : LeafNode V) (n : nat) :
  lid l' = lid l →
  Forall (fun x => (lid x < n)%nat) (L ++ l :: R) →
  Forall (fun x => (lid x < n)%nat) (L ++ l' :: R).
Proof.
  intros Hid. rewrite !Forall_app, !Forall_cons. rewrite Hid. tauto.
Qed.

End Focus.

(** * [insert] preserves the invariant and is [upsert] on the entries *)

Section InsertLeaf.
Context {V : Type}.

Lemma wf_leaf_setValue lo hi (l : LeafNode V) pos v :
  wf_leaf lo hi l → wf_leaf lo hi (setValue pos v l).
Proof.
  intros (Hlen & Hs & Hr). unfold wf_leaf. simpl.
  by rewrite length_insert.
Qed.

Lemma wf_leaf_insertAt lo hi (l : LeafNode V) key v :
  let pos := lowerBound (lkeys l) key in
  wf_leaf lo hi l → inRange lo hi key →
  ((pos < length (lkeys l))%nat → nth pos (lkeys l) 0 ≠ key) →
  wf_leaf lo hi (insertAt pos key v l).
Proof.
  intros pos (Hlen & Hs & Hr) Hkey Hne. unfold wf_leaf. simpl. split_and!.
  - rewrite !length_app, !length_take. simpl. rewrite !length_drop. lia.
  - apply sorted_insert; [done|apply lowerBound_take|].
    by apply lowerBound_drop_strict.
  - rewrite <-(take_drop pos (lkeys l)) in Hr.
    apply Forall_app in Hr as [H1 H2].
    apply Forall_app. split; [done|]. by constructor.
Qed.

Lemma length_insertAt (l : LeafNode V) pos key v :
  (pos <= length (lkeys l))%nat →
  length (lkeys (insertAt pos key v l)) = S (length (lkeys l)).
Proof.
  intros Hp. simpl. rewrite length_app, length_take. simpl.
  rewrite length_drop. lia.
Qed.

End InsertLeaf.

Section InsertMain.
Context {V : Type}.
Implicit Types (t : BPlusTree V) (r : Node V) (leaf : LeafNode V) (path : list (Frame V)).

Lemma wf_root_at t r :
  wf_root (minKeys t) (maxKeys t) r →
  ∃ h, wf_at (minKeys t) (maxKeys t) [] h None None r.
Proof. intros (h & Hb & Hc). exists h. split; [done|]. split; [done|]. exact Hc. Qed.

Lemma entriesOf_Leaf leaf : entriesOf (Leaf leaf) = leafEntries leaf.
Proof. unfold entriesOf. simpl. by rewrite app_nil_r. Qed.

Lemma entries_at t r h lo hi path (n : Node V) :
  root t = Some r → rebuild path n = r →
  wf_path (minKeys t) (maxKeys t) h lo hi path →
  entries t
  = flat_map leafEntries (pathLeft path) ++ entriesOf n
    ++ flat_map leafEntries (pathRight path).
Proof.
  intros Er <- Hp. unfold entries. rewrite Er.
  by eapply entries_focus.
Qed.

(** Replacing the leaf at the focus by one with the same links. *)
Lemma Inv_replace t r path leaf leaf' lo hi :
  Inv t → root t = Some r → rebuild path (Leaf leaf) = r →
  wf_path (minKeys t) (maxKeys t) O lo hi path →
  wf_leaf lo hi leaf' →
  countLo (minKeys t) path <= Z.of_nat (length (lkeys leaf')) <= maxKeys t →
  sameLinks leaf' leaf →
  Inv (withRoot t (Some (rebuild path (Leaf leaf')))) ∧
  entries (withRoot t (Some (rebuild path (Leaf leaf'))))
  = flat_map leafEntries (pathLeft path) ++ leafEntries leaf'
    ++ flat_map leafEntries (pathRight path).
Proof.
  intros [Hpar Hroot] Er Hreb Hp Hl' Hc' Hlinks. rewrite Er in Hroot.
  destruct Hroot as (Hwf & Hch & Hids).
  pose proof (leaves_rebuild _ _ _ _ _ _ (Leaf leaf) Hp) as Hlv.
  rewrite Hreb in Hlv. simpl in Hlv. rewrite Hlv in Hch, Hids.
  pose proof (leaves_rebuild _ _ _ _ _ _ (Leaf leaf') Hp) as Hlv'.
  simpl in Hlv'. split.
  - split; [done|]. simpl. rewrite Hlv'. split_and!.
    + eapply rebuild_wf; [done| |done]. by split.
    + by eapply chainOk_replace.
    + eapply ids_replace; [|done]. apply Hlinks.
  - unfold entries. simpl. erewrite entries_focus by done.
    unfold entriesOf. simpl. by rewrite app_nil_r.
Qed.

(** The chain after [splitLeaf] linked the new leaf in. *)
Lemma chainOk_split (L R : list (LeafNode V)) (l l1 l2 : LeafNode V) (newId : nat) :
  chainOk (L ++ l :: R) →
  Forall (fun x => (lid x < newId)%nat) (L ++ l :: R) →
  lid l1 = lid l → lprev l1 = lprev l → lnext l1 = Some newId →
  lid l2 = newId → lprev l2 = Some (lid l) → lnext l2 = lnext l →
  let f := setPrev (lnext l) newId in
  chainOk (map f L ++ l1 :: l2 :: map f R) ∧
  Forall (fun x => (lid x < S newId)%nat) (map f L ++ l1 :: l2 :: map f R).
Proof.
  intros [Hnd Hch] Hids Hid1 Hpv1 Hnx1 Hid2 Hpv2 Hnx2 f.
  apply chainSeg_middle in Hch as (HcL & HpL & HnL & HcR).
  rewrite map_app in Hnd. simpl in Hnd.
  pose proof (NoDup_app_cons_notin _ _ _ Hnd) as (HnotL & HnotR & HndLR).
  assert (map f L = L) as HfL.
  { apply map_setPrev_other. intros id Hid Hin.
    rewrite HnL in Hid. destruct R as [|r0 R']; simplify_eq/=.
    apply NoDup_app in Hnd as (_ & Hnd & _). apply (Hnd _ Hin). right. by left. }
  rewrite HfL.
  assert (map lid (map f R) = map lid R) as HidR.
  { apply ids_map_keepsData, setPrev_keepsData. }
  assert (headId (map f R) None = headId R None) as HhR.
  { destruct R as [|r0 R']; [done|]. simpl. subst f.
    by destruct (setPrev_keepsData (lnext l) newId r0) as (-> & _). }
  assert (chainSeg (Some newId) (map f R) None) as HcR'.
  { destruct R as [|r0 R']; [done|].
    simpl in HnL. subst f. rewrite HnL. cbn [map chainSeg]. rewrite setPrev_target. simpl.
    destruct HcR as (_ & Hn0 & HcR).
    rewrite map_setPrev_other; [done|].
    intros id [= <-] Hin. simpl in Hnd.
    apply NoDup_app in Hnd as (_ & _ & Hnd).
    apply NoDup_cons in Hnd as [_ Hnd]. apply NoDup_cons in Hnd as [Hnd _]. done. }
  rewrite Forall_app, Forall_cons in Hids. destruct Hids as (HidsL & Hidl & HidsR).
  split; [split|].
  - rewrite map_app. simpl. rewrite HidR, Hid1, Hid2.
    apply NoDup_app. split_and!.
    + by apply NoDup_app in Hnd as (? & _).
    + intros x Hx Hx'. apply elem_of_cons in Hx' as [->|Hx'].
      { by apply HnotL. }
      apply elem_of_cons in Hx' as [->|Hx'].
      { rewrite Forall_forall in HidsL. apply list_elem_of_fmap in Hx as (y & -> & Hy).
        specialize (HidsL _ Hy). lia. }
      apply NoDup_app in Hnd as (_ & Hnd & _). apply (Hnd _ Hx). by right.
    + apply NoDup_cons. split.
      { intros Hx. apply elem_of_cons in Hx as [E|Hx]; [lia|]. by apply HnotR. }
      apply NoDup_cons. split.
      { intros Hx. rewrite Forall_forall in HidsR.
        apply list_elem_of_fmap in Hx as (y & -> & Hy). specialize (HidsR _ Hy). lia. }
      apply NoDup_app in Hnd as (_ & _ & Hnd). by apply NoDup_cons in Hnd as [_ ?].
  - apply chainSeg_middle. rewrite Hid1, Hpv1, Hnx1. split_and!; try done.
    { simpl. by rewrite Hid2. }
    simpl. rewrite Hpv2, Hnx2, Hid2, HhR. done.
  - rewrite Forall_app, !Forall_cons. rewrite Hid1, Hid2. split_and!.
    + eapply Forall_impl; [done|]. simpl. lia.
    + lia.
    + lia.
    + apply Forall_forall. intros x Hx. apply list_elem_of_fmap in Hx as (y & -> & Hy).
      subst f. destruct (setPrev_keepsData (lnext l) newId y) as (-> & _).
      rewrite Forall_forall in HidsR. specialize (HidsR _ Hy). lia.
Qed.

(** The two halves [splitLeaf] makes of an overfull leaf. *)
Lemma splitLeaf_parts_wf minK maxK lo hi newId (leaf : LeafNode V) :
  paramsOk minK maxK →
  wf_leaf lo hi leaf → Z.of_nat (length (lkeys leaf)) = maxK + 1 →
  let '(l1, pk, l2) := splitLeaf_parts maxK newId leaf in
  wf_node minK maxK O lo (Some pk) (Leaf l1) ∧
  wf_node minK maxK O (Some pk) hi (Leaf l2) ∧
  blt lo (Some pk) ∧ blt (Some pk) hi ∧
  leafEntries l1 ++ leafEntries l2 = leafEntries leaf.
Proof.
  intros Hpar (Hlen & Hs & Hr) Hfull.
  pose proof (splitPoint_bounds minK maxK Hpar) as Hsp.
  unfold splitLeaf_parts. set (sp := splitPointOf maxK) in *.
  destruct (lookup_lt_is_Some_2 (lkeys leaf) sp) as [pk Hpk]; [lia|].
  destruct (lookup_lt_is_Some_2 (lkeys leaf) O) as [k0 Hk0]; [lia|].
  cbn [lkeys]. rewrite (drop_S _ _ _ Hpk). cbn [nth].
  rewrite <-(take_drop_middle _ _ _ Hpk) in Hs, Hr.
  apply StronglySorted_app in Hs as (Hcross & Hs1 & Hs2).
  apply Forall_app in Hr as [Hr1 Hr2].
  assert (k0 < pk) as Hk0pk.
  { apply Hcross; [|by left]. apply list_elem_of_lookup. exists O.
    rewrite lookup_take_lt by lia. done. }
  assert (ble lo k0) as Hlok0.
  { rewrite Forall_forall in Hr1. apply Hr1. apply list_elem_of_lookup. exists O.
    rewrite lookup_take_lt by lia. done. }
  apply Forall_cons in Hr2 as [[Hpk1 Hpk2] Hr2].
  split_and!.
  - split; [split; [done|]|].
    + unfold wf_leaf. simpl. split_and!; [|done|].
      * rewrite !length_take. lia.
      * apply Forall_forall. intros x Hx. rewrite Forall_forall in Hr1.
        destruct (Hr1 _ Hx) as [? _]. split; [done|]. simpl.
        apply Hcross; [done|by left].
    + unfold countOk, numKeys. simpl. rewrite length_take. lia.
  - split; [split; [done|]|].
    + unfold wf_leaf. simpl. split_and!.
      * simpl. rewrite !length_drop. lia.
      * done.
      * constructor; [split; [simpl; lia|done]|].
        apply StronglySorted_cons in Hs2 as [Hall _].
        rewrite Forall_forall in Hall, Hr2. apply Forall_forall. intros x Hx.
        destruct (Hr2 _ Hx) as [_ ?]. split; [|done].
        specialize (Hall _ Hx). simpl. lia.
    + unfold countOk, numKeys. simpl. rewrite length_drop. lia.
  - eapply ble_blt_trans; [done|]. simpl. done.
  - done.
  - unfold leafEntries. cbn [lkeys lvalues].
    rewrite <-(drop_S _ _ _ Hpk). apply zip_take_drop.
Qed.

Lemma Inv_split t r path leaf leaf2 lo hi :
  Inv t → root t = Some r → rebuild path (Leaf leaf) = r →
  wf_path (minKeys t) (maxKeys t) O lo hi path →
  wf_leaf lo hi leaf2 → Z.of_nat (length (lkeys leaf2)) = maxKeys t + 1 →
  sameLinks leaf2 leaf →
  Inv (withRootAlloc t (Some (splitLeaf (maxKeys t) (nextLeaf t) path leaf2))) ∧
  entries (withRootAlloc t (Some (splitLeaf (maxKeys t) (nextLeaf t) path leaf2)))
  = flat_map leafEntries (pathLeft path) ++ leafEntries leaf2
    ++ flat_map leafEntries (pathRight path).
Proof.
  intros [Hpar Hroot] Er Hreb Hp Hl2 Hfull (Hid & Hnx & Hpv). rewrite Er in Hroot.
  destruct Hroot as (Hwf & Hch & Hids).
  pose proof (leaves_rebuild _ _ _ _ _ _ (Leaf leaf) Hp) as Hlv.
  rewrite Hreb in Hlv. simpl in Hlv. rewrite Hlv in Hch, Hids.
  pose proof (splitLeaf_parts_wf _ _ _ _ (nextLeaf t) _ Hpar Hl2 Hfull) as Hparts.
  unfold splitLeaf.
  destruct (splitLeaf_parts (maxKeys t) (nextLeaf t) leaf2) as [[l1 pk] l2] eqn:Eparts.
  destruct Hparts as (Hw1 & Hw2 & Hlo & Hhi & Hent).
  set (f := setPrev (V:=V) (lnext leaf2) (nextLeaf t)).
  pose proof (setPrev_keepsData (V:=V) (lnext leaf2) (nextLeaf t)) as Hf. fold f in Hf.
  pose proof (wf_path_mapPath _ _ f Hf _ _ _ _ Hp) as Hp'.
  destruct (insertIntoParent_spec _ _ Hpar _ _ _ _ _ _ _ Hp' Hw1 Hw2 Hlo Hhi)
    as [Hwf' Hlv'].
  rewrite pathLeft_mapPath, pathRight_mapPath in Hlv'. simpl in Hlv'.
  unfold splitLeaf_parts in Eparts. injection Eparts as <- _ <-.
  split.
  - split; [done|]. simpl. rewrite Hlv'.
    assert (lprev (setPrev (lnext leaf2) (nextLeaf t) leaf2) = lprev leaf) as Hpv1.
    { rewrite setPrev_other; [done|]. rewrite Hnx, Hid.
      destruct Hch as [Hnd Hch]. apply chainSeg_middle in Hch as (_ & _ & HnL & _).
      rewrite HnL. destruct (pathRight path) as [|r0 R']; [done|]. simpl.
      intros [= E]. rewrite map_app in Hnd. simpl in Hnd.
      apply NoDup_app in Hnd as (_ & _ & Hnd). apply NoDup_cons in Hnd as [Hnd _].
      apply Hnd. rewrite E. by left. }
    assert (Some (lid leaf2) = Some (lid leaf)) as Hpv2 by (by rewrite Hid).
    pose proof (chainOk_split _ _ _
      (mkLeaf (lid leaf2) (take (splitPointOf (maxKeys t)) (lkeys leaf2))
         (take (splitPointOf (maxKeys t)) (lvalues leaf2)) (Some (nextLeaf t))
         (lprev (setPrev (lnext leaf2) (nextLeaf t) leaf2)))
      (mkLeaf (nextLeaf t) (drop (splitPointOf (maxKeys t)) (lkeys leaf2))
         (drop (splitPointOf (maxKeys t)) (lvalues leaf2)) (lnext leaf2)
         (Some (lid leaf2)))
      (nextLeaf t) Hch Hids Hid Hpv1 eq_refl eq_refl Hpv2 Hnx) as [Hc' Hi'].
    rewrite <-Hnx in Hc', Hi'. split_and!; done.
  - unfold entries. simpl. unfold entriesOf. rewrite Hlv', !flat_map_app. simpl.
    rewrite !(entries_map_keepsData f Hf), ?app_nil_r.
    by rewrite <-Hent, <-?app_assoc.
Qed.

(** What [findLeaf] from the root finds in a tree that satisfies the
    invariant. *)
Lemma findLeaf_root t r key :
  Inv t → root t = Some r →
  ∃ path leaf lo hi,
    findLeaf [] r key = Some (path, leaf) ∧
    wf_path (minKeys t) (maxKeys t) O lo hi path ∧
    wf_leaf lo hi leaf ∧
    countLo (minKeys t) path <= Z.of_nat (length (lkeys leaf)) <= maxKeys t ∧
    inRange lo hi key ∧
    rebuild path (Leaf leaf) = r.
Proof.
  intros [Hpar Hroot] Er. rewrite Er in Hroot. destruct Hroot as (Hwf & _).
  destruct (wf_root_at _ _ Hwf) as [h Hat].
  destruct (findLeaf_wf _ _ r [] h None None key Hat) as
    (path & leaf & lo & hi & Hf & (Hp & [_ Hl] & Hc) & Hk & Hreb & _); [done|].
  exists path, leaf, lo, hi. split_and!; try done; apply Hc.
Qed.

Theorem insert_spec t key value :
  Inv t →
  Inv (insert t key value) ∧
  entries (insert t key value) = upsert key value (entries t).
Proof.
  intros HInv. pose proof HInv as [Hpar Hroot].
  unfold insert. destruct (root t) as [r|] eqn:Er.
  - destruct (findLeaf_root t r key HInv Er) as
      (path & leaf & lo & hi & Hf & Hp & Hl & Hc & Hk & Hreb).
    rewrite Hf. pose proof Hl as (Hlen & Hs & Hr).
    rewrite findKeyPosition_sorted, Nat2Z.id by done.
    pose proof (leaf_upsert (lkeys leaf) (lvalues leaf) key value Hlen) as Hup.
    simpl in Hup.
    pose proof (lowerBound_le (lkeys leaf) key) as Hpos.
    set (pos := lowerBound (lkeys leaf) key) in *.
    destruct (path_entries_bounds _ _ _ _ _ _ key Hp Hk) as [HbL HbR].
    rewrite (entries_at t r _ _ _ path (Leaf leaf) Er Hreb Hp).
    rewrite entriesOf_Leaf, upsert_focus by done.
    unfold leafEntries at 2. rewrite <-Hup.
    destruct ((Z.of_nat pos <? Z.of_nat (length (lkeys leaf)))
              && (nth pos (lkeys leaf) 0 =? key)) eqn:Etest.
    + apply (Inv_replace t r path leaf (setValue pos value leaf) lo hi); try done.
      by apply wf_leaf_setValue.
    + assert ((pos < length (lkeys leaf))%nat → nth pos (lkeys leaf) 0 ≠ key) as Hne.
      { intros Hlt Heq. apply andb_false_iff in Etest as [E|E]; lia. }
      pose proof (wf_leaf_insertAt lo hi leaf key value Hl Hk Hne) as Hl'.
      pose proof (length_insertAt leaf pos key value Hpos) as Hlen'.
      fold pos in Hl'. unfold isFull. rewrite Hlen'.
      destruct (Z.ltb_spec (maxKeys t) (Z.of_nat (S (length (lkeys leaf))))) as [Hfull|Hfull].
      * apply (Inv_split t r path leaf (insertAt pos key value leaf) lo hi); try done.
        rewrite Hlen'. lia.
      * apply (Inv_replace t r path leaf (insertAt pos key value leaf) lo hi); try done.
        rewrite Hlen'. lia.
  - split.
    + split; [done|]. simpl. split_and!.
      * exists O. split; [|unfold numKeys; simpl; destruct Hpar as [? [?|?]]; lia].
        simpl. split; [done|]. unfold wf_leaf. simpl. split_and!; [done| |].
        -- repeat constructor.
        -- repeat constructor.
      * split; simpl; [|done]. apply NoDup_singleton.
      * repeat constructor.
    + unfold entries. rewrite Er. done.
Qed.

End InsertMain.

(** * Redistribution and merging of two siblings *)

Lemma zip_app_eq {A B} (a1 a2 : list A) (b1 b2 : list B) :
  length a1 = length b1 → zip (a1 ++ a2) (b1 ++ b2) = zip a1 b1 ++ zip a2 b2.
Proof.
  revert b1. induction a1 as [|x a1 IH]; intros [|y b1] Hlen; simplify_eq/=; [done|].
  by rewrite IH.
Qed.

Section Rebalance.
Context {V : Type}.
Variables (minK maxK : Z).
Hypothesis Hparams : paramsOk minK maxK.

Local Abbreviation wf_body := (@wf_body V minK maxK).
Local Abbreviation wf_node := (@wf_node V minK maxK).
Local Abbreviation wf_path := (@wf_path V minK maxK).
Local Abbreviation wf_root := (@wf_root V minK maxK).
Local Abbreviation countOk := (@countOk V minK maxK).

(** ** Leaves *)

Lemma redistribute_leaf_left lb sep hi (leaf sib : LeafNode V) ks pi :
  wf_leaf lb (Some sep) sib → wf_leaf (Some sep) hi leaf →
  minK < Z.of_nat (length (lkeys sib)) <= maxK →
  Z.of_nat (length (lkeys leaf)) = minK - 1 →
  blt (Some sep) hi →
  ∃ leaf' sib' sep',
    redistributeNodes (Leaf leaf) (Leaf sib) ks pi true
    = (Leaf leaf', Leaf sib', <[pi := sep']> ks) ∧
    wf_leaf lb (Some sep') sib' ∧ wf_leaf (Some sep') hi leaf' ∧
    Z.of_nat (length (lkeys sib')) = Z.of_nat (length (lkeys sib)) - 1 ∧
    Z.of_nat (length (lkeys leaf')) = minK ∧
    blt lb (Some sep') ∧ blt (Some sep') hi ∧
    sameLinks sib' sib ∧ sameLinks leaf' leaf ∧
    leafEntries sib' ++ leafEntries leaf' = leafEntries sib ++ leafEntries leaf.
Proof.
  destruct Hparams as [Hmin _].
  intros (Hlen_s & Hs_s & Hr_s) (Hlen_l & Hs_l & Hr_l) Hcnt_s Hcnt_l Hhi.
  remember (length (lkeys sib)) as n eqn:Hn.
  destruct (lookup_lt_is_Some_2 (lkeys sib) (n - 1)) as [sk Hsk]; [lia|].
  destruct (lookup_lt_is_Some_2 (lkeys sib) O) as [s0 Hs0]; [lia|].
  assert (drop (n - 1) (lkeys sib) = [sk]) as Hdrop.
  { rewrite (drop_S _ _ _ Hsk). by rewrite drop_ge by lia. }
  assert (lkeys sib = take (n - 1) (lkeys sib) ++ [sk]) as Hsplit.
  { by rewrite <-Hdrop, take_drop. }
  rewrite Hsplit in Hs_s, Hr_s.
  apply StronglySorted_app in Hs_s as (Hcross & Hs1 & _).
  apply Forall_app in Hr_s as [Hr1 Hr2]. apply Forall_singleton in Hr2 as [Hsk1 Hsk2].
  simpl in Hsk2.
  exists (mkLeaf (lid leaf) (drop (n - 1) (lkeys sib) ++ lkeys leaf)
            (drop (n - 1) (lvalues sib) ++ lvalues leaf) (lnext leaf) (lprev leaf)),
         (mkLeaf (lid sib) (take (n - 1) (lkeys sib)) (take (n - 1) (lvalues sib))
            (lnext sib) (lprev sib)), sk.
  split_and!.
  - simpl. rewrite <-Hn. by rewrite Hdrop.
  - unfold wf_leaf. simpl. split_and!; [|done|].
    + rewrite !length_take. lia.
    + apply Forall_forall. intros x Hx. rewrite Forall_forall in Hr1.
      destruct (Hr1 _ Hx) as [? _]. split; [done|]. simpl.
      apply Hcross; [done|]. by apply list_elem_of_singleton.
  - unfold wf_leaf. simpl. rewrite Hdrop. split_and!.
    + rewrite !length_app, !length_drop. simpl. lia.
    + simpl. constructor; [done|]. eapply Forall_impl; [done|].
      intros x [Hx _]. simpl in Hx. lia.
    + simpl. constructor.
      * split; [simpl; lia|]. eapply lt_blt_trans; [|done]. lia.
      * eapply Forall_impl; [done|]. intros x [Hx1 Hx2]. split; [|done].
        simpl in *. lia.
  - simpl. rewrite length_take. lia.
  - simpl. rewrite Hdrop. simpl. lia.
  - assert (s0 < sk).
    { eapply (sorted_lookup_lt (take (n - 1) (lkeys sib) ++ [sk]) O (n - 1)).
      - apply StronglySorted_app. split_and!; [done|done|repeat constructor].
      - rewrite <-Hsplit. done.
      - rewrite <-Hsplit. done.
      - lia. }
    assert (ble lb s0).
    { rewrite Forall_forall in Hr1. apply Hr1.
      apply list_elem_of_lookup. exists O. rewrite lookup_take_lt by lia. done. }
    by eapply ble_blt_trans.
  - eapply lt_blt_trans; [|done]. lia.
  - done.
  - done.
  - unfold leafEntries. simpl.
    rewrite zip_app_eq by (rewrite !length_drop; lia).
    rewrite app_assoc, zip_take_drop. done.
Qed.

Lemma redistribute_leaf_right lo sep hi (leaf sib : LeafNode V) ks pi :
  wf_leaf lo (Some sep) leaf → wf_leaf (Some sep) hi sib →
  minK < Z.of_nat (length (lkeys sib)) <= maxK →
  Z.of_nat (length (lkeys leaf)) = minK - 1 →
  blt lo (Some sep) →
  ∃ leaf' sib' sep',
    redistributeNodes (Leaf leaf) (Leaf sib) ks pi false
    = (Leaf leaf', Leaf sib', <[pi := sep']> ks) ∧
    wf_leaf lo (Some sep') leaf' ∧ wf_leaf (Some sep') hi sib' ∧
    Z.of_nat (length (lkeys sib')) = Z.of_nat (length (lkeys sib)) - 1 ∧
    Z.of_nat (length (lkeys leaf')) = minK ∧
    blt lo (Some sep') ∧ blt (Some sep') hi ∧
    sameLinks sib' sib ∧ sameLinks leaf' leaf ∧
    leafEntries leaf' ++ leafEntries sib' = leafEntries leaf ++ leafEntries sib.
Proof.
  destruct Hparams as [Hmin _].
  intros (Hlen_l & Hs_l & Hr_l) (Hlen_s & Hs_s & Hr_s) Hcnt_s Hcnt_l Hlo.
  destruct (lkeys sib) as [|s0 [|s1 sks]] eqn:Esk; simpl in Hcnt_s; [lia|lia|].
  destruct (lvalues sib) as [|v0 svs] eqn:Esv; [done|].
  apply StronglySorted_cons in Hs_s as [Hall Hs_s].
  apply Forall_cons in Hr_s as [[Hs01 Hs02] Hr_s]. simpl in Hs01.
  pose proof Hall as Hall'. apply Forall_cons in Hall' as [Hs0s1 _].
  pose proof Hr_s as Hr_s'. apply Forall_cons in Hr_s' as [[_ Hs12] _].
  exists (mkLeaf (lid leaf) (lkeys leaf ++ [s0]) (lvalues leaf ++ [v0])
            (lnext leaf) (lprev leaf)),
         (mkLeaf (lid sib) (s1 :: sks) svs (lnext sib) (lprev sib)), s1.
  split_and!.
  - simpl. rewrite Esk, Esv. done.
  - unfold wf_leaf. simpl. split_and!.
    + rewrite !length_app. simpl. lia.
    + apply StronglySorted_app. split_and!; [|done|repeat constructor].
      intros x1 x2 Hx1 Hx2. apply list_elem_of_singleton in Hx2 as ->.
      rewrite Forall_forall in Hr_l. destruct (Hr_l _ Hx1) as [_ Hx]. simpl in Hx. lia.
    + apply Forall_app. split.
      * eapply Forall_impl; [done|]. intros x [Hx1 Hx2]. split; [done|].
        simpl in *. lia.
      * constructor; [|constructor]. split; [|simpl; lia].
        eapply ble_trans; [by apply blt_ble|done].
  - unfold wf_leaf. simpl. split_and!.
    + simpl in Hlen_s. lia.
    + done.
    + apply Forall_cons in Hr_s as [[_ H1] Hr_s].
      apply StronglySorted_cons in Hs_s as [Hall1 _].
      constructor; [split; [simpl; lia|done]|].
      rewrite Forall_forall in Hr_s, Hall1. apply Forall_forall. intros x Hx.
      destruct (Hr_s _ Hx) as [_ ?]. split; [|done].
      specialize (Hall1 _ Hx). simpl. lia.
  - simpl. lia.
  - simpl. rewrite length_app. simpl. lia.
  - eapply blt_lt_trans; [done|]. lia.
  - done.
  - done.
  - done.
  - unfold leafEntries. simpl. rewrite Esk, Esv.
    rewrite zip_app_eq by done. simpl. by rewrite <-app_assoc.
Qed.

Lemma merge_leaf lb sep hi (l r : LeafNode V) :
  wf_leaf lb (Some sep) l → wf_leaf (Some sep) hi r →
  blt lb (Some sep) → blt (Some sep) hi →
  wf_leaf lb hi (mkLeaf (lid l) (lkeys l ++ lkeys r) (lvalues l ++ lvalues r)
                   (lnext r) (lprev l)) ∧
  leafEntries (mkLeaf (lid l) (lkeys l ++ lkeys r) (lvalues l ++ lvalues r)
                 (lnext r) (lprev l))
  = leafEntries l ++ leafEntries r.
Proof.
  intros (Hlen_l & Hs_l & Hr_l) (Hlen_r & Hs_r & Hr_r) Hlo Hhi. split.
  - unfold wf_leaf. simpl. split_and!.
    + rewrite !length_app. lia.
    + apply (sorted_app_ranges _ _ sep); [done|done| |].
      * eapply Forall_impl; [done|]. by intros x [_ ?].
      * eapply Forall_impl; [done|]. by intros x [? _].
    + apply Forall_app. split.
      * eapply Forall_impl; [done|]. intros x [Hx1 Hx2]. split; [done|].
        eapply lt_blt_trans; [|done]. simpl in Hx2. lia.
      * eapply Forall_impl; [done|]. intros x [Hx1 Hx2]. split; [|done].
        eapply ble_trans; [by apply blt_ble|done].
  - unfold leafEntries. simpl. by rewrite zip_app_eq.
Qed.

(** ** Internal nodes *)

Lemma redistribute_internal_left h lb sep hi nks ncs sks scs ks pi :
  wf_children (wf_node h) lb (Some sep) sks scs →
  wf_children (wf_node h) (Some sep) hi nks ncs →
  minK < Z.of_nat (length sks) →
  nth pi ks 0 = sep →
  ∃ nks' ncs' sks' scs' sep',
    redistributeNodes (Internal nks ncs) (Internal sks scs) ks pi true
    = (Internal nks' ncs', Internal sks' scs', <[pi := sep']> ks) ∧
    wf_children (wf_node h) lb (Some sep') sks' scs' ∧
    wf_children (wf_node h) (Some sep') hi nks' ncs' ∧
    Z.of_nat (length sks') = Z.of_nat (length sks) - 1 ∧
    length nks' = S (length nks) ∧
    flat_map leaves scs' ++ flat_map leaves ncs'
    = flat_map leaves scs ++ flat_map leaves ncs.
Proof.
  destruct Hparams as [Hmin _].
  intros Hs Hn Hcnt Hsep.
  pose proof (wf_children_length _ _ _ _ _ Hs) as Hlen_s.
  remember (length sks) as n eqn:En.
  destruct (lookup_lt_is_Some_2 sks (n - 1)) as [sk Hsk]; [lia|].
  assert (sks = take (n - 1) sks ++ [sk]) as Hsks.
  { rewrite <-(take_drop (n - 1) sks) at 1. f_equal.
    rewrite (drop_S _ _ _ Hsk). by rewrite drop_ge by lia. }
  destruct (lookup_lt_is_Some_2 scs n) as [cl Hcl]; [lia|].
  assert (drop n scs = [cl]) as Hdrop.
  { rewrite (drop_S _ _ _ Hcl). by rewrite drop_ge by lia. }
  rewrite Hsks, <-(take_drop n scs), Hdrop in Hs.
  apply wf_children_split in Hs as [Hs1 Hs2].
  2:{ rewrite !length_take. lia. }
  simpl in Hs2. destruct Hs2 as (_ & Hcl' & Hlt).
  exists (sep :: nks), (cl :: ncs), (take (n - 1) sks), (take n scs), sk.
  split_and!.
  - simpl. rewrite <-En, Hdrop, Hsep. simpl.
    by rewrite (nth_lookup_Some _ _ _ _ Hsk).
  - done.
  - simpl. destruct ncs as [|c ncs]; [done|]. split_and!; done.
  - rewrite length_take. lia.
  - done.
  - simpl. rewrite <-(take_drop n scs) at 2. rewrite Hdrop, flat_map_app. simpl.
    by rewrite app_nil_r, <-app_assoc.
Qed.

Lemma redistribute_internal_right h lo sep hi nks ncs sks scs ks pi :
  wf_children (wf_node h) lo (Some sep) nks ncs →
  wf_children (wf_node h) (Some sep) hi sks scs →
  minK < Z.of_nat (length sks) →
  nth pi ks 0 = sep →
  ∃ nks' ncs' sks' scs' sep',
    redistributeNodes (Internal nks ncs) (Internal sks scs) ks pi false
    = (Internal nks' ncs', Internal sks' scs', <[pi := sep']> ks) ∧
    wf_children (wf_node h) lo (Some sep') nks' ncs' ∧
    wf_children (wf_node h) (Some sep') hi sks' scs' ∧
    Z.of_nat (length sks') = Z.of_nat (length sks) - 1 ∧
    length nks' = S (length nks) ∧
    flat_map leaves ncs' ++ flat_map leaves scs'
    = flat_map leaves ncs ++ flat_map leaves scs.
Proof.
  destruct Hparams as [Hmin _].
  intros Hn Hs Hcnt Hsep.
  pose proof (wf_children_length _ _ _ _ _ Hn) as Hlen_n.
  destruct sks as [|sk sks]; [simpl in Hcnt; lia|].
  destruct scs as [|c0 scs]; [done|].
  cbn [wf_children] in Hs. destruct Hs as (Hc0 & Hlt & Hs).
  exists (nks ++ [sep]), (ncs ++ [c0]), sks, scs, sk.
  split_and!.
  - simpl. by rewrite Hsep.
  - apply wf_children_split; [done|]. split; [done|]. simpl. done.
  - done.
  - simpl. lia.
  - rewrite length_app. simpl. lia.
  - rewrite flat_map_app. simpl. by rewrite app_nil_r, <-app_assoc.
Qed.

Lemma merge_internal h lb sep hi lks lcs rks rcs :
  wf_children (wf_node h) lb (Some sep) lks lcs →
  wf_children (wf_node h) (Some sep) hi rks rcs →
  wf_children (wf_node h) lb hi (lks ++ sep :: rks) (lcs ++ rcs).
Proof.
  intros Hl Hr. apply wf_children_split; [|done].
  by eapply wf_children_length.
Qed.

(** ** Either kind of node *)

Lemma wf_body_Internal h lo hi ks cs :
  wf_body (S h) lo hi (Internal ks cs) = wf_children (wf_node h) lo hi ks cs.
Proof. done. Qed.

Lemma wf_body_0_inv lo hi (n : Node V) :
  wf_body O lo hi n → ∃ l, n = Leaf l ∧ wf_leaf lo hi l.
Proof. destruct n as [l|ks cs]; [|done]. intros [_ ?]. by exists l. Qed.

Lemma wf_body_S_inv h lo hi (n : Node V) :
  wf_body (S h) lo hi n →
  ∃ ks cs, n = Internal ks cs ∧ wf_children (wf_node h) lo hi ks cs.
Proof. destruct n as [l|ks cs]; [by intros [? _]|]. intros ?. by exists ks, cs. Qed.

Lemma redistribute_left h lb sep hi (node sib : Node V) ks pi :
  wf_node h lb (Some sep) sib → minK < numKeys sib →
  wf_body h (Some sep) hi node → numKeys node = minK - 1 →
  blt (Some sep) hi → nth pi ks 0 = sep →
  ∃ node' sib' sep',
    redistributeNodes node sib ks pi true = (node', sib', <[pi := sep']> ks) ∧
    wf_node h lb (Some sep') sib' ∧ wf_node h (Some sep') hi node' ∧
    blt lb (Some sep') ∧ blt (Some sep') hi ∧
    map linksOf (leaves sib' ++ leaves node') = map linksOf (leaves sib ++ leaves node) ∧
    flat_map leafEntries (leaves sib' ++ leaves node')
    = flat_map leafEntries (leaves sib ++ leaves node) ∧
    (h ≠ O → leaves sib' ++ leaves node' = leaves sib ++ leaves node).
Proof.
  destruct Hparams as [Hmin Hmax].
  intros [Hs [Hs1 Hs2]] Hsur Hn Hcnt Hhi Hsep. destruct h as [|h].
  - apply wf_body_0_inv in Hs as (s & -> & Hs), Hn as (l & -> & Hn).
    unfold numKeys in *. simpl in *.
    destruct (redistribute_leaf_left _ _ _ l s ks pi Hs Hn) as
      (l' & s' & sep' & Heq & Hw1 & Hw2 & Hc1 & Hc2 & Hb1 & Hb2 & Hl1 & Hl2 & He);
      [lia|lia|done|].
    exists (Leaf l'), (Leaf s'), sep'. split_and!; try done.
    + split; [done|]. unfold countOk, numKeys. simpl. lia.
    + split; [done|]. unfold countOk, numKeys. simpl. lia.
    + simpl. unfold linksOf.
      destruct Hl1 as (-> & -> & ->), Hl2 as (-> & -> & ->). done.
    + simpl. by rewrite !app_nil_r.
  - apply wf_body_S_inv in Hs as (sks & scs & -> & Hs), Hn as (nks & ncs & -> & Hn).
    unfold numKeys in *. simpl in *.
    destruct (redistribute_internal_left _ _ _ _ _ _ _ _ ks pi Hs Hn) as
      (nks' & ncs' & sks' & scs' & sep' & Heq & Hw1 & Hw2 & Hc1 & Hc2 & Hlv);
      [lia|done|].
    exists (Internal nks' ncs'), (Internal sks' scs'), sep'. split_and!; try done.
    + split; [done|]. unfold countOk, numKeys. simpl. lia.
    + split; [done|]. unfold countOk, numKeys. simpl. lia.
    + exact (wf_children_blt _ _ _ _ _ Hw1).
    + exact (wf_children_blt _ _ _ _ _ Hw2).
    + simpl. by rewrite Hlv.
    + simpl. by rewrite Hlv.
Qed.

Lemma redistribute_right h lo sep hi (node sib : Node V) ks pi :
  wf_body h lo (Some sep) node → numKeys node = minK - 1 →
  wf_node h (Some sep) hi sib → minK < numKeys sib →
  blt lo (Some sep) → nth pi ks 0 = sep →
  ∃ node' sib' sep',
    redistributeNodes node sib ks pi false = (node', sib', <[pi := sep']> ks) ∧
    wf_node h lo (Some sep') node' ∧ wf_node h (Some sep') hi sib' ∧
    blt lo (Some sep') ∧ blt (Some sep') hi ∧
    map linksOf (leaves node' ++ leaves sib') = map linksOf (leaves node ++ leaves sib) ∧
    flat_map leafEntries (leaves node' ++ leaves sib')
    = flat_map leafEntries (leaves node ++ leaves sib) ∧
    (h ≠ O → leaves node' ++ leaves sib' = leaves node ++ leaves sib).
Proof.
  destruct Hparams as [Hmin Hmax].
  intros Hn Hcnt [Hs [Hs1 Hs2]] Hsur Hlo Hsep. destruct h as [|h].
  - apply wf_body_0_inv in Hs as (s & -> & Hs), Hn as (l & -> & Hn).
    unfold numKeys in *. simpl in *.
    destruct (redistribute_leaf_right _ _ _ l s ks pi Hn Hs) as
      (l' & s' & sep' & Heq & Hw1 & Hw2 & Hc1 & Hc2 & Hb1 & Hb2 & Hl1 & Hl2 & He);
      [lia|lia|done|].
    exists (Leaf l'), (Leaf s'), sep'. split_and!; try done.
    + split; [done|]. unfold countOk, numKeys. simpl. lia.
    + split; [done|]. unfold countOk, numKeys. simpl. lia.
    + simpl. unfold linksOf.
      destruct Hl1 as (-> & -> & ->), Hl2 as (-> & -> & ->). done.
    + simpl. by rewrite !app_nil_r.
  - apply wf_body_S_inv in Hs as (sks & scs & -> & Hs), Hn as (nks & ncs & -> & Hn).
    unfold numKeys in *. simpl in *.
    destruct (redistribute_internal_right _ _ _ _ _ _ _ _ ks pi Hn Hs) as
      (nks' & ncs' & sks' & scs' & sep' & Heq & Hw1 & Hw2 & Hc1 & Hc2 & Hlv);
      [lia|done|].
    exists (Internal nks' ncs'), (Internal sks' scs'), sep'. split_and!; try done.
    + split; [done|]. unfold countOk, numKeys. simpl. lia.
    + split; [done|]. unfold countOk, numKeys. simpl. lia.
    + exact (wf_children_blt _ _ _ _ _ Hw1).
    + exact (wf_children_blt _ _ _ _ _ Hw2).
    + simpl. by rewrite Hlv.
    + simpl. by rewrite Hlv.
Qed.

Lemma merge_node h lb sep hi (left right : Node V) ks pi :
  wf_body h lb (Some sep) left → wf_body h (Some sep) hi right →
  numKeys left + numKeys right = 2 * minK - 1 →
  blt lb (Some sep) → blt (Some sep) hi → nth pi ks 0 = sep →
  wf_node h lb hi (mergeNodes_merged left right ks pi) ∧
  mergeLeavesRel h left right (mergeNodes_merged left right ks pi).
Proof.
  destruct Hparams as [Hmin Hmax].
  intros Hl Hr Hcnt Hlo Hhi Hsep. destruct h as [|h].
  - apply wf_body_0_inv in Hl as (l & -> & Hl), Hr as (r & -> & Hr).
    unfold numKeys in *. simpl in *.
    destruct (merge_leaf _ _ _ l r Hl Hr Hlo Hhi) as [Hw He].
    split.
    + split; [done|]. unfold countOk, numKeys. simpl. rewrite length_app. lia.
    + eexists l, r, _. split_and!; done.
  - apply wf_body_S_inv in Hl as (lks & lcs & -> & Hl), Hr as (rks & rcs & -> & Hr).
    unfold numKeys in *. simpl in *. rewrite Hsep. split.
    + split; [by apply merge_internal|].
      unfold countOk, numKeys. simpl. rewrite length_app. simpl. lia.
    + split; [|done]. by rewrite flat_map_app.
Qed.

End Rebalance.

(** * [deleteEntry] *)

(** ** List surgery around one or two slots *)

Section Mid.
Context {A : Type}.
Implicit Types (l : list A) (x a b : A).

Lemma insert_mid0 l1 l2 a x (i : nat) :
  length l1 = i → <[i := x]> (l1 ++ a :: l2) = l1 ++ x :: l2.
Proof. intros <-. by rewrite insert_app_r_alt, Nat.sub_diag by lia. Qed.

Lemma insert_mid1 l1 l2 a b x (i : nat) :
  length l1 = i → <[S i := x]> (l1 ++ a :: b :: l2) = l1 ++ a :: x :: l2.
Proof.
  intros <-. rewrite insert_app_r_alt by lia.
  by replace (S (length l1) - length l1)%nat with 1%nat by lia.
Qed.

Lemma lookup_mid0 l1 l2 a (i : nat) :
  length l1 = i → (l1 ++ a :: l2) !! i = Some a.
Proof. intros <-. by rewrite list_lookup_middle. Qed.

Lemma lookup_mid1 l1 l2 a b (i : nat) :
  length l1 = i → (l1 ++ a :: b :: l2) !! S i = Some b.
Proof.
  intros <-. rewrite lookup_app_r by lia.
  by replace (S (length l1) - length l1)%nat with 1%nat by lia.
Qed.

Lemma remove_mid0 l1 l2 a (i : nat) :
  length l1 = i → take i (l1 ++ a :: l2) ++ drop (S i) (l1 ++ a :: l2) = l1 ++ l2.
Proof.
  intros Hi. rewrite take_app_length', drop_S_middle by done. done.
Qed.

Lemma remove_mid1 l1 l2 a b (i : nat) :
  length l1 = i →
  take (S i) (l1 ++ a :: b :: l2) ++ drop (S (S i)) (l1 ++ a :: b :: l2)
  = l1 ++ a :: l2.
Proof.
  intros Hi. rewrite take_S_middle by done.
  replace (l1 ++ a :: b :: l2) with ((l1 ++ [a]) ++ b :: l2) by (by rewrite <-app_assoc).
  rewrite drop_S_middle by (rewrite length_app; simpl; lia).
  by rewrite <-app_assoc.
Qed.

Lemma nth_mid0 l1 l2 a d (i : nat) :
  length l1 = i → nth i (l1 ++ a :: l2) d = a.
Proof. intros <-. by rewrite app_nth2, Nat.sub_diag by lia. Qed.

Lemma snoc_inv l (n : nat) :
  length l = S n → ∃ l' x, l = l' ++ [x] ∧ length l' = n.
Proof.
  intros Hlen. destruct l as [|y l] using rev_ind; [done|].
  rewrite length_app in Hlen. simpl in Hlen. exists l, y. split; [done|lia].
Qed.

End Mid.

Section DeleteEntry.
Context {V : Type}.
Variables (minK maxK : Z).
Hypothesis Hparams : paramsOk minK maxK.

Local Abbreviation wf_body := (@wf_body V minK maxK).
Local Abbreviation wf_node := (@wf_node V minK maxK).
Local Abbreviation wf_path := (@wf_path V minK maxK).
Local Abbreviation wf_root := (@wf_root V minK maxK).
Local Abbreviation countOk := (@countOk V minK maxK).
Local Abbreviation countLo := (@countLo V minK).

Lemma leftSibling_last (n : nat) (cs1 cs2 : list (Node V)) :
  n = length cs1 →
  (if (0 <? n)%nat then (cs1 ++ cs2) !! (n - 1)%nat else None) = last cs1.
Proof.
  intros ->. destruct cs1 as [|c cs1] using rev_ind; [done|].
  rewrite length_app, last_snoc. simpl.
  replace (0 <? length cs1 + 1)%nat with true by (symmetry; apply Nat.ltb_lt; lia).
  replace (length cs1 + 1 - 1)%nat with (length cs1) by lia.
  rewrite <-app_assoc. by apply lookup_mid0.
Qed.

Lemma rightSibling_head (ks1 ks2 : list Z) (cs1 cs2 : list (Node V)) (c : Node V) :
  length ks1 = length cs1 → length ks2 = length cs2 →
  (if (Z.of_nat (length ks1) <? Z.of_nat (length (ks1 ++ ks2)))
   then (cs1 ++ c :: cs2) !! (length ks1 + 1)%nat else None)
  = head cs2.
Proof.
  intros H1 H2. rewrite length_app.
  destruct cs2 as [|c2 cs2]; simpl in *.
  - destruct (Z.ltb_spec (Z.of_nat (length ks1)) (Z.of_nat (length ks1 + length ks2)));
      [lia|done].
  - destruct (Z.ltb_spec (Z.of_nat (length ks1)) (Z.of_nat (length ks1 + length ks2)));
      [|lia].
    replace (length ks1 + 1)%nat with (S (length ks1)) by lia.
    by apply lookup_mid1.
Qed.

Lemma hasSurplus_false (sib : Node V) :
  countOk sib → hasSurplus minK (Some sib) = false → numKeys sib = minK.
Proof.
  intros [H1 H2]. simpl. destruct (Z.ltb_spec minK (numKeys sib)); [done|]. lia.
Qed.

Lemma hasSurplus_true (sib : option (Node V)) :
  hasSurplus minK sib = true → ∃ s, sib = Some s ∧ minK < numKeys s.
Proof.
  destruct sib as [s|]; [|done]. simpl. intros H. exists s.
  split; [done|]. by apply Z.ltb_lt.
Qed.

Lemma deleteEntry_frame h plo phi ksT ksD csT stale csD (up : list (Frame V)) node :
  length ksT = length csT →
  wfL (wf_node h) plo ksT csT → wfR (wf_node h) ksD csD phi →
  blt (lastB plo ksT) (headB ksD phi) →
  wf_body h (lastB plo ksT) (headB ksD phi) node →
  numKeys node = minK - 1 →
  (1 <= length (ksT ++ ksD))%nat →
  let Cf := flat_map leaves csT ++ leaves node ++ flat_map leaves csD in
  let path := mkFrame (ksT ++ ksD) (csT ++ stale :: csD) (length ksT) :: up in
  (∃ ks' cs',
      deleteEntry minK path node = Some (rebuild up (Internal ks' cs')) ∧
      wf_children (wf_node h) plo phi ks' cs' ∧
      length ks' = length (ksT ++ ksD) ∧
      frameRedistributed h Cf cs')
  ∨
  (∃ ks' cs' relink,
      deleteEntry minK path node =
        relinkRoot relink
          (if isUnderflow minK ks' then deleteEntry minK up (Internal ks' cs')
           else Some (rebuild up (Internal ks' cs'))) ∧
      wf_children (wf_node h) plo phi ks' cs' ∧
      S (length ks') = length (ksT ++ ksD) ∧
      frameMerged h Cf cs' relink).
Proof.
  intros Hlen HL HR Hlt Hn Hcnt Hk1 Cf path.
  pose proof (wfR_length _ _ _ _ HR) as HlenD.
  subst path. cbn [deleteEntry fidx fkeys fchildren].
  rewrite (insert_mid0 csT csD stale node) by done.
  rewrite (leftSibling_last (length ksT) csT (node :: csD)) by done.
  rewrite (rightSibling_head ksT ksD csT csD node) by done.
  destruct (hasSurplus minK (last csT)) eqn:EL.
  { (* the left sibling has surplus *)
    left. apply hasSurplus_true in EL as (sib & Elast & Hsur). rewrite Elast.
    apply last_Some in Elast as [csL ->].
    rewrite length_app in Hlen. simpl in Hlen.
    destruct (snoc_inv ksT (length csL)) as (ksL & sep & -> & HlenL); [lia|].
    apply wfL_snoc in HL as (HL & Hsib & HltL).
    rewrite lastB_snoc in Hn, Hlt.
    rewrite length_app. simpl length.
    replace (length ksL + 1 - 1)%nat with (length ksL) by lia.
    replace (length ksL + 1)%nat with (S (length ksL)) by lia.
    rewrite <-!app_assoc. simpl app.
    destruct (redistribute_left minK maxK Hparams h _ sep _ node sib
                (ksL ++ sep :: ksD) (length ksL) Hsib Hsur Hn Hcnt Hlt)
      as (node' & sib' & sep' & Heq & Hw1 & Hw2 & Hb1 & Hb2 & Hlk & Hen & Hlv).
    { by apply nth_mid0. }
    rewrite Heq. rewrite insert_mid0 by done.
    rewrite insert_mid1, insert_mid0 by lia.
    exists (ksL ++ sep' :: ksD), (csL ++ sib' :: node' :: csD).
    split_and!.
    - done.
    - apply wf_children_focus; [lia|]. split_and!; done.
    - rewrite !length_app. simpl. done.
    - unfold frameRedistributed. subst Cf.
      rewrite !flat_map_app. simpl. rewrite app_nil_r.
      rewrite !map_app, !flat_map_app in *.
      rewrite <-!app_assoc.
      split_and!.
      + f_equal. rewrite !app_assoc. f_equal. exact Hlk.
      + f_equal. rewrite !app_assoc. f_equal. exact Hen.
      + intros Hh. f_equal. rewrite !app_assoc. f_equal. by apply Hlv. }
  destruct (hasSurplus minK (head csD)) eqn:ER.
  { (* the right sibling has surplus *)
    left. apply hasSurplus_true in ER as (sib & Ehead & Hsur). rewrite Ehead.
    destruct csD as [|sib0 csR]; simplify_eq/=.
    destruct ksD as [|sep ksR]; [done|].
    destruct HR as (Hsib & HltR & HR).
    destruct (redistribute_right minK maxK Hparams h _ sep _ node sib
                (ksT ++ sep :: ksR) (length ksT) Hn Hcnt Hsib Hsur Hlt)
      as (node' & sib' & sep' & Heq & Hw1 & Hw2 & Hb1 & Hb2 & Hlk & Hen & Hlv).
    { by apply nth_mid0. }
    rewrite Heq. replace (length ksT + 1)%nat with (S (length ksT)) by lia.
    rewrite !insert_mid0 by done. rewrite insert_mid1 by done.
    exists (ksT ++ sep' :: ksR), (csT ++ node' :: sib' :: csR).
    split_and!.
    - done.
    - apply wf_children_focus; [lia|]. split_and!; done.
    - rewrite !length_app. simpl. done.
    - unfold frameRedistributed. subst Cf.
      rewrite !flat_map_app. simpl.
      rewrite !map_app, !flat_map_app in *.
      split_and!.
      + f_equal. rewrite !app_assoc. f_equal. exact Hlk.
      + f_equal. rewrite !app_assoc. f_equal. exact Hen.
      + intros Hh. f_equal. rewrite !app_assoc. f_equal. by apply Hlv. }
  right.
  destruct (Nat.ltb_spec 0 (length ksT)) as [Hpos|Hzero].
  - (* merge into the left sibling *)
    destruct (snoc_inv ksT (length ksT - 1)) as (ksL & sep & -> & HlenL); [lia|].
    destruct (snoc_inv csT (length ksL)) as (csL & sib & -> & HlenL').
    { rewrite length_app in Hlen. simpl in Hlen. lia. }
    apply wfL_snoc in HL as (HL & Hsib & HltL).
    rewrite lastB_snoc in Hn, Hlt. rewrite last_snoc in EL.
    rewrite length_app. simpl length.
    replace (length ksL + 1 - 1)%nat with (length ksL) by lia.
    rewrite <-!app_assoc. simpl app.
    rewrite lookup_mid0 by done.
    unfold mergeNodes_parent, removeKeyAt, removeChildAt.
    replace (length ksL + 1)%nat with (S (length ksL)) by lia.
    rewrite insert_mid0 by done.
    rewrite remove_mid0, remove_mid1 by done.
    pose proof (hasSurplus_false sib (proj2 Hsib) EL) as Hcs.
    destruct (merge_node minK maxK Hparams h _ sep _ sib node
                (ksL ++ sep :: ksD) (length ksL) (proj1 Hsib) Hn) as [Hm Hrel];
      [lia|done|done|by apply nth_mid0|].
    exists (ksL ++ ksD), (csL ++ mergeNodes_merged sib node (ksL ++ sep :: ksD) (length ksL) :: csD),
      (mergeNodes_relink sib node).
    split_and!.
    + done.
    + apply wf_children_focus; [lia|]. split_and!; try done.
      by eapply blt_trans.
    + rewrite !length_app. simpl. lia.
    + unfold frameMerged, mergeLeavesRel in *. subst Cf.
      rewrite !flat_map_app. simpl. rewrite app_nil_r.
      destruct h as [|h].
      * destruct Hrel as (l & r & m & -> & -> & Em & H1 & H2 & H3 & H4 & H5).
        rewrite Em. simpl.
        exists (flat_map leaves csL), (flat_map leaves csD), l, r, m.
        split_and!; try done. by rewrite <-app_assoc.
      * destruct Hrel as [Hlv Hid]. split; [|done].
        rewrite Hlv. by rewrite <-!app_assoc.
  - (* no left sibling: merge the right sibling into the node *)
    destruct ksT; [|simpl in Hzero; lia]. destruct csT; [|done].
    simpl in *.
    destruct ksD as [|sep ksR]; [simpl in Hk1; lia|].
    destruct csD as [|sib csR]; [done|].
    simpl in *. destruct HR as (Hsib & HltR & HR).
    unfold mergeNodes_parent, removeKeyAt, removeChildAt. simpl.
    pose proof (hasSurplus_false sib (proj2 Hsib) ER) as Hcs.
    destruct (merge_node minK maxK Hparams h _ sep _ node sib
                (sep :: ksR) O Hn (proj1 Hsib)) as [Hm Hrel];
      [lia|done|done|done|].
    exists ksR, (mergeNodes_merged node sib (sep :: ksR) O :: csR),
      (mergeNodes_relink node sib).
    split_and!.
    + done.
    + apply wf_children_head. split_and!; try done.
      by eapply blt_trans.
    + done.
    + unfold frameMerged, mergeLeavesRel in *. subst Cf. simpl.
      destruct h as [|h].
      * destruct Hrel as (l & r & m & -> & -> & Em & H1 & H2 & H3 & H4 & H5).
        rewrite Em. simpl.
        exists [], (flat_map leaves csR), l, r, m.
        split_and!; done.
      * destruct Hrel as [Hlv Hid]. split; [|done].
        rewrite Hlv. by rewrite <-!app_assoc.
Qed.

Lemma frame_decompose (ks : list Z) (cs0 : list (Node V)) (i : nat) :
  (i <= length ks)%nat → length cs0 = S (length ks) →
  ∃ stale,
    mkFrame ks cs0 i
    = mkFrame (take i ks ++ drop i ks) (take i cs0 ++ stale :: drop (S i) cs0)
        (length (take i ks)) ∧
    length (take i ks) = length (take i cs0).
Proof.
  intros Hi Hlen. destruct (lookup_lt_is_Some_2 cs0 i) as [stale Hst]; [lia|].
  exists stale. rewrite take_drop, (take_drop_middle _ _ _ Hst), !length_take.
  split; [f_equal|]; lia.
Qed.

Lemma mapLeaves_id (f : LeafNode V → LeafNode V) (n : Node V) :
  (∀ l, f l = l) → mapLeaves f n = n.
Proof.
  intros Hf. induction n as [l|ks cs IH] using Node_ind'; simpl; [by rewrite Hf|].
  f_equal. induction IH as [|c cs Hc _ IHcs]; simpl; [done|]. by rewrite Hc, IHcs.
Qed.

(** [deleteEntry] on an internal node: the root afterwards satisfies the
    invariant and has the same leaves. *)
Lemma deleteEntry_internal (path : list (Frame V)) :
  ∀ h lo hi node,
    wf_path (S h) lo hi path → wf_body (S h) lo hi node →
    (path ≠ [] → numKeys node = minK - 1) → numKeys node <= maxK →
    ∃ r', deleteEntry minK path node = Some r' ∧ wf_root r' ∧
          leaves r' = pathLeft path ++ leaves node ++ pathRight path.
Proof.
  destruct Hparams as [Hmin Hmax].
  induction path as [|f up IH]; intros h lo hi node Hp Hn Hcnt Hmx.
  - destruct Hp as [-> ->].
    apply wf_body_S_inv in Hn as (ks & cs & -> & Hn).
    cbn [deleteEntry]. unfold numKeys in *. simpl in *.
    destruct (Z.eqb_spec (Z.of_nat (length ks)) 0) as [E|E].
    + destruct ks; [|done]. destruct cs as [|c cs]; [done|].
      simpl in Hn. destruct Hn as (-> & [Hb [Hc1 Hc2]] & _).
      exists c. split_and!; [done| |simpl; by rewrite !app_nil_r].
      exists h. split; [done|]. lia.
    + exists (Internal ks cs). split_and!; [done| |by rewrite app_nil_r].
      exists (S h). split; [done|]. unfold numKeys. simpl. lia.
  - destruct f as [ks cs0 i].
    destruct Hp as (plo & phi & Hik & Hlen & HL & HR & -> & -> & Hlt & Hc & Hup).
    simpl in Hik, Hlen, HL, HR, Hlt, Hc, Hn.
    destruct (frame_decompose ks cs0 i Hik Hlen) as (stale & Ef & HlenT).
    assert (deleteEntry minK (mkFrame ks cs0 i :: up) node
            = deleteEntry minK
                (mkFrame (take i ks ++ drop i ks)
                   (take i cs0 ++ stale :: drop (S i) cs0) (length (take i ks)) :: up)
                node) as Ed by (by rewrite <-Ef).
    rewrite Ed. clear Ed Ef.
    pose proof (countLo_bounds minK maxK Hparams up) as Hlo.
    destruct (deleteEntry_frame (S h) plo phi (take i ks) (drop i ks) (take i cs0)
                stale (drop (S i) cs0) up node HlenT HL HR Hlt Hn) as
      [(ks' & cs' & -> & Hwf & Hlk & _ & _ & Hlv)
      |(ks' & cs' & relink & -> & Hwf & Hlk & Hlv & Hid)].
    { apply Hcnt. done. }
    { rewrite take_drop. lia. }
    + exists (rebuild up (Internal ks' cs')). split; [done|].
      rewrite take_drop in Hlk. split.
      * eapply rebuild_wf; [done|done|]. unfold numKeys. simpl. lia.
      * erewrite leaves_rebuild by done. simpl. rewrite Hlv by done.
        by rewrite <-!app_assoc.
    + rewrite take_drop in Hlk. unfold isUnderflow.
      destruct (Z.ltb_spec (Z.of_nat (length ks')) minK) as [Hu|Hu].
      * destruct (IH (S h) plo phi (Internal ks' cs') Hup Hwf) as (r' & -> & Hr' & Hlv').
        { intros Hne. unfold numKeys. simpl. destruct up; [done|]. simpl in Hc. lia. }
        { unfold numKeys. simpl. lia. }
        exists r'. simpl. rewrite mapLeaves_id by done. split_and!; [done|done|].
        rewrite Hlv'. simpl. rewrite Hlv. by rewrite <-!app_assoc.
      * exists (rebuild up (Internal ks' cs')). simpl.
        rewrite mapLeaves_id by done. split_and!; [done| |].
        -- eapply rebuild_wf; [done|done|]. unfold numKeys. simpl. lia.
        -- erewrite leaves_rebuild by done. simpl. rewrite Hlv.
           by rewrite <-!app_assoc.
Qed.

End DeleteEntry.

(** * Removal *)

(** ** The chain depends on identities and links only *)

Section ChainLinks.
Context {V : Type}.
Implicit Types (A B L R : list (LeafNode V)).

Lemma links_ids A B : map linksOf A = map linksOf B → map lid A = map lid B.
Proof.
  revert B. induction A as [|a A IH]; intros [|b B] H; simplify_eq/=; [done|].
  f_equal; [congruence|]. by apply IH.
Qed.

Lemma chainSeg_links p A B nx :
  map linksOf A = map linksOf B → chainSeg p A nx → chainSeg p B nx.
Proof.
  revert p B. induction A as [|a A IH]; intros p [|b B] H; simplify_eq/=; [done|].
  intros (Hp & Hn & Hc). unfold linksOf in *. simplify_eq.
  assert (headId B nx = headId A nx) as ->.
  { destruct A, B; simplify_eq/=; [done|]. f_equal. congruence. }
  split_and!; [congruence|congruence|]. replace (lid b) with (lid a) by congruence.
  apply IH; [|done]. done.
Qed.

Lemma chainOk_links A B : map linksOf A = map linksOf B → chainOk A → chainOk B.
Proof.
  intros H [Hnd Hc]. split.
  - by rewrite <-(links_ids A B).
  - by eapply chainSeg_links.
Qed.

Lemma ids_links A B (n : nat) :
  map linksOf A = map linksOf B →
  Forall (fun l => (lid l < n)%nat) A → Forall (fun l => (lid l < n)%nat) B.
Proof.
  revert B. induction A as [|a A IH]; intros [|b B] H HA; simplify_eq/=; [done|].
  apply Forall_cons in HA as [Ha HA]. constructor; [|by apply IH].
  unfold linksOf in *. by replace (lid b) with (lid a) by congruence.
Qed.

(** The chain after [mergeNodes] absorbed leaf [r] into leaf [l]. *)
Lemma chainOk_merge L R (l r m : LeafNode V) (n : nat) :
  chainOk (L ++ l :: r :: R) →
  Forall (fun x => (lid x < n)%nat) (L ++ l :: r :: R) →
  lid m = lid l → lprev m = lprev l → lnext m = lnext r →
  let f := setPrev (lnext r) (lid l) in
  chainOk (map f (L ++ m :: R)) ∧
  Forall (fun x => (lid x < n)%nat) (map f (L ++ m :: R)).
Proof.
  intros [Hnd Hch] Hids Hid Hpv Hnx f.
  apply chainSeg_middle in Hch as (HcL & HpL & HnL & HcR).
  cbn [chainSeg headId] in HcR, HnL. destruct HcR as (Hpr & Hnr & HcR).
  rewrite map_app in Hnd. cbn [map] in Hnd.
  pose proof (NoDup_app_cons_notin _ _ _ Hnd) as (HnotL & HnotR & HndLR).
  apply not_elem_of_cons in HnotR as [Hlr HnotR].
  assert (NoDup (map lid L ++ lid l :: map lid R)) as Hnd'.
  { apply NoDup_app in Hnd as (H1 & H2 & H3). apply NoDup_cons in H3 as [H3 H4].
    apply NoDup_cons in H4 as [H4 H5].
    apply NoDup_app. split_and!; [done| |].
    - intros x Hx Hx'. apply (H2 _ Hx). apply elem_of_cons in Hx' as [->|Hx'];
        [by left|by right; right].
    - apply NoDup_cons. split; [|done]. intros Hin. apply H3. by right. }
  assert (map f L = L) as HfL.
  { apply map_setPrev_other. intros id Hid' Hin.
    rewrite Hnr in Hid'. destruct R as [|r0 R']; simplify_eq/=.
    apply NoDup_app in Hnd' as (_ & Hnd' & _). apply (Hnd' _ Hin). right. by left. }
  assert (f m = m) as Hfm.
  { apply setPrev_other. rewrite Hnr, Hid.
    destruct R as [|r0 R']; [done|]. simpl. intros [= E].
    apply HnotR. rewrite <-E. by left. }
  assert (map lid (map f R) = map lid R) as HidR.
  { apply ids_map_keepsData, setPrev_keepsData. }
  assert (headId (map f R) None = headId R None) as HhR.
  { destruct R as [|r0 R']; [done|]. simpl. subst f.
    by destruct (setPrev_keepsData (lnext r) (lid l) r0) as (-> & _). }
  assert (chainSeg (Some (lid l)) (map f R) None) as HcR'.
  { destruct R as [|r0 R']; [done|].
    simpl in Hnr. subst f. rewrite Hnr. cbn [map chainSeg]. rewrite setPrev_target. simpl.
    destruct HcR as (_ & Hn0 & HcR).
    rewrite map_setPrev_other; [done|].
    intros id [= <-] Hin.
    apply NoDup_app in Hnd' as (_ & _ & Hnd'). apply NoDup_cons in Hnd' as [_ Hnd'].
    simpl in Hnd'. by apply NoDup_cons in Hnd' as [? _]. }
  rewrite map_app. cbn [map]. rewrite HfL, Hfm.
  rewrite !Forall_app, !Forall_cons in Hids.
  destruct Hids as (HidsL & Hidl & Hidr & HidsR).
  split; [split|].
  - rewrite map_app. cbn [map]. by rewrite HidR, Hid.
  - apply chainSeg_middle. rewrite Hid, Hpv, Hnx, Hnr, HhR. done.
  - rewrite Forall_app, Forall_cons. rewrite Hid. split_and!; [done|done|].
    apply Forall_forall. intros x Hx. apply list_elem_of_fmap in Hx as (y & -> & Hy).
    subst f. destruct (setPrev_keepsData (lnext r) (lid l) y) as (-> & _).
    rewrite Forall_forall in HidsR. by apply HidsR.
Qed.

End ChainLinks.

(** ** Lists of entries *)

Lemma erase_app_l {V} (k : Z) (l e : list (Z * V)) :
  Forall (fun p => p.1 < k) l → erase k (l ++ e) = l ++ erase k e.
Proof.
  induction 1 as [|[k' v'] l Hk _ IH]; simpl; [done|].
  simpl in Hk. destruct (k' =? k) eqn:E; [lia|]. by rewrite IH.
Qed.

Lemma erase_above {V} (k : Z) (r : list (Z * V)) :
  Forall (fun p => k < p.1) r → erase k r = r.
Proof.
  induction 1 as [|[k' v'] r Hk _ IH]; simpl; [done|].
  simpl in Hk. destruct (k' =? k) eqn:E; [lia|]. by rewrite IH.
Qed.

Lemma erase_app_r {V} (k : Z) (m r : list (Z * V)) :
  Forall (fun p => k < p.1) r → erase k (m ++ r) = erase k m ++ r.
Proof.
  intros Hr. induction m as [|[k' v'] m IH]; simpl.
  - by apply erase_above.
  - destruct (k' =? k); [done|]. by rewrite IH.
Qed.

Lemma erase_focus {V} (k : Z) (L M R : list (Z * V)) :
  Forall (fun p => p.1 < k) L → Forall (fun p => k < p.1) R →
  erase k (L ++ M ++ R) = L ++ erase k M ++ R.
Proof. intros HL HR. by rewrite erase_app_l, erase_app_r. Qed.

Lemma assoc_app_l {V} (k : Z) (l e : list (Z * V)) :
  Forall (fun p => p.1 < k) l → assoc k (l ++ e) = assoc k e.
Proof.
  induction 1 as [|[k' v'] l Hk _ IH]; simpl; [done|].
  simpl in Hk. destruct (k' =? k) eqn:E; [lia|]. by rewrite IH.
Qed.

Lemma assoc_above {V} (k : Z) (r : list (Z * V)) :
  Forall (fun p => k < p.1) r → assoc k r = None.
Proof.
  induction 1 as [|[k' v'] r Hk _ IH]; simpl; [done|].
  simpl in Hk. destruct (k' =? k) eqn:E; [lia|]. by rewrite IH.
Qed.

Lemma assoc_app_r {V} (k : Z) (m r : list (Z * V)) :
  Forall (fun p => k < p.1) r → assoc k (m ++ r) = assoc k m.
Proof.
  intros Hr. induction m as [|[k' v'] m IH]; simpl.
  - by apply assoc_above.
  - destruct (k' =? k); [done|]. by rewrite IH.
Qed.

Lemma assoc_focus {V} (k : Z) (L M R : list (Z * V)) :
  Forall (fun p => p.1 < k) L → Forall (fun p => k < p.1) R →
  assoc k (L ++ M ++ R) = assoc k M.
Proof. intros HL HR. by rewrite assoc_app_l, assoc_app_r. Qed.

Lemma findValue_assoc {V} (l : LeafNode V) (k : Z) :
  findValue l k = assoc k (leafEntries l).
Proof.
  unfold findValue, leafEntries.
  generalize (lvalues l). induction (lkeys l) as [|k' ks IH]; intros [|v vs]; simpl;
    try done.
  destruct (k' =? k); [done|]. apply IH.
Qed.

Lemma findPos_None_assoc {V} (keys : list Z) (values : list V) (k : Z) :
  length values = length keys →
  findPos keys k = None ↔ assoc k (zip keys values) = None.
Proof.
  revert values. induction keys as [|k' ks IH]; intros [|v vs] Hlen; simplify_eq/=;
    [done|].
  destruct (k' =? k); [done|]. rewrite <-(IH vs) by done.
  destruct (findPos ks k); done.
Qed.

Lemma findPos_None_erase {V} (keys : list Z) (values : list V) (k : Z) :
  findPos keys k = None → erase k (zip keys values) = zip keys values.
Proof.
  revert values. induction keys as [|k' ks IH]; intros [|v vs]; simpl; try done.
  destruct (k' =? k); [done|]. destruct (findPos ks k) eqn:E; [done|].
  intros _. by rewrite IH.
Qed.

Lemma findPos_Some_lt (keys : list Z) (k : Z) (pos : nat) :
  findPos keys k = Some pos → (pos < length keys)%nat.
Proof.
  revert pos. induction keys as [|k' ks IH]; intros pos; simpl; [done|].
  destruct (k' =? k); [intros [= <-]; lia|].
  destruct (findPos ks k) as [i|]; [|done]. intros [= <-].
  specialize (IH i eq_refl). lia.
Qed.

Lemma findPos_Some_erase {V} (keys : list Z) (values : list V) (k : Z) (pos : nat) :
  length values = length keys →
  findPos keys k = Some pos →
  zip (removeKeyAt pos keys) (take pos values ++ drop (S pos) values)
  = erase k (zip keys values).
Proof.
  revert values pos. induction keys as [|k' ks IH]; intros [|v vs] pos Hlen;
    simplify_eq/=; [done|].
  destruct (k' =? k).
  - intros [= <-]. unfold removeKeyAt. simpl. by rewrite !drop_0.
  - destruct (findPos ks k) as [i|] eqn:E; [|done]. intros [= <-].
    unfold removeKeyAt in *. simpl. by rewrite IH.
Qed.

Section RemoveLeaf.
Context {V : Type}.

Lemma wf_leaf_removeAt lo hi (l : LeafNode V) pos :
  (pos < length (lkeys l))%nat →
  wf_leaf lo hi l → wf_leaf lo hi (removeAt pos l).
Proof.
  intros Hpos (Hlen & Hs & Hr). unfold wf_leaf, removeAt, removeKeyAt. simpl.
  rewrite <-(take_drop pos (lkeys l)) in Hs, Hr.
  assert (drop pos (lkeys l) = nth pos (lkeys l) 0 :: drop (S pos) (lkeys l)) as Ed.
  { destruct (lookup_lt_is_Some_2 (lkeys l) pos Hpos) as [x Hx].
    by rewrite (drop_S _ _ _ Hx), (nth_lookup_Some _ _ _ _ Hx). }
  rewrite Ed in Hs, Hr.
  apply StronglySorted_app in Hs as (Hc & H1 & H2).
  apply StronglySorted_cons in H2 as [_ H2].
  apply Forall_app in Hr as [Hr1 Hr2]. apply Forall_cons in Hr2 as [_ Hr2].
  split_and!.
  - rewrite !length_app, !length_take, !length_drop. lia.
  - apply StronglySorted_app. split_and!; [|done|done].
    intros x1 x2 Hx1 Hx2. apply Hc; [done|by right].
  - by apply Forall_app.
Qed.

Lemma length_removeAt (l : LeafNode V) pos :
  (pos < length (lkeys l))%nat →
  Z.of_nat (length (lkeys (removeAt pos l))) = Z.of_nat (length (lkeys l)) - 1.
Proof.
  intros Hpos. unfold removeAt, removeKeyAt. simpl.
  rewrite length_app, length_take, length_drop. lia.
Qed.

End RemoveLeaf.

(** ** [deleteEntry] on a leaf *)

Section DeleteLeaf.
Context {V : Type}.
Variables (minK maxK : Z).
Hypothesis Hparams : paramsOk minK maxK.

Local Abbreviation wf_body := (@wf_body V minK maxK).
Local Abbreviation wf_node := (@wf_node V minK maxK).
Local Abbreviation wf_path := (@wf_path V minK maxK).
Local Abbreviation wf_root := (@wf_root V minK maxK).

Lemma wf_root_mapLeaves (f : LeafNode V → LeafNode V) (n : Node V) :
  keepsData f → wf_root n → wf_root (mapLeaves f n).
Proof.
  intros Hf (h & Hb & Hc). exists h. split.
  - by apply wf_body_mapLeaves.
  - by rewrite numKeys_mapLeaves.
Qed.

Lemma deleteEntry_leaf (f : Frame V) up lo hi (leaf : LeafNode V) :
  wf_path O lo hi (f :: up) → wf_leaf lo hi leaf →
  Z.of_nat (length (lkeys leaf)) = minK - 1 →
  let C := pathLeft (f :: up) ++ leaf :: pathRight (f :: up) in
  ∃ r',
    deleteEntry minK (f :: up) (Leaf leaf) = Some r' ∧ wf_root r' ∧
    flat_map leafEntries (leaves r') = flat_map leafEntries C ∧
    ∀ n, chainOk C → Forall (fun l => (lid l < n)%nat) C →
         chainOk (leaves r') ∧ Forall (fun l => (lid l < n)%nat) (leaves r').
Proof.
  destruct Hparams as [Hmin Hmax].
  intros Hp Hl Hcnt C. destruct f as [ks cs0 i].
  destruct Hp as (plo & phi & Hik & Hlen & HL & HR & -> & -> & Hlt & Hc & Hup).
  simpl in Hik, Hlen, HL, HR, Hlt, Hc, Hl.
  destruct (frame_decompose ks cs0 i Hik Hlen) as (stale & Ef & HlenT).
  assert (deleteEntry minK (mkFrame ks cs0 i :: up) (Leaf leaf)
          = deleteEntry minK
              (mkFrame (take i ks ++ drop i ks)
                 (take i cs0 ++ stale :: drop (S i) cs0) (length (take i ks)) :: up)
              (Leaf leaf)) as Ed by (by rewrite <-Ef).
  rewrite Ed. clear Ed Ef.
  pose proof (countLo_bounds minK maxK Hparams up) as Hlo.
  assert (C = pathLeft up ++
              (flat_map leaves (take i cs0) ++ leaves (Leaf leaf)
               ++ flat_map leaves (drop (S i) cs0)) ++ pathRight up) as EC.
  { subst C. simpl. by rewrite <-!app_assoc. }
  destruct (deleteEntry_frame minK maxK Hparams O plo phi (take i ks) (drop i ks)
              (take i cs0) stale (drop (S i) cs0) up (Leaf leaf) HlenT HL HR Hlt) as
    [(ks' & cs' & -> & Hwf & Hlk & Hlinks & Hent & _)
    |(ks' & cs' & relink & -> & Hwf & Hlk & (A & B & l & r & m & ECf & Hcs' & Hid & Hpv & Hnx & Hem & ->))].
  { by split. }
  { done. }
  { rewrite take_drop. lia. }
  - rewrite take_drop in Hlk.
    exists (rebuild up (Internal ks' cs')). split; [done|].
    assert (leaves (rebuild up (Internal ks' cs'))
            = pathLeft up ++ flat_map leaves cs' ++ pathRight up) as Elv.
    { by erewrite leaves_rebuild by done. }
    split_and!.
    + eapply rebuild_wf; [done|done|]. unfold numKeys. simpl. lia.
    + rewrite Elv, EC, !flat_map_app. by rewrite Hent, !flat_map_app.
    + intros n HcC HiC.
      assert (map linksOf C = map linksOf (leaves (rebuild up (Internal ks' cs')))) as El.
      { rewrite Elv, EC, !map_app. by rewrite Hlinks, !map_app. }
      split; [by eapply chainOk_links|by eapply ids_links].
  - rewrite take_drop in Hlk.
    set (relink := setPrev (V:=V) (lnext r) (lid l)).
    assert (∃ r0,
      (if isUnderflow minK ks' then deleteEntry minK up (Internal ks' cs')
       else Some (rebuild up (Internal ks' cs'))) = Some r0 ∧
      wf_root r0 ∧ leaves r0 = pathLeft up ++ flat_map leaves cs' ++ pathRight up)
      as (r0 & -> & Hr0 & Elv).
    { unfold isUnderflow.
      destruct (Z.ltb_spec (Z.of_nat (length ks')) minK) as [Hu|Hu].
      - destruct (deleteEntry_internal minK maxK Hparams up O plo phi (Internal ks' cs') Hup Hwf)
          as (r0 & E0 & Hr0 & Hlv0).
        { intros Hne. unfold numKeys. simpl. destruct up; [done|]. simpl in Hc. lia. }
        { unfold numKeys. simpl. lia. }
        by exists r0.
      - exists (rebuild up (Internal ks' cs')). split_and!; [done| |].
        + eapply rebuild_wf; [done|done|]. unfold numKeys. simpl. lia.
        + by erewrite leaves_rebuild by done. }
    exists (mapLeaves relink r0). split; [done|].
    pose proof (setPrev_keepsData (V:=V) (lnext r) (lid l)) as Hkd. fold relink in Hkd.
    rewrite (leaves_mapLeaves relink), Elv, Hcs'.
    assert (C = (pathLeft up ++ A) ++ l :: r :: (B ++ pathRight up)) as EC'.
    { rewrite EC, ECf. by rewrite <-!app_assoc. }
    split_and!.
    + by apply wf_root_mapLeaves.
    + rewrite (entries_map_keepsData relink Hkd), EC', !flat_map_app. simpl.
      rewrite !flat_map_app, Hem. by rewrite <-!app_assoc.
    + intros n HcC HiC. rewrite EC' in HcC, HiC.
      replace (pathLeft up ++ (A ++ m :: B) ++ pathRight up)
        with ((pathLeft up ++ A) ++ m :: (B ++ pathRight up))
        by (by rewrite <-!app_assoc).
      by apply (chainOk_merge _ _ l r m n).
Qed.

End DeleteLeaf.

(** ** [remove] preserves the invariant and is [erase] on the entries *)

Section RemoveMain.
Context {V : Type}.
Implicit Types (t : BPlusTree V) (r : Node V) (leaf : LeafNode V) (path : list (Frame V)).

Lemma Inv_withRoot_None t : Inv t → Inv (withRoot t None).
Proof. intros [Hpar _]. by split. Qed.

Theorem remove_spec t key :
  Inv t →
  Inv (remove t key).2 ∧
  entries (remove t key).2 = erase key (entries t) ∧
  (remove t key).1 = bool_decide (is_Some (assoc key (entries t))) ∧
  (assoc key (entries t) = None → remove t key = (false, t)).
Proof.
  intros HInv. pose proof HInv as [Hpar Hroot].
  unfold remove. destruct (root t) as [r|] eqn:Er.
  2:{ simpl. unfold entries. rewrite Er. simpl. split_and!; done. }
  destruct (findLeaf_root t r key HInv Er) as
    (path & leaf & lo & hi & Hf & Hp & Hl & Hc & Hk & Hreb).
  rewrite Hf. pose proof Hl as (Hlen & Hs & Hr).
  destruct (path_entries_bounds _ _ _ _ _ _ key Hp Hk) as [HbL HbR].
  rewrite (entries_at t r _ _ _ path (Leaf leaf) Er Hreb Hp).
  rewrite entriesOf_Leaf, erase_focus, assoc_focus by done.
  unfold leafEntries at 2 3 4.
  destruct (findPos (lkeys leaf) key) as [pos|] eqn:Epos.
  - pose proof (findPos_Some_lt _ _ _ Epos) as Hpos.
    pose proof (findPos_Some_erase _ (lvalues leaf) _ _ Hlen Epos) as Her.
    pose proof (wf_leaf_removeAt lo hi leaf pos Hpos Hl) as Hl'.
    pose proof (length_removeAt leaf pos Hpos) as Hlen'.
    assert (sameLinks (removeAt pos leaf) leaf) as Hlinks by done.
    assert (is_Some (assoc key (zip (lkeys leaf) (lvalues leaf)))) as Hsome.
    { destruct (assoc key (zip (lkeys leaf) (lvalues leaf))) eqn:E; [done|].
      apply (findPos_None_assoc _ _ _ Hlen) in E. congruence. }
    rewrite <-Her.
    assert (∀ b t', Inv t' ∧
              entries t' = flat_map leafEntries (pathLeft path)
                ++ leafEntries (removeAt pos leaf) ++ flat_map leafEntries (pathRight path) →
              b = true →
              Inv (b, t').2 ∧
              entries (b, t').2 = flat_map leafEntries (pathLeft path)
                ++ zip (removeKeyAt pos (lkeys leaf))
                     (take pos (lvalues leaf) ++ drop (S pos) (lvalues leaf))
                ++ flat_map leafEntries (pathRight path) ∧
              (b, t').1 = bool_decide (is_Some (assoc key (zip (lkeys leaf) (lvalues leaf)))) ∧
              (assoc key (zip (lkeys leaf) (lvalues leaf)) = None → (b, t') = (false, t)))
      as Hfin.
    { intros b t' [HI He] ->. simpl. split_and!; [done|done| |].
      - by rewrite bool_decide_eq_true_2.
      - intros E. rewrite E in Hsome. by destruct Hsome. }
    destruct path as [|f up].
    + destruct (Z.eqb_spec (Z.of_nat (length (lkeys (removeAt pos leaf)))) 0) as [E0|E0].
      * apply Hfin; [|done]. split; [by apply Inv_withRoot_None|].
        unfold entries, leafEntries. simpl. simpl in E0.
        destruct (removeKeyAt pos (lkeys leaf)); [done|]. simpl in E0. lia.
      * apply Hfin; [|done].
        apply (Inv_replace t r [] leaf (removeAt pos leaf) lo hi); try done.
        simpl in Hc, Hlen', E0 |- *. lia.
    + unfold isUnderflow.
      destruct (Z.ltb_spec (Z.of_nat (length (lkeys (removeAt pos leaf)))) (minKeys t))
        as [Hu|Hu].
      * apply Hfin; [|done].
        destruct (deleteEntry_leaf _ _ Hpar f up lo hi (removeAt pos leaf) Hp Hl')
          as (r' & -> & Hr' & He' & Hch').
        { simpl in Hc, Hlen', Hu |- *. lia. }
        destruct Hroot as (Hwf & Hch & Hids).
        pose proof (leaves_rebuild _ _ _ _ _ _ (Leaf leaf) Hp) as Hlv.
        rewrite Hreb in Hlv. cbn [leaves app] in Hlv. rewrite Hlv in Hch, Hids.
        destruct (Hch' (nextLeaf t)) as [Hc1 Hc2].
        { by eapply chainOk_replace. }
        { eapply ids_replace; [|done]. done. }
        split.
        -- split; [done|]. simpl. split_and!; done.
        -- unfold entries. simpl. unfold entriesOf. rewrite He'.
           rewrite flat_map_app. simpl. done.
      * apply Hfin; [|done].
        apply (Inv_replace t r (f :: up) leaf (removeAt pos leaf) lo hi); try done.
        simpl in Hc, Hlen', Hu |- *. lia.
  - simpl. rewrite (findPos_None_erase _ _ _ Epos).
    pose proof (proj1 (findPos_None_assoc _ (lvalues leaf) _ Hlen) Epos) as Has.
    split_and!; try done.
    + rewrite (entries_at t r _ _ _ path (Leaf leaf) Er Hreb Hp).
      by rewrite entriesOf_Leaf.
    + rewrite bool_decide_eq_false_2; [done|].
      rewrite Has. by intros [??].
Qed.

End RemoveMain.

(** * Queries *)

(** ** Association lists with strictly increasing keys *)

Lemma assoc_not_in {V} (k : Z) (es : list (Z * V)) :
  k ∉ map fst es → assoc k es = None.
Proof.
  induction es as [|[k' v'] es IH]; [done|]. simpl. intros Hn.
  destruct (Z.eqb_spec k' k) as [->|Hne].
  - destruct Hn. left.
  - apply IH. intros Hin. apply Hn. by right.
Qed.

Lemma sorted_head_not_in (k : Z) (ks : list Z) :
  StronglySorted Z.lt (k :: ks) → k ∉ ks.
Proof.
  intros H Hin. apply StronglySorted_inv in H as [_ H].
  rewrite Forall_forall in H. specialize (H _ Hin). lia.
Qed.

Lemma assoc_erase {V} (k : Z) (es : list (Z * V)) :
  StronglySorted Z.lt (map fst es) → assoc k (erase k es) = None.
Proof.
  induction es as [|[k' v'] es IH]; [done|]. simpl. intros Hs.
  destruct (Z.eqb_spec k' k) as [->|Hne].
  - apply assoc_not_in. by apply sorted_head_not_in.
  - simpl. destruct (Z.eqb_spec k' k); [done|].
    apply IH. by apply StronglySorted_inv in Hs as [? _].
Qed.

Lemma assoc_erase_ne {V} (k k' : Z) (es : list (Z * V)) :
  k' ≠ k → assoc k' (erase k es) = assoc k' es.
Proof.
  intros Hne. induction es as [|[k0 v0] es IH]; [done|]. simpl.
  destruct (Z.eqb_spec k0 k) as [->|Hk].
  - by destruct (Z.eqb_spec k k').
  - simpl. by rewrite IH.
Qed.

Lemma assoc_upsert_ne {V} (k k' : Z) (v : V) (es : list (Z * V)) :
  k' ≠ k → assoc k' (upsert k v es) = assoc k' es.
Proof.
  intros Hne. induction es as [|[k0 v0] es IH]; simpl.
  - by destruct (Z.eqb_spec k k').
  - destruct (Z.ltb_spec k0 k).
    + simpl. by rewrite IH.
    + destruct (Z.eqb_spec k0 k) as [->|Hk]; simpl.
      * by destruct (Z.eqb_spec k k').
      * by destruct (Z.eqb_spec k k').
Qed.

Lemma upsert_present_keys {V} (k : Z) (v : V) (es : list (Z * V)) :
  StronglySorted Z.lt (map fst es) → is_Some (assoc k es) →
  map fst (upsert k v es) = map fst es.
Proof.
  induction es as [|[k0 v0] es IH]; simpl; intros Hs Hin.
  - by destruct Hin.
  - apply StronglySorted_inv in Hs as [Hs Hall].
    destruct (Z.ltb_spec k0 k).
    + destruct (Z.eqb_spec k0 k); [lia|]. simpl. by rewrite IH.
    + destruct (Z.eqb_spec k0 k) as [->|Hk]; [done|]. exfalso.
      rewrite assoc_not_in in Hin; [by destruct Hin|].
      intros Hk'. rewrite Forall_forall in Hall. specialize (Hall _ Hk'). lia.
Qed.

Lemma upsert_sorted {V} (k : Z) (v : V) (es : list (Z * V)) :
  StronglySorted Z.lt (map fst es) → StronglySorted Z.lt (map fst (upsert k v es)).
Proof.
  induction es as [|[k0 v0] es IH]; simpl; intros Hs.
  - repeat constructor.
  - apply StronglySorted_inv in Hs as [Hs Hall].
    destruct (Z.ltb_spec k0 k).
    + simpl. constructor; [by apply IH|].
      clear IH Hs. induction es as [|[k1 v1] es IH]; simpl.
      * by repeat constructor.
      * apply Forall_cons in Hall as [? ?].
        destruct (Z.ltb_spec k1 k); [constructor; [done|by apply IH]|].
        destruct (Z.eqb_spec k1 k); simpl; repeat (constructor; [done|]); done.
    + destruct (Z.eqb_spec k0 k) as [->|Hk]; simpl.
      * by constructor.
      * constructor; [by constructor|]. constructor; [simpl; lia|].
        eapply Forall_impl; [exact Hall|]. simpl. intros. lia.
Qed.

(** ** [search] *)

Section Search.
Context {V : Type}.
Implicit Types (t : BPlusTree V) (r : Node V) (leaf : LeafNode V) (path : list (Frame V)).

Theorem search_spec t key : Inv t → search t key = assoc key (entries t).
Proof.
  intros HInv. unfold search. destruct (root t) as [r|] eqn:Er.
  2:{ unfold entries. by rewrite Er. }
  destruct (findLeaf_root t r key HInv Er) as
    (path & leaf & lo & hi & Hf & Hp & Hl & Hc & Hk & Hreb).
  rewrite Hf.
  destruct (path_entries_bounds _ _ _ _ _ _ key Hp Hk) as [HbL HbR].
  rewrite (entries_at t r _ _ _ path (Leaf leaf) Er Hreb Hp).
  rewrite entriesOf_Leaf, assoc_focus by done.
  apply findValue_assoc.
Qed.

End Search.

(** ** The entries are sorted *)

Section Sorted.
Context {V : Type}.
Variables (minK maxK : Z).

Local Abbreviation wf_body := (@wf_body V minK maxK).

Lemma wfR_Forall (P : option Z → option Z → Node V → Prop) (Q : Node V → Prop) ks cs hi :
  (∀ lo hi c, c ∈ cs → P lo hi c → Q c) → wfR P ks cs hi → Forall Q cs.
Proof.
  revert ks. induction cs as [|c cs IH]; intros [|k ks] HPQ; simpl; try done.
  intros (Hc & _ & H). constructor.
  - eapply HPQ; [left|done].
  - eapply IH; [|done]. intros ??? Hin. apply HPQ. by right.
Qed.

Lemma wf_children_Forall (P : option Z → option Z → Node V → Prop) (Q : Node V → Prop)
    lo hi ks cs :
  (∀ lo hi c, c ∈ cs → P lo hi c → Q c) → wf_children P lo hi ks cs → Forall Q cs.
Proof.
  intros HPQ. destruct cs as [|c cs]; [done|].
  rewrite wf_children_head. intros (Hc & _ & H). constructor.
  - eapply HPQ; [left|done].
  - eapply wfR_Forall; [|done]. intros ??? Hin. apply HPQ. by right.
Qed.

Lemma wf_body_lengths (n : Node V) :
  ∀ h lo hi, wf_body h lo hi n →
    Forall (fun l => length (lvalues l) = length (lkeys l)) (leaves n).
Proof.
  induction n as [l|ks cs IH] using Node_ind'; intros h lo hi Hn.
  - destruct Hn as (_ & Hlen & _). by constructor.
  - destruct h as [|h]; [done|]. simpl in Hn. simpl.
    apply Forall_flat_map.
    eapply (wf_children_Forall _ (fun c =>
      Forall (fun l => length (lvalues l) = length (lkeys l)) (leaves c))) in Hn.
    + done.
    + intros lo' hi' c Hin [Hb _]. rewrite Forall_forall in IH. by eapply IH.
Qed.

Lemma entries_keys (ls : list (LeafNode V)) :
  Forall (fun l => length (lvalues l) = length (lkeys l)) ls →
  map fst (flat_map leafEntries ls) = leafKeys ls.
Proof.
  induction 1 as [|l ls Hl _ IH]; [done|].
  simpl. rewrite map_app, IH. f_equal.
  unfold leafEntries. apply fst_zip. lia.
Qed.

Lemma wf_body_entries_sorted (n : Node V) h lo hi :
  wf_body h lo hi n → StronglySorted Z.lt (map fst (entriesOf n)).
Proof.
  intros Hn. unfold entriesOf.
  rewrite entries_keys by (by eapply wf_body_lengths).
  by eapply wf_body_sorted.
Qed.

End Sorted.

Lemma entries_sorted {V} (t : BPlusTree V) :
  Inv t → StronglySorted Z.lt (map fst (entries t)).
Proof.
  intros [_ Hr]. unfold entries. destruct (root t) as [r|]; [|constructor].
  destruct Hr as ((h & Hb & _) & _). by eapply wf_body_entries_sorted.
Qed.

(** ** [rangeQuery] *)

Section Range.
Context {V : Type}.
Implicit Types (t : BPlusTree V) (r : Node V) (leaf : LeafNode V) (path : list (Frame V)).

Lemma filter_keyIn_above (s e : Z) (es : list (Z * V)) :
  Forall (fun p => e < p.1) es → List.filter (keyIn s e) es = [].
Proof.
  induction 1 as [|[k v] es Hk _ IH]; [done|]. simpl. unfold keyIn at 1. simpl in *.
  destruct (Z.leb_spec k e); [lia|]. by rewrite andb_false_r.
Qed.

Lemma filter_keyIn_below (s e : Z) (es : list (Z * V)) :
  Forall (fun p => p.1 < s) es → List.filter (keyIn s e) es = [].
Proof.
  induction 1 as [|[k v] es Hk _ IH]; [done|]. simpl. unfold keyIn at 1. simpl in *.
  destruct (Z.leb_spec s k); [lia|]. done.
Qed.

Lemma zip_keys_above (e : Z) (keys : list Z) (values : list V) :
  Forall (fun k => e < k) keys → Forall (fun p => e < p.1) (zip keys values).
Proof.
  intros H. revert values. induction H as [|k keys Hk _ IH]; intros [|v values];
    simpl; try constructor; [done|apply IH].
Qed.

(** The loop over one leaf collects the keys of the leaf that are in the
    range; it returns early only at a key beyond [end]. *)
Lemma rangeQuery_leaf_spec (keys : list Z) (values : list V) (s e : Z) :
  StronglySorted Z.lt keys →
  ∀ res, ∃ b,
    rangeQuery_leaf keys values s e res
    = (res ++ List.filter (keyIn s e) (zip keys values), b) ∧
    (b = true → ∃ k, k ∈ keys ∧ e < k).
Proof.
  intros Hs. revert values.
  induction Hs as [|k keys Hs IH Hall]; intros values res.
  { exists false. simpl. rewrite app_nil_r. by destruct values. }
  destruct values as [|v values].
  { exists false. simpl. by rewrite app_nil_r. }
  change (zip (k :: keys) (v :: values)) with ((k, v) :: zip keys values).
  cbn [List.filter rangeQuery_leaf].
  change (keyIn s e (k, v)) with ((s <=? k) && (k <=? e)).
  destruct ((s <=? k) && (k <=? e)) eqn:Ein.
  - destruct (IH values (res ++ [(k, v)])) as (b & -> & Hb).
    exists b. split; [by rewrite <-app_assoc|].
    intros Eb. destruct (Hb Eb) as (k' & ? & ?). exists k'. split; [by right|done].
  - destruct (Z.ltb_spec e k) as [Hek|Hek].
    + exists true. split.
      * rewrite filter_keyIn_above; [by rewrite app_nil_r|].
        apply zip_keys_above. eapply Forall_impl; [exact Hall|].
        simpl. intros. lia.
      * intros _. exists k. split; [left|done].
    + destruct (IH values res) as (b & -> & Hb).
      exists b. split; [done|].
      intros Eb. destruct (Hb Eb) as (k' & ? & ?). exists k'. split; [by right|done].
Qed.

(** Dereferencing the identity of a leaf of the tree gives that leaf. *)
Lemma find_lid (ls : list (LeafNode V)) (l : LeafNode V) :
  NoDup (map lid ls) → l ∈ ls →
  find (fun x => Nat.eqb (lid x) (lid l)) ls = Some l.
Proof.
  induction ls as [|x ls IH]; simpl; intros Hnd Hin.
  - by apply elem_of_nil in Hin.
  - apply NoDup_cons in Hnd as [Hx Hnd].
    apply elem_of_cons in Hin as [->|Hin].
    + by rewrite Nat.eqb_refl.
    + destruct (Nat.eqb_spec (lid x) (lid l)) as [E|E]; [|by apply IH].
      destruct Hx. rewrite E. by apply (list_elem_of_fmap_2 lid).
Qed.

Lemma entries_above_sorted (l : LeafNode V) (ls : list (LeafNode V)) (k e : Z) :
  StronglySorted Z.lt (leafKeys (l :: ls)) → k ∈ lkeys l → e < k →
  Forall (fun p => e < p.1) (flat_map leafEntries ls).
Proof.
  intros Hs Hk He. change (leafKeys (l :: ls)) with (lkeys l ++ leafKeys ls) in Hs.
  apply StronglySorted_app in Hs as (Hlt & _ & _).
  apply (allKeys_entries (fun x => e < x)).
  apply allKeys_leafKeys. apply Forall_forall. intros x Hx.
  specialize (Hlt _ _ Hk Hx). lia.
Qed.

(** The walk along the chain from a leaf of the tree collects the keys in
    the range of that leaf and of all the leaves after it. *)
Lemma rangeQuery_walk_spec r (s e : Z) (ls : list (LeafNode V)) :
  ∀ pre fuel res,
    leaves r = pre ++ ls → chainOk (leaves r) →
    StronglySorted Z.lt (leafKeys ls) →
    (length ls <= fuel)%nat →
    rangeQuery_walk fuel r (head ls) s e res
    = Some (res ++ List.filter (keyIn s e) (flat_map leafEntries ls)).
Proof.
  induction ls as [|l ls IH]; intros pre fuel res Hlv Hch Hs Hfuel.
  { destruct fuel; simpl; by rewrite app_nil_r. }
  destruct fuel as [|fuel]; [simpl in Hfuel; lia|].
  cbn [head rangeQuery_walk flat_map].
  assert (StronglySorted Z.lt (lkeys l) ∧ StronglySorted Z.lt (leafKeys ls)) as [Hsl Hsr].
  { change (leafKeys (l :: ls)) with (lkeys l ++ leafKeys ls) in Hs.
    apply StronglySorted_app in Hs as (_ & ? & ?). done. }
  destruct (rangeQuery_leaf_spec (lkeys l) (lvalues l) s e Hsl res) as (b & -> & Hb).
  rewrite List.filter_app, app_assoc.
  destruct b.
  - destruct (Hb eq_refl) as (k & Hk & He).
    rewrite (filter_keyIn_above s e (flat_map leafEntries ls)); [by rewrite app_nil_r|].
    by eapply entries_above_sorted.
  - assert (match lnext l with Some id => leafAt r id | None => None end = head ls) as ->.
    { destruct Hch as [Hnd Hseg]. rewrite Hlv in Hseg.
      apply chainSeg_middle in Hseg as (_ & _ & Hnx & _). rewrite Hnx.
      destruct ls as [|l2 ls']; [done|]. simpl. unfold leafAt.
      apply find_lid; [done|]. rewrite Hlv.
      apply elem_of_app. right. right. left. }
    apply (IH (pre ++ [l])); [by rewrite <-app_assoc|done|done|simpl in Hfuel; lia].
Qed.

Theorem rangeQuery_spec t (s e : Z) :
  Inv t → rangeQuery t s e = Some (List.filter (keyIn s e) (entries t)).
Proof.
  intros HInv. pose proof HInv as [_ Hroot]. unfold rangeQuery.
  destruct (root t) as [r|] eqn:Er.
  2:{ unfold entries. by rewrite Er. }
  destruct (findLeaf_root t r s HInv Er) as
    (path & leaf & lo & hi & Hf & Hp & Hl & Hc & Hk & Hreb).
  rewrite Hf. destruct Hroot as ((h & Hb & _) & Hch & _).
  destruct (path_entries_bounds _ _ _ _ _ _ s Hp Hk) as [HbL _].
  pose proof (leaves_rebuild _ _ _ _ _ _ (Leaf leaf) Hp) as Hlv.
  rewrite Hreb in Hlv. cbn [leaves] in Hlv.
  pose proof (wf_body_sorted _ _ r _ _ _ Hb) as Hs.
  rewrite Hlv in Hs. rewrite leafKeys_app in Hs.
  apply StronglySorted_app_1_r in Hs.
  rewrite (rangeQuery_walk_spec r s e ([leaf] ++ pathRight path) (pathLeft path));
    try done.
  - unfold entries. rewrite Er. unfold entriesOf. rewrite Hlv.
    rewrite !flat_map_app, !List.filter_app.
    by rewrite (filter_keyIn_below s e _ HbL).
  - rewrite Hlv, !length_app. lia.
Qed.

End Range.

(** * The validator and the structure of a tree *)

Lemma keysSorted_iff (ks : list Z) :
  keysSorted ks = true ↔ StronglySorted Z.lt ks.
Proof.
  induction ks as [|k1 ks IH]; [by split; [constructor|]|].
  destruct ks as [|k2 ks].
  { split; [repeat constructor|done]. }
  change (keysSorted (k1 :: k2 :: ks)) with ((k1 <? k2) && keysSorted (k2 :: ks)).
  rewrite andb_true_iff, IH, Z.ltb_lt. split.
  - intros [H12 Hs]. constructor; [done|].
    constructor; [done|]. apply StronglySorted_inv in Hs as [_ Hall].
    eapply Forall_impl; [exact Hall|]. simpl. intros. lia.
  - intros Hs. apply StronglySorted_inv in Hs as [Hs Hall].
    apply Forall_cons in Hall as [? _]. done.
Qed.

Section Validate.
Context {V : Type}.
Variables (minK maxK : Z).

Local Abbreviation wf_body := (@wf_body V minK maxK).

Lemma bounds_check (isRoot : bool) (n : Node V) :
  negb isRoot && ((numKeys n <? minK) || (maxK <? numKeys n)) = false ↔
  isRoot = true ∨ bounds minK maxK n.
Proof.
  unfold bounds. destruct isRoot; simpl; [by split; [left|]|].
  destruct (Z.ltb_spec (numKeys n) minK), (Z.ltb_spec maxK (numKeys n)); simpl;
    split; try done; try (intros [?|?]; [done|lia]); intros _; right; lia.
Qed.

Lemma valid_sub_Internal ks (cs : list (Node V)) level d :
  valid_sub minK maxK (Internal ks cs) level d ↔
  StronglySorted Z.lt ks ∧ length cs = S (length ks) ∧
  Forall (fun c : Node V => bounds minK maxK c ∧ valid_sub minK maxK c (level + 1) d) cs.
Proof.
  unfold valid_sub. cbn [subnodes nonRoot leafDepths].
  rewrite !Forall_cons, !Forall_flat_map. cbn [childCount keysOf].
  rewrite !Forall_forall.
  setoid_rewrite Forall_forall. split.
  - intros ((Hs & Hsub) & (Hn & Hcc) & Hb & Hd).
    split; [done|]. split; [done|].
    intros c Hc. split_and!.
    + apply (Hb c Hc). destruct c; left.
    + by apply Hsub.
    + by apply Hcc.
    + intros x Hx. apply (Hb c Hc). destruct c; [by apply elem_of_nil in Hx|].
      right. done.
    + by apply Hd.
  - intros (Hs & Hlen & Hall). split_and!; try done.
    + intros c Hc. by apply Hall.
    + intros c Hc. by apply Hall.
    + intros c Hc x Hx. destruct (Hall c Hc) as (Hbc & _ & _ & Hnr & _).
      destruct c as [l|ks' cs'].
      * apply list_elem_of_singleton in Hx as ->. done.
      * apply elem_of_cons in Hx as [->|Hx]; [done|]. by apply Hnr.
    + intros c Hc. by apply Hall.
Qed.

Lemma leafDepths_ge (n : Node V) :
  ∀ level, Forall (fun x => level <= x) (leafDepths level n).
Proof.
  induction n as [l|ks cs IH] using Node_ind'; intros level; simpl.
  - repeat constructor. lia.
  - apply Forall_flat_map. eapply Forall_impl; [exact IH|].
    intros c Hc. eapply Forall_impl; [apply (Hc (level + 1))|].
    simpl. intros. lia.
Qed.

Lemma leafDepths_nonempty (n : Node V) :
  ∀ level, Forall childCount (subnodes n) → leafDepths level n ≠ [].
Proof.
  induction n as [l|ks cs IH] using Node_ind'; intros level; simpl; [done|].
  rewrite Forall_cons. intros [Hlen Hsub]. simpl in Hlen.
  destruct cs as [|c cs]; [done|]. simpl.
  apply Forall_cons in IH as [IHc _].
  simpl in Hsub. apply Forall_app in Hsub as [Hsub _].
  specialize (IHc (level + 1) Hsub).
  destruct (leafDepths (level + 1) c); done.
Qed.

Lemma valid_sub_depth (n : Node V) level d : valid_sub minK maxK n level d → level <= d.
Proof.
  intros (_ & Hcc & _ & Hd).
  pose proof (leafDepths_ge n level) as Hge.
  pose proof (leafDepths_nonempty n level Hcc) as Hne.
  destruct (leafDepths level n) as [|x xs]; [done|].
  apply Forall_cons in Hd as [-> _]. by apply Forall_cons in Hge as [? _].
Qed.

Lemma keysOf_trim (n : Node V) : keysOf (trim n) = keysOf n.
Proof. by destruct n. Qed.

Lemma bounds_trim (n : Node V) : bounds minK maxK (trim n) ↔ bounds minK maxK n.
Proof. unfold bounds, numKeys. by rewrite keysOf_trim. Qed.

Lemma subnodes_nonRoot (n : Node V) : subnodes n = n :: nonRoot n.
Proof. by destruct n. Qed.

(** Where every internal node has one child more than keys, the
    validator reads the whole tree. *)
Lemma trim_id (n : Node V) : Forall childCount (subnodes n) → trim n = n.
Proof.
  induction n as [l|ks cs IH] using Node_ind'; [done|].
  simpl. rewrite Forall_cons. intros [Hlen Hsub]. simpl in Hlen.
  assert (map trim cs = cs) as ->.
  { clear Hlen. induction cs as [|c cs IHcs]; [done|].
    apply Forall_cons in IH as [IHc IH]. simpl in Hsub.
    apply Forall_app in Hsub as [Hc Hsub]. simpl. by rewrite IHc, IHcs. }
  rewrite <-Hlen. by rewrite firstn_all.
Qed.

(** [validateNode] accepts a subtree exactly when the three properties
    hold of the nodes it reads, and the leaves among them are at the
    depth recorded so far, if any; the depth it records is that of these
    leaves, and the one recorded so far when there is none. *)
Lemma validateNode_iff (n : Node V) :
  ∀ isRoot level ll d,
    0 <= level →
    validateNode minK maxK isRoot n level ll = (true, d) ↔
    (isRoot = true ∨ bounds minK maxK n) ∧
    Forall (fun m => StronglySorted Z.lt (keysOf m)) (subnodes (trim n)) ∧
    Forall (bounds minK maxK) (nonRoot (trim n)) ∧
    Forall (fun x => x = d) (leafDepths level (trim n)) ∧
    (ll = d ∨ (ll = -1 ∧ leafDepths level (trim n) ≠ [])).
Proof.
  induction n as [l|ks cs IH] using Node_ind'; intros isRoot level ll d Hlevel.
  - cbn [validateNode].
    destruct (negb isRoot && _) eqn:Eb.
    { split; [done|]. intros (Hb & _). apply bounds_check in Hb. congruence. }
    apply bounds_check in Eb.
    destruct (keysSorted (keysOf (Leaf l))) eqn:Es; simpl.
    2:{ split; [done|]. intros (_ & Hs & _).
        apply Forall_cons in Hs as [Hs _]. apply keysSorted_iff in Hs.
        simpl in Es, Hs. congruence. }
    apply keysSorted_iff in Es.
    destruct (Z.eqb_spec ll (-1)) as [->|Hll].
    { split.
      - intros [= <-]. split_and!; [done|by repeat constructor|constructor| |].
        + by repeat constructor.
        + right. done.
      - intros (_ & _ & _ & Hd & _). by apply Forall_cons in Hd as [-> _]. }
    destruct (Z.eqb_spec ll level) as [->|Hll2]; simpl.
    + split.
      * intros [= <-]. split_and!; [done|by repeat constructor|constructor| |].
        -- by repeat constructor.
        -- by left.
      * intros (_ & _ & _ & Hd & _). by apply Forall_cons in Hd as [-> _].
    + split; [done|]. intros (_ & _ & _ & Hd & [E|[E _]]); [|done].
      apply Forall_cons in Hd as [-> _]. done.
  - cbn [validateNode].
    destruct (negb isRoot && _) eqn:Eb.
    { split; [done|]. intros (Hb & _). apply bounds_check in Hb. congruence. }
    apply bounds_check in Eb.
    destruct (keysSorted (keysOf (Internal ks cs))) eqn:Es; simpl negb; cbv iota.
    2:{ split; [done|]. intros (_ & Hs & _).
        cbn [trim subnodes] in Hs. apply Forall_cons in Hs as [Hs _].
        apply keysSorted_iff in Hs. simpl in Es, Hs. congruence. }
    apply keysSorted_iff in Es. simpl in Es.
    cbn [trim subnodes nonRoot leafDepths]. rewrite Forall_cons. cbn [keysOf].
    generalize (S (length ks)). intros k.
    match goal with |- ?f cs k ll = _ ↔ _ => set (each := f) end.
    assert (∀ k ll,
              each cs k ll = (true, d) ↔
              Forall (fun m => StronglySorted Z.lt (keysOf m))
                (flat_map subnodes (take k (map trim cs))) ∧
              Forall (bounds minK maxK) (flat_map subnodes (take k (map trim cs))) ∧
              Forall (fun x => x = d)
                (flat_map (leafDepths (level + 1)) (take k (map trim cs))) ∧
              (ll = d ∨
               (ll = -1 ∧ flat_map (leafDepths (level + 1)) (take k (map trim cs)) ≠ [])))
      as Heach.
    { clear Eb k ll. induction cs as [|c cs IHcs]; intros k ll.
      { destruct k; simpl; (split; [intros [= ->]; split_and!; try constructor; done|]);
          intros (_ & _ & _ & [->|[_ ?]]); done. }
      destruct k as [|k].
      { simpl. split; [intros [= ->]; split_and!; try constructor; done|].
        intros (_ & _ & _ & [->|[_ ?]]); done. }
      apply Forall_cons in IH as [IHc IH]. specialize (IHcs IH).
      cbn [each map take flat_map]. fold each.
      assert (Forall (bounds minK maxK) (subnodes (trim c)) ↔
              bounds minK maxK c ∧ Forall (bounds minK maxK) (nonRoot (trim c))) as Hbeq.
      { by rewrite subnodes_nonRoot, Forall_cons, bounds_trim. }
      rewrite !Forall_app, Hbeq.
      pose proof (leafDepths_ge (trim c) (level + 1)) as Hge.
      destruct (validateNode minK maxK false c (level + 1) ll) as [[] ll1] eqn:Ec.
      - apply IHc in Ec as ([?|Hbc] & Hsc & Hnc & Hdc & Hll); [done| |lia].
        rewrite IHcs. split.
        + intros (Hs & Hb & Hd & Hl1). split_and!; try done.
          * destruct Hl1 as [->|[-> Hne]]; [done|].
            destruct (leafDepths (level + 1) (trim c)) as [|x xs]; [done|].
            apply Forall_cons in Hdc as [-> _]. apply Forall_cons in Hge as [? _]. lia.
          * destruct Hl1 as [->|[-> Hne]].
            -- destruct Hll as [->|[-> Hne]]; [by left|]. right. split; [done|].
               intros E. apply app_eq_nil in E as [E _]. done.
            -- assert (leafDepths (level + 1) (trim c) = []) as E.
               { destruct (leafDepths (level + 1) (trim c)) as [|x xs]; [done|].
                 apply Forall_cons in Hdc as [-> _]. apply Forall_cons in Hge as [? _].
                 lia. }
               destruct Hll as [->|[_ ?]]; [|done]. right. split; [done|].
               rewrite E. done.
        + intros ((_ & Hs) & (_ & Hb) & (Hd1 & Hd) & Hl). split_and!; try done.
          destruct (leafDepths (level + 1) (trim c)) as [|x xs] eqn:E.
          * destruct Hll as [->|[_ ?]]; [|done]. simpl in Hl. done.
          * left. apply Forall_cons in Hdc as [-> _]. by apply Forall_cons in Hd1 as [-> _].
      - split; [done|].
        intros ((Hsc & _) & ((Hbc & Hnc) & _) & (Hd1 & _) & Hl).
        assert (∃ d1, validateNode minK maxK false c (level + 1) ll = (true, d1))
          as [d1 E]; [|congruence].
        destruct (leafDepths (level + 1) (trim c)) as [|x xs] eqn:E.
        + exists ll. apply IHc; [lia|]. rewrite E.
          split_and!; [by right|done|done|constructor|by left].
        + exists d. apply IHc; [lia|]. rewrite E.
          split_and!; [by right|done|done|done|].
          destruct Hl as [->|[-> _]]; [by left|]. right. done. }
    rewrite Heach. split.
    + intros (Hs & Hb & Hd & Hl). split_and!; done.
    + intros (_ & (_ & Hs) & Hb & Hd & Hl). split_and!; done.
Qed.

Lemma Checked_valid_sub (r : Node V) :
  Checked minK maxK r ↔ ∃ d, valid_sub minK maxK r 0 d.
Proof.
  split.
  - intros [Hk [d Hd] Hb Hc]. exists d. done.
  - intros (d & Hk & Hc & Hb & Hd). split; [done|by exists d|done|done].
Qed.

(** A well-formed subtree of height [h] has the four properties, with
    its leaves [h] levels down. *)
Lemma wf_body_valid_sub (n : Node V) :
  ∀ h lo hi level, wf_body h lo hi n → valid_sub minK maxK n level (level + Z.of_nat h).
Proof.
  induction n as [l|ks cs IH] using Node_ind'; intros h lo hi level Hn.
  - destruct Hn as (-> & _ & Hs & _). unfold valid_sub. simpl.
    split_and!; repeat constructor; [done|lia].
  - destruct h as [|h]; [done|]. simpl in Hn.
    apply valid_sub_Internal.
    pose proof (wf_children_length _ _ _ _ _ Hn) as Hlen.
    split_and!; [|done|].
    + destruct cs as [|c cs]; [done|].
      apply wf_children_head in Hn as (_ & _ & HR). by eapply wfR_sorted.
    + eapply wf_children_Forall; [|exact Hn].
      intros lo' hi' c Hin [Hb Hc]. split; [done|].
      rewrite Forall_forall in IH.
      replace (level + Z.of_nat (S h)) with (level + 1 + Z.of_nat h) by lia.
      by eapply IH.
Qed.

End Validate.

Section Structure.
Context {V : Type}.
Implicit Types (t : BPlusTree V) (r : Node V).

(** [validate] accepts exactly the trees of which the three properties
    hold, as far as it reads them. *)
Theorem validate_iff t :
  validate t = true ↔
  match root t with
  | None => True
  | Some r => Validated (minKeys t) (maxKeys t) r
  end.
Proof.
  unfold validate. destruct (root t) as [r|]; [|done].
  destruct (validateNode (minKeys t) (maxKeys t) true r 0 (-1)) as [b d] eqn:E.
  simpl. split.
  - intros ->. apply validateNode_iff in E as (_ & Hs & Hb & Hd & _); [|done].
    split; [done|by exists d|done].
  - intros [Hs [d' Hd'] Hb].
    assert (∃ d1, validateNode (minKeys t) (maxKeys t) true r 0 (-1) = (true, d1))
      as [d1 E']; [|congruence].
    destruct (leafDepths 0 (trim r)) as [|x xs] eqn:Ed.
    + exists (-1). apply validateNode_iff; [done|]. rewrite Ed.
      split_and!; [by left|done|done|constructor|by left].
    + exists d'. apply validateNode_iff; [done|]. rewrite Ed.
      split_and!; [by left|done|done|done|]. right. done.
Qed.

(** The four properties of the nodes of a tree are more than the
    validator asks for. *)
Lemma Checked_Validated minK maxK r : Checked minK maxK r → Validated minK maxK r.
Proof.
  intros [Hk Hl Hb Hc]. rewrite <-(trim_id r Hc) in Hk, Hl, Hb. by split.
Qed.

Lemma Inv_Structure t r :
  Inv t → root t = Some r → Structure (minKeys t) (maxKeys t) r.
Proof.
  intros [_ Hr] Er. rewrite Er in Hr. destruct Hr as ((h & Hb & Hc) & _).
  split; [|lia]. apply Checked_valid_sub. exists (0 + Z.of_nat h).
  by eapply wf_body_valid_sub.
Qed.

Theorem Inv_validate t : Inv t → validate t = true.
Proof.
  intros HInv. apply validate_iff. destruct (root t) as [r|] eqn:Er; [|done].
  apply Checked_Validated. by apply Inv_Structure.
Qed.

Lemma wf_body_entries_nonempty minK maxK (n : Node V) :
  1 <= minK →
  ∀ h lo hi, wf_body minK maxK h lo hi n → 1 <= numKeys n → entriesOf n ≠ [].
Proof.
  intros HminK. induction n as [l|ks cs IH] using Node_ind'; intros h lo hi Hn Hc.
  - rewrite entriesOf_Leaf. destruct Hn as (_ & Hlen & _).
    unfold leafEntries, numKeys in *. simpl in Hc.
    destruct (lkeys l), (lvalues l); simpl in *; try done; lia.
  - destruct h as [|h]; [done|]. simpl in Hn.
    destruct cs as [|c cs]; [done|].
    apply wf_children_head in Hn as ([Hb Hcc] & _).
    apply Forall_cons in IH as [IHc _].
    unfold entriesOf. simpl. rewrite flat_map_app.
    intros He. apply app_eq_nil in He as [He _].
    apply (IHc _ _ _ Hb); [unfold countOk in Hcc; lia|done].
Qed.

(** The root is absent exactly when nothing is stored. *)
Lemma Inv_empty t : Inv t → (root t = None ↔ entries t = []).
Proof.
  intros [[HminK _] Hr]. unfold entries. destruct (root t) as [r|]; [|done].
  split; [done|]. intros He. exfalso.
  destruct Hr as ((h & Hb & Hc) & _).
  eapply wf_body_entries_nonempty; [done|exact Hb|lia|done].
Qed.

End Structure.

(** ** The chain visits the leaves in order *)

Section ChainWalk.
Context {V : Type}.
Implicit Types (t : BPlusTree V) (r : Node V).

Lemma leftmost_head minK maxK (n : Node V) :
  ∀ h lo hi, wf_body minK maxK h lo hi n → leftmost n = head (leaves n) ∧ leaves n ≠ [].
Proof.
  induction n as [l|ks cs IH] using Node_ind'; intros h lo hi Hn; [done|].
  destruct h as [|h]; [done|]. simpl in Hn.
  destruct cs as [|c cs]; [done|].
  apply wf_children_head in Hn as ([Hb _] & _).
  apply Forall_cons in IH as [IHc _].
  destruct (IHc _ _ _ Hb) as [E Hne]. simpl. rewrite E.
  destruct (leaves c); done.
Qed.

Lemma chainWalk_spec r (ls : list (LeafNode V)) :
  ∀ pre fuel,
    leaves r = pre ++ ls → chainOk (leaves r) → (length ls <= fuel)%nat →
    chainWalk fuel r (headId ls None) = ls.
Proof.
  induction ls as [|l ls IH]; intros pre fuel Hlv Hch Hfuel.
  { by destruct fuel. }
  destruct fuel as [|fuel]; [simpl in Hfuel; lia|].
  cbn [headId chainWalk]. unfold leafAt.
  destruct Hch as [Hnd Hseg].
  rewrite find_lid; [|done|].
  2:{ rewrite Hlv. apply elem_of_app. right. left. }
  f_equal. pose proof Hseg as Hseg'. rewrite Hlv in Hseg'.
  apply chainSeg_middle in Hseg' as (_ & _ & -> & _).
  apply (IH (pre ++ [l])); [by rewrite <-app_assoc|done|simpl in Hfuel; lia].
Qed.

(** Walking [next] from the leftmost leaf visits every leaf of the tree,
    each once, in the order of the tree. *)
Lemma Inv_chainOf t r : Inv t → root t = Some r → chainOf r = leaves r.
Proof.
  intros [_ Hr] Er. rewrite Er in Hr. destruct Hr as ((h & Hb & _) & Hch & _).
  unfold chainOf. destruct (leftmost_head _ _ _ _ _ _ Hb) as [-> Hne].
  replace (option_map lid (head (leaves r))) with (headId (leaves r) None)
    by (by destruct (leaves r)).
  by apply (chainWalk_spec r (leaves r) []).
Qed.

(** However long the walk may go on, it stops at the last leaf. *)
Lemma Inv_chainWalk t r (fuel : nat) :
  Inv t → root t = Some r → (length (leaves r) <= fuel)%nat →
  chainWalk fuel r (option_map lid (leftmost r)) = leaves r.
Proof.
  intros [_ Hr] Er Hfuel. rewrite Er in Hr. destruct Hr as ((h & Hb & _) & Hch & _).
  destruct (leftmost_head _ _ _ _ _ _ Hb) as [-> Hne].
  replace (option_map lid (head (leaves r))) with (headId (leaves r) None)
    by (by destruct (leaves r)).
  by apply (chainWalk_spec r (leaves r) []).
Qed.

Lemma chainSeg_adjacent (ls : list (LeafNode V)) :
  ∀ prev nx, chainSeg prev ls nx →
    (∀ (i : nat) a b, ls !! i = Some a → ls !! S i = Some b →
       lnext a = Some (lid b) ∧ lprev b = Some (lid a)) ∧
    (∀ a, head ls = Some a → lprev a = prev) ∧
    (∀ b, last ls = Some b → lnext b = nx).
Proof.
  induction ls as [|l ls IH]; intros prev nx Hc; [by split_and!|].
  destruct Hc as (Hp & Hn & Hc). destruct (IH _ _ Hc) as (IH1 & IH2 & IH3).
  split_and!.
  - intros [|i] a b Ha Hb; simpl in Ha, Hb.
    + injection Ha as <-. destruct ls as [|l' ls]; [done|].
      injection Hb as <-. split; [done|]. by apply IH2.
    + by eapply IH1.
  - intros a [= <-]. done.
  - intros b Hb. destruct ls as [|l' ls].
    + injection Hb as <-. done.
    + apply IH3. by rewrite last_cons_cons in Hb.
Qed.

End ChainWalk.

(** * Bulk loading *)

(** ** Sorting and deduplicating is upserting in input order *)

Section SortDedup.
Context {V : Type}.
Implicit Types (p q : Z * V) (es : list (Z * V)).

Lemma dedupLast_cons2 p q es :
  dedupLast (p :: q :: es)
  = if p.1 =? q.1 then dedupLast (q :: es) else p :: dedupLast (q :: es).
Proof. done. Qed.

Lemma dedupLast_head p es : ∃ v rest, dedupLast (p :: es) = (p.1, v) :: rest.
Proof.
  revert p. induction es as [|q es IH]; intros p.
  - exists p.2, []. by destruct p.
  - rewrite dedupLast_cons2. destruct (Z.eqb_spec p.1 q.1) as [E|E].
    + rewrite E. apply IH.
    + exists p.2, (dedupLast (q :: es)). by destruct p.
Qed.

Lemma upsert_head_gt (k : Z) (v : V) q es :
  k < q.1 → upsert k v (q :: es) = (k, v) :: q :: es.
Proof.
  intros Hk. destruct q as [k' v']. simpl in *.
  destruct (Z.ltb_spec k' k); [lia|]. destruct (Z.eqb_spec k' k); [lia|done].
Qed.

Lemma upsert_head_lt (k : Z) (v : V) q es :
  q.1 < k → upsert k v (q :: es) = q :: upsert k v es.
Proof.
  intros Hk. destruct q as [k' v']. simpl in *.
  destruct (Z.ltb_spec k' k); [done|lia].
Qed.

Lemma upsert_head_eq (k : Z) (v : V) q es :
  q.1 = k → upsert k v (q :: es) = (k, v) :: es.
Proof.
  intros Hk. destruct q as [k' v']. simpl in *.
  destruct (Z.ltb_spec k' k); [lia|]. destruct (Z.eqb_spec k' k); [done|lia].
Qed.

Lemma insertByKey_sorted p es :
  StronglySorted Z.le (map fst es) → StronglySorted Z.le (map fst (insertByKey p es)).
Proof.
  induction es as [|q es IH]; simpl; intros Hs.
  - repeat constructor.
  - apply StronglySorted_inv in Hs as [Hs Hall].
    destruct (Z.leb_spec q.1 p.1).
    + simpl. constructor; [by apply IH|].
      clear IH Hs. induction es as [|q' es IH]; simpl.
      * by repeat constructor.
      * apply Forall_cons in Hall as [? ?].
        destruct (Z.leb_spec q'.1 p.1); simpl.
        -- constructor; [done|by apply IH].
        -- repeat (constructor; [done|]). done.
    + simpl. constructor; [by constructor|]. constructor; [lia|].
      eapply Forall_impl; [exact Hall|]. simpl. intros. lia.
Qed.

(** One more entry: placed by the sort after the entries of its key, it
    is the one the deduplication keeps. *)
Lemma dedupLast_insertByKey p es :
  StronglySorted Z.le (map fst es) →
  dedupLast (insertByKey p es) = upsert p.1 p.2 (dedupLast es).
Proof.
  induction es as [|q es IH]; intros Hs.
  { by destruct p. }
  apply StronglySorted_inv in Hs as [Hs Hall]. specialize (IH Hs).
  cbn [insertByKey]. destruct (Z.leb_spec q.1 p.1) as [Hqp|Hqp].
  - destruct es as [|q' es].
    + cbn [insertByKey]. rewrite dedupLast_cons2. simpl dedupLast.
      destruct (Z.eqb_spec q.1 p.1) as [E|E].
      * by rewrite upsert_head_eq.
      * rewrite upsert_head_lt by lia. by destruct p.
    + apply Forall_cons in Hall as [Hqq' _]. simpl in Hqq'.
      rewrite (dedupLast_cons2 q q').
      cbn [insertByKey] in *. destruct (Z.leb_spec q'.1 p.1) as [Hq'p|Hq'p].
      * rewrite dedupLast_cons2, IH.
        destruct (Z.eqb_spec q.1 q'.1) as [E|E]; [done|].
        rewrite upsert_head_lt by lia. done.
      * rewrite dedupLast_cons2.
        destruct (Z.eqb_spec q.1 q'.1) as [E|E]; [lia|].
        destruct (Z.eqb_spec q.1 p.1) as [E'|E'].
        -- rewrite upsert_head_eq by done.
           rewrite dedupLast_cons2. destruct (Z.eqb_spec p.1 q'.1); [lia|].
           by destruct p.
        -- rewrite upsert_head_lt by lia. by rewrite IH.
  - rewrite dedupLast_cons2. destruct (Z.eqb_spec p.1 q.1); [lia|].
    destruct (dedupLast_head q es) as (v & rest & ->).
    rewrite upsert_head_gt by (simpl; lia). by destruct p.
Qed.

Lemma dedupLast_foldl (data acc : list (Z * V)) :
  StronglySorted Z.le (map fst acc) →
  dedupLast (foldl (fun acc p => insertByKey p acc) acc data)
  = foldl (fun acc p => upsert p.1 p.2 acc) (dedupLast acc) data.
Proof.
  revert acc. induction data as [|p data IH]; intros acc Hs; [done|].
  simpl. rewrite IH by (by apply insertByKey_sorted).
  by rewrite dedupLast_insertByKey.
Qed.

Theorem dedupLast_sortByKey (data : list (Z * V)) :
  dedupLast (sortByKey data) = upsertAll data.
Proof. apply (dedupLast_foldl data []). constructor. Qed.

Lemma upsertAll_sorted (data : list (Z * V)) :
  StronglySorted Z.lt (map fst (upsertAll data)).
Proof.
  unfold upsertAll.
  assert (∀ acc : list (Z * V), StronglySorted Z.lt (map fst acc) →
            StronglySorted Z.lt
              (map fst (foldl (fun acc p => upsert p.1 p.2 acc) acc data))) as H.
  { induction data as [|p data IH]; intros acc Hs; [done|].
    simpl. apply IH. by apply upsert_sorted. }
  apply H. constructor.
Qed.

Lemma upsertAll_snoc (data : list (Z * V)) p :
  upsertAll (data ++ [p]) = upsert p.1 p.2 (upsertAll data).
Proof. unfold upsertAll. by rewrite foldl_app. Qed.

End SortDedup.

(** ** Grouping *)

Section Chunks.
Context {A : Type}.
Implicit Types (l : list A).

Lemma chunks_concat fuel lo hi l : concat (chunks fuel lo hi l) = l.
Proof.
  revert l. induction fuel as [|fuel IH]; intros l; simpl.
  - by rewrite app_nil_r.
  - destruct (length l <=? hi)%nat; [simpl; by rewrite app_nil_r|].
    destruct (lo + hi <=? length l)%nat; simpl.
    + by rewrite IH, take_drop.
    + by rewrite app_nil_r, take_drop.
Qed.

Lemma chunks_small fuel lo hi l :
  (length l <= hi)%nat → chunks fuel lo hi l = [l].
Proof.
  intros Hl. destruct fuel; simpl; [done|].
  destruct (Nat.leb_spec (length l) hi); [done|lia].
Qed.

(** With [lo <= hi + 1 - lo], every group of a list of more than [hi]
    members has between [lo] and [hi] members, and there are at least
    two groups. *)
Lemma chunks_sizes fuel lo hi l :
  (1 <= lo)%nat → (2 * lo <= hi + 1)%nat →
  (length l <= fuel)%nat → (lo <= length l)%nat →
  Forall (fun c => (lo <= length c <= hi)%nat) (chunks fuel lo hi l) ∨
  ((length l <= hi)%nat ∧ chunks fuel lo hi l = [l]).
Proof.
  intros Hlo Hhi. revert l. induction fuel as [|fuel IH]; intros l Hf Hl.
  { lia. }
  simpl. destruct (Nat.leb_spec (length l) hi) as [Hs|Hs]; [by right|].
  left. destruct (Nat.leb_spec (lo + hi) (length l)) as [Hb|Hb].
  - constructor; [rewrite length_take; lia|].
    destruct (IH (drop hi l)) as [H|[Hd ->]].
    + rewrite length_drop. lia.
    + rewrite length_drop. lia.
    + done.
    + constructor; [|done]. rewrite length_drop in *. lia.
  - constructor; [rewrite length_take; lia|].
    constructor; [rewrite length_drop; lia|done].
Qed.

Lemma chunks_many fuel lo hi l :
  (1 <= hi)%nat → (length l <= fuel)%nat → (hi < length l)%nat →
  (2 <= length (chunks fuel lo hi l))%nat.
Proof.
  intros Hhi Hf Hl. destruct fuel as [|fuel]; [lia|]. simpl.
  destruct (Nat.leb_spec (length l) hi); [lia|].
  destruct (Nat.leb_spec (lo + hi) (length l)); simpl; [|lia].
  destruct fuel; simpl; [lia|].
  destruct (length (drop hi l) <=? hi)%nat; simpl; [lia|].
  destruct (lo + hi <=? length (drop hi l))%nat; simpl; lia.
Qed.

Lemma concat_length_lt (cs : list (list A)) :
  Forall (fun c => (2 <= length c)%nat) cs → cs ≠ [] →
  (length cs < length (concat cs))%nat.
Proof.
  induction 1 as [|c cs Hc Hcs IH]; [done|]. intros _.
  simpl. rewrite length_app. destruct cs as [|c' cs]; [simpl; lia|].
  specialize (IH ltac:(done)). simpl in *. lia.
Qed.

End Chunks.

(** ** The leaves *)

Section Leaves.
Context {V : Type}.
Variables (minK maxK : Z).
Implicit Types (groups : list (list (Z * V))) (ls : list (LeafNode V)).

Lemma linkLeaves_length id prev groups :
  length (linkLeaves id prev groups) = length groups.
Proof.
  revert id prev. induction groups as [|es groups IH]; intros id prev; simpl; [done|].
  by rewrite IH.
Qed.

Lemma linkLeaves_entries id prev groups :
  flat_map leafEntries (linkLeaves id prev groups) = concat groups.
Proof.
  revert id prev. induction groups as [|es groups IH]; intros id prev; simpl; [done|].
  rewrite IH. f_equal. unfold leafEntries. simpl. apply zip_fst_snd.
Qed.

Lemma linkLeaves_keys id prev groups :
  leafKeys (linkLeaves id prev groups) = map fst (concat groups).
Proof.
  revert id prev. induction groups as [|es groups IH]; intros id prev; [done|].
  simpl. rewrite map_app. f_equal. apply IH.
Qed.

Lemma linkLeaves_ids id prev groups :
  map lid (linkLeaves id prev groups) = seq id (length groups).
Proof.
  revert id prev. induction groups as [|es groups IH]; intros id prev; simpl; [done|].
  by rewrite IH.
Qed.

Lemma linkLeaves_chain id prev groups :
  chainSeg prev (linkLeaves id prev groups) None.
Proof.
  revert id prev. induction groups as [|es groups IH]; intros id prev; [done|].
  cbn [linkLeaves chainSeg]. split_and!; [done| |apply IH].
  simpl. by destruct groups.
Qed.

Lemma linkLeaves_chainOk id groups : chainOk (linkLeaves id None groups).
Proof.
  split; [|apply linkLeaves_chain]. rewrite linkLeaves_ids. apply NoDup_seq.
Qed.

Lemma linkLeaves_fresh id groups :
  Forall (fun l => (lid l < id + length (linkLeaves id None groups))%nat)
    (linkLeaves id None groups).
Proof.
  rewrite linkLeaves_length.
  apply Forall_forall. intros l Hl.
  apply (list_elem_of_fmap_2 lid) in Hl. rewrite linkLeaves_ids in Hl.
  apply elem_of_seq in Hl. lia.
Qed.

Lemma linkLeaves_packed id prev groups :
  Forall (fun g : list (Z * V) =>
            1 <= Z.of_nat (length g) ∧ minK <= Z.of_nat (length g) <= maxK) groups →
  Forall (packed minK maxK) (linkLeaves id prev groups).
Proof.
  intros H. revert id prev. induction H as [|es groups Hes _ IH]; intros id prev.
  - constructor.
  - constructor; [|apply IH]. unfold packed. simpl. rewrite !length_map. lia.
Qed.

End Leaves.

(** ** The levels *)

Section Levels.
Context {V : Type}.
Variables (minK maxK : Z).
Hypothesis Hparams : paramsOk minK maxK.

Local Abbreviation wf_node := (@wf_node V minK maxK).
Local Abbreviation wf_body := (@wf_body V minK maxK).

Lemma leafItems_snd (ls : list (LeafNode V)) :
  map snd (map leafItem ls) = map Leaf ls.
Proof. induction ls; simpl; congruence. Qed.

Lemma leafItems_leaves (ls : list (LeafNode V)) :
  flat_map leaves (map snd (map leafItem ls)) = ls.
Proof. induction ls; simpl; congruence. Qed.

(** The packed leaves, separated by the first key of each but the first,
    are well-formed children. *)
Lemma leaves_wf (ls : list (LeafNode V)) :
  ∀ lo, ls ≠ [] → Forall (packed minK maxK) ls →
    StronglySorted Z.lt (leafKeys ls) → Forall (ble lo) (leafKeys ls) →
    wf_children (wf_node O) lo None
      (map fst (tail (map leafItem ls))) (map snd (map leafItem ls)).
Proof.
  induction ls as [|l ls IH]; intros lo Hne Hp Hs Hlo; [done|].
  apply Forall_cons in Hp as [(Hlen & Hl1 & Hcnt) Hp].
  change (leafKeys (l :: ls)) with (lkeys l ++ leafKeys ls) in Hs, Hlo.
  apply StronglySorted_app in Hs as (Hlt & Hsl & Hsr).
  apply Forall_app in Hlo as [Hlol Hlor].
  destruct ls as [|l' ls].
  - simpl. split_and!; [done| |by destruct lo]. split; [|done].
    split; [done|]. split_and!; [done|done|].
    eapply Forall_impl; [exact Hlol|]. intros k Hk. by split.
  - pose proof Hp as Hp'. apply Forall_cons in Hp' as [(_ & Hl1' & _) _].
    destruct (lkeys l') as [|k' ks'] eqn:Ek'; [simpl in Hl1'; lia|].
    assert (Forall (fun k => k < k') (lkeys l)) as Hbelow.
    { apply Forall_forall. intros k Hk. apply (Hlt k k' Hk).
      change (leafKeys (l' :: ls)) with (lkeys l' ++ leafKeys ls).
      rewrite Ek'. left. }
    cbn [map tail fst snd leafItem]. rewrite Ek'. cbn [wf_children fst].
    split_and!.
    + split; [|done]. split; [done|]. split_and!; [done|done|].
      apply Forall_forall. intros k Hk. rewrite Forall_forall in Hlol, Hbelow.
      split; [by apply Hlol|by apply Hbelow].
    + destruct (lkeys l) as [|k0 ks0]; [simpl in Hl1; lia|].
      apply Forall_cons in Hlol as [Hk0 _]. apply Forall_cons in Hbelow as [Hk0' _].
      destruct lo; simpl in *; [lia|done].
    + specialize (IH (Some k') ltac:(done) Hp Hsr).
      cbn [map tail fst snd leafItem] in IH. apply IH.
      change (leafKeys (l' :: ls)) with (lkeys l' ++ leafKeys ls) in *.
      rewrite Ek' in *. simpl in Hsr |- *.
      apply StronglySorted_inv in Hsr as [_ Hall].
      constructor; [simpl; lia|].
      eapply Forall_impl; [exact Hall|]. simpl. intros. lia.
Qed.

Lemma mkParents_snd_leaves (gs : list (list (Z * Node V))) :
  flat_map leaves (map snd (map mkParent gs))
  = flat_map leaves (map snd (concat gs)).
Proof.
  induction gs as [|g gs IH]; [done|].
  cbn [map concat flat_map mkParent snd]. rewrite map_app, flat_map_app, <-IH.
  cbn [leaves]. done.
Qed.

(** One level up: the parents of the groups of well-formed children
    are well-formed children themselves. *)
Lemma level_wf (h : nat) (gs : list (list (Z * Node V))) :
  ∀ lo hi, gs ≠ [] →
    Forall (fun g => minK + 1 <= Z.of_nat (length g) <= maxK + 1) gs →
    wf_children (wf_node h) lo hi
      (map fst (tail (concat gs))) (map snd (concat gs)) →
    wf_children (wf_node (S h)) lo hi
      (map fst (tail (map mkParent gs))) (map snd (map mkParent gs)).
Proof.
  destruct Hparams as [HminK _].
  induction gs as [|g gs IH]; intros lo hi Hne Hsz Hwf; [done|].
  apply Forall_cons in Hsz as [Hg Hsz].
  destruct gs as [|g' gs].
  - cbn [concat] in Hwf. rewrite app_nil_r in Hwf.
    cbn [map tail mkParent snd wf_children].
    split_and!; [done| |by eapply wf_children_blt].
    split; [exact Hwf|].
    unfold countOk, numKeys. cbn [keysOf]. rewrite length_map.
    destruct g; simpl in *; lia.
  - pose proof Hsz as Hsz'. apply Forall_cons in Hsz' as [Hg' _].
    destruct g' as [|[k' c'] g']; [simpl in Hg'; lia|].
    destruct g as [|i0 g]; [simpl in Hg; lia|].
    specialize (IH (Some k') hi ltac:(done) Hsz).
    assert (map fst (tail (concat ((i0 :: g) :: ((k', c') :: g') :: gs)))
            = map fst g ++ k' :: map fst (tail (concat (((k', c') :: g') :: gs)))) as E1.
    { simpl. by rewrite map_app. }
    assert (map snd (concat ((i0 :: g) :: ((k', c') :: g') :: gs))
            = map snd (i0 :: g) ++ map snd (concat (((k', c') :: g') :: gs))) as E2.
    { simpl. by rewrite map_app. }
    rewrite E1, E2 in Hwf.
    apply wf_children_split in Hwf as [Hl Hr]; [|simpl; by rewrite !length_map].
    cbn [map tail mkParent fst snd wf_children].
    split_and!.
    + split; [exact Hl|].
      unfold countOk, numKeys. cbn [keysOf]. rewrite length_map. simpl in Hg. lia.
    + by eapply wf_children_blt.
    + apply IH. exact Hr.
Qed.

(** Building the levels ends with a well-formed root over the same leaves. *)
Lemma buildLevels_spec (fuel : nat) :
  ∀ (h : nat) (level : list (Z * Node V)),
    (length level <= S fuel)%nat → (2 <= length level)%nat →
    wf_children (wf_node h) None None (map fst (tail level)) (map snd level) →
    ∃ r, buildLevels fuel minK maxK level = Some r ∧
         wf_root minK maxK r ∧
         leaves r = flat_map leaves (map snd level).
Proof.
  pose proof Hparams as [HminK HmaxK].
  induction fuel as [|fuel IH]; intros h level Hfuel Hlen Hwf.
  { lia. }
  destruct level as [|[k0 c0] [|i1 level]]; [simpl in Hlen; lia..|].
  cbn [buildLevels].
  remember ((k0, c0) :: i1 :: level) as items eqn:Hitems.
  destruct (Nat.leb_spec (length items) (Z.to_nat (maxK + 1))) as [Hs|Hs].
  - rewrite chunks_small by done. cbn [map].
    exists (Internal (map fst (tail items)) (map snd items)).
    split; [by destruct fuel|]. split.
    + exists (S h). split; [exact Hwf|].
      unfold numKeys. cbn [keysOf]. rewrite length_map.
      rewrite Hitems in Hs |- *. simpl in *. lia.
    + done.
  - set (gs := chunks (length items) (Z.to_nat (minK + 1)) (Z.to_nat (maxK + 1)) items).
    assert (concat gs = items) as Hcat by apply chunks_concat.
    assert (Forall (fun c : list (Z * Node V) =>
                      (Z.to_nat (minK + 1) <= length c <= Z.to_nat (maxK + 1))%nat) gs)
      as Hsz.
    { destruct (chunks_sizes (length items) (Z.to_nat (minK + 1)) (Z.to_nat (maxK + 1))
                  items) as [H|[H _]]; [lia|lia|lia|lia|done|lia]. }
    assert (2 <= length gs)%nat as Hmany.
    { apply chunks_many; lia. }
    clearbody gs.
    assert (gs ≠ []) as Hgs by (intros ->; simpl in Hmany; lia).
    assert (length gs < length items)%nat as Hless.
    { rewrite <-Hcat. apply concat_length_lt; [|done].
      eapply Forall_impl; [exact Hsz|]. simpl. intros. lia. }
    destruct (IH (S h) (map mkParent gs)) as (r & Hr & Hroot & Hlv).
    + rewrite length_map. lia.
    + rewrite length_map. lia.
    + apply level_wf; [done| |by rewrite Hcat].
      eapply Forall_impl; [exact Hsz|]. simpl. intros. lia.
    + exists r. split; [done|]. split; [done|].
      by rewrite Hlv, mkParents_snd_leaves, Hcat.
Qed.

End Levels.

(** ** [bulkLoad] establishes the invariant and stores the upserts *)

Section BulkLoadMain.
Context {V : Type}.
Implicit Types (t : BPlusTree V) (data : list (Z * V)).

Theorem bulkLoad_spec t data :
  paramsOk (minKeys t) (maxKeys t) →
  Inv (bulkLoad t data) ∧ entries (bulkLoad t data) = upsertAll data.
Proof.
  intros Hpar. pose proof Hpar as [HminK HmaxK].
  unfold bulkLoad. rewrite dedupLast_sortByKey.
  pose proof (upsertAll_sorted data) as Hs.
  destruct (upsertAll data) as [|e es'] eqn:Ees.
  { split; [by split|done]. }
  remember (e :: es') as es eqn:Hes.
  assert (1 <= length es)%nat as Hlen1 by (rewrite Hes; simpl; lia).
  clear Hes.
  set (lo := Z.to_nat (minKeys t)). set (hi := Z.to_nat (maxKeys t)).
  pose proof (chunks_concat (length es) lo hi es) as Hcat.
  destruct (Nat.leb_spec (length es) hi) as [Hsmall|Hbig].
  - rewrite chunks_small by done. cbn [linkLeaves length map buildLevels leafItem].
    split.
    + split; [done|]. cbn [root nextLeaf minKeys maxKeys]. split_and!.
      * exists O. split.
        -- split; [done|]. split_and!; simpl.
           ++ by rewrite !length_map.
           ++ done.
           ++ apply Forall_forall. intros k _. by split.
        -- unfold numKeys. simpl. rewrite length_map. lia.
      * split; [|done]. simpl. apply NoDup_singleton.
      * repeat constructor. simpl. lia.
    + unfold entries. cbn [root]. rewrite entriesOf_Leaf.
      unfold leafEntries. simpl. apply zip_fst_snd.
  - set (groups := chunks (length es) lo hi es) in *.
    assert (Forall (fun g : list (Z * V) => (lo <= length g <= hi)%nat) groups) as Hsz.
    { destruct (chunks_sizes (length es) lo hi es) as [H|[H _]];
        [lia|lia|lia|lia|done|lia]. }
    assert (2 <= length groups)%nat as Hmany.
    { apply chunks_many; lia. }
    clearbody groups.
    set (ls := linkLeaves (nextLeaf t) None groups).
    assert (length ls = length groups) as Hlen by apply linkLeaves_length.
    destruct (buildLevels_spec (minKeys t) (maxKeys t) Hpar (length ls) O
                (map leafItem ls)) as (r & -> & Hroot & Hlv).
    + rewrite length_map. lia.
    + rewrite length_map. lia.
    + apply leaves_wf.
      * intros E. rewrite E in Hlen. simpl in Hlen. lia.
      * apply linkLeaves_packed. eapply Forall_impl; [exact Hsz|].
        simpl. intros. lia.
      * unfold ls. by rewrite linkLeaves_keys, Hcat.
      * apply Forall_forall. by intros.
    + rewrite leafItems_leaves in Hlv. split.
      * split; [done|]. cbn [root nextLeaf minKeys maxKeys]. rewrite Hlv.
        split_and!; [done|apply linkLeaves_chainOk|apply linkLeaves_fresh].
      * unfold entries. cbn [root]. unfold entriesOf. rewrite Hlv.
        unfold ls. by rewrite linkLeaves_entries.
Qed.

End BulkLoadMain.

(** ** Every reachable tree satisfies the invariant *)

Section Reachable.
Context {V : Type}.
Implicit Types (t : BPlusTree V).

Lemma wrap_id (x : Z) : INT_MIN <= x <= INT_MAX → wrap x = x.
Proof. unfold wrap, INT_MIN, INT_MAX. intros Hx. rewrite Z.mod_small; lia. Qed.

Lemma BPlusTree_new_fields (MIN_ORDER ord : Z) :
  3 <= MIN_ORDER < INT_MAX → ord < INT_MAX →
  let order := Z.max MIN_ORDER ord in
  BPlusTree_new (V:=V) MIN_ORDER ord
  = mkTree None order (order - 1) ((order + 1) / 2 - 1) O.
Proof.
  intros HM Ho order. unfold BPlusTree_new.
  assert ((if ord <? MIN_ORDER then MIN_ORDER else ord) = order) as ->.
  { unfold order. destruct (Z.ltb_spec ord MIN_ORDER); lia. }
  assert (3 <= order < INT_MAX) as Hord by (unfold order; lia).
  unfold INT_MAX in *.
  rewrite (wrap_id (order - 1)) by (unfold INT_MIN, INT_MAX; lia).
  rewrite (wrap_id (order + 1)) by (unfold INT_MIN, INT_MAX; lia).
  rewrite Z.quot_div_nonneg by lia.
  rewrite wrap_id; [done|]. unfold INT_MIN, INT_MAX. lia.
Qed.

Lemma paramsOk_new (MIN_ORDER ord : Z) :
  3 <= MIN_ORDER < INT_MAX → ord < INT_MAX →
  paramsOk (minKeys (BPlusTree_new (V:=V) MIN_ORDER ord))
           (maxKeys (BPlusTree_new (V:=V) MIN_ORDER ord)).
Proof.
  intros HM Ho. rewrite BPlusTree_new_fields by done. unfold paramsOk. simpl. lia.
Qed.

Lemma Inv_new (MIN_ORDER ord : Z) :
  3 <= MIN_ORDER < INT_MAX → ord < INT_MAX →
  Inv (BPlusTree_new (V:=V) MIN_ORDER ord).
Proof. intros HM Ho. split; [by apply paramsOk_new|done]. Qed.

Lemma reachable_Inv (MIN_ORDER : Z) t :
  3 <= MIN_ORDER < INT_MAX → reachable MIN_ORDER t → Inv t.
Proof.
  intros HM. induction 1 as [ord Ho|t key value _ IH|t key _ IH|t data _ IH].
  - by apply Inv_new.
  - by apply insert_spec.
  - by apply remove_spec.
  - apply bulkLoad_spec. apply IH.
Qed.

Lemma insertAll_spec t (data : list (Z * V)) :
  Inv t →
  Inv (insertAll t data) ∧
  entries (insertAll t data)
  = foldl (fun acc p => upsert p.1 p.2 acc) (entries t) data.
Proof.
  unfold insertAll. revert t. induction data as [|p data IH]; intros t HInv; [done|].
  simpl. destruct (insert_spec t p.1 p.2 HInv) as [HI He].
  destruct (IH _ HI) as [HI' He']. split; [done|]. by rewrite He', He.
Qed.

End Reachable.

(** * The properties of the specification *)

(** ** The invariant gives the invariants of the data model *)

Section InvInvariants.
Context {V : Type}.
Implicit Types (t : BPlusTree V).

Lemma sorted_NoDup (l : list Z) : StronglySorted Z.lt l → NoDup l.
Proof.
  induction 1 as [|x l Hs IH Hall]; constructor; [|done].
  intros Hin. rewrite Forall_forall in Hall. specialize (Hall _ Hin). lia.
Qed.

Lemma Inv_Invariants t : Inv t → Invariants t.
Proof.
  intros HInv.
  assert (chainEntries t = entries t) as Hce.
  { unfold chainEntries, entries. destruct (root t) as [r|] eqn:Er; [|done].
    by rewrite (Inv_chainOf t r HInv Er). }
  assert (∀ r, root t = Some r → chainOk (leaves r)) as Hch.
  { intros r Er. destruct HInv as [_ Hr]. rewrite Er in Hr. apply Hr. }
  split.
  - intros r Er. by apply Inv_Structure.
  - rewrite <-(Inv_empty t HInv). unfold isEmpty. by destruct (root t).
  - intros r Er. by apply (Inv_chainOf t).
  - intros r Er l. rewrite (Inv_chainOf t r HInv Er).
    destruct (Hch r Er) as [_ Hseg]. by apply (chainSeg_adjacent _ _ _ Hseg).
  - intros r Er fuel Hfuel. rewrite (Inv_chainOf t r HInv Er).
    by apply (Inv_chainWalk t).
  - intros r Er. rewrite (Inv_chainOf t r HInv Er). by apply (Hch r Er).
  - done.
  - rewrite Hce. by apply entries_sorted.
  - rewrite Hce. by apply sorted_NoDup, entries_sorted.
Qed.

End InvInvariants.

(** ** The example trees satisfy the invariant *)

Lemma Inv_empty4 : Inv empty4.
Proof. apply Inv_new; unfold INT_MAX; lia. Qed.

Lemma Inv_empty5 : Inv empty5.
Proof. apply Inv_new; unfold INT_MAX; lia. Qed.

Lemma Inv_tree10 : Inv tree10.
Proof. apply insertAll_spec, Inv_empty4. Qed.

Lemma Inv_tree100 : Inv tree100.
Proof. apply insertAll_spec, Inv_empty4. Qed.

Lemma Inv_fullLeaf5 : Inv fullLeaf5.
Proof. apply insertAll_spec, Inv_empty5. Qed.

Lemma reachable_tree10 : reachable 3 tree10.
Proof.
  unfold tree10, insertAll. simpl. repeat apply reach_insert. apply reach_new.
  unfold INT_MAX. lia.
Qed.

(** ** Round trip *)

Section RoundTrip.
Context {V : Type}.
Implicit Types (t : BPlusTree V).

(** C1.  On a tree that satisfies the invariant, as every reachable tree
    does: after [insert t k v], [search k] returns [v]; after
    [remove t k], [search k] returns not-found, whether or not [k] was
    present. *)
Theorem round_trip t (k : Z) (v : V) :
  Inv t →
  search (insert t k v) k = Some v ∧
  search (remove t k).2 k = None.
Proof.
  intros HInv. split.
  - destruct (insert_spec t k v HInv) as [HI He].
    by rewrite search_spec, He, assoc_upsert.
  - destruct (remove_spec t k HInv) as (HI & He & _).
    rewrite search_spec, He by done.
    apply assoc_erase. by apply entries_sorted.
Qed.

End RoundTrip.

Lemma round_trip_witness :
  Inv tree10 ∧
  search (insert tree10 35 7) 35 = Some 7 ∧
  search (remove tree10 30).2 30 = None.
Proof. split; [exact Inv_tree10|]. apply (round_trip tree10 35 7), Inv_tree10. Defined.

(** ** Invariants *)

Section Preservation.
Context {V : Type}.
Implicit Types (t : BPlusTree V).

(** C2.  With a minimum order of at least 3, and orders below [INT_MAX]
    so that the constructor's [order + 1] is an [int], every tree that
    the public operations produce from a new tree has the invariants of
    the data model, and so has the tree after one more [insert],
    [remove] or [bulkLoad]: keys strictly increasing within each node,
    all leaves at one depth, between [minKeys] and [maxKeys] keys in
    every node but the root and at most [maxKeys] in the root, empty
    exactly when the root is absent, and a chain that from the leftmost
    leaf visits the leaves of the tree in order, each once, and ends at
    the last of them, whose [next] is null; hence all stored entries, by
    strictly increasing key, no key twice. *)
Theorem invariants_preserved (MIN_ORDER : Z) t :
  3 <= MIN_ORDER < INT_MAX → reachable MIN_ORDER t →
  Invariants t ∧
  (∀ key value, Invariants (insert t key value)) ∧
  (∀ key, Invariants (remove t key).2) ∧
  (∀ data, Invariants (bulkLoad t data)).
Proof.
  intros HM Hr. split_and!; intros; apply Inv_Invariants;
    apply (reachable_Inv MIN_ORDER); try done.
  - by apply reach_insert.
  - by apply reach_remove.
  - by apply reach_bulkLoad.
Qed.

End Preservation.

Lemma invariants_preserved_witness :
  3 <= 3 < INT_MAX ∧ reachable 3 tree10 ∧
  Invariants tree10 ∧
  (∀ key value, Invariants (insert tree10 key value)) ∧
  (∀ key, Invariants (remove tree10 key).2) ∧
  (∀ data, Invariants (bulkLoad tree10 data)).
Proof.
  assert (3 <= 3 < INT_MAX) as HM by (unfold INT_MAX; lia).
  split; [exact HM|]. split; [exact reachable_tree10|].
  apply (invariants_preserved 3 tree10); [exact HM|exact reachable_tree10].
Defined.

(** ** Removing an absent key *)

Section RemoveAbsent.
Context {V : Type}.
Implicit Types (t : BPlusTree V).

(** C6.  On a tree that satisfies the invariant, [remove] of a key that
    [search] does not find returns false and the tree as it was; height,
    number of entries, content and the result of [validate] are
    therefore what they were. *)
Theorem remove_absent t (k : Z) :
  Inv t → search t k = None →
  remove t k = (false, t) ∧
  height (remove t k).2 = height t ∧
  length (entries (remove t k).2) = length (entries t) ∧
  entries (remove t k).2 = entries t ∧
  validate (remove t k).2 = validate t.
Proof.
  intros HInv Hs. rewrite search_spec in Hs by done.
  destruct (remove_spec t k HInv) as (_ & _ & _ & Habs).
  by rewrite (Habs Hs).
Qed.

End RemoveAbsent.

Lemma remove_absent_witness :
  Inv tree10 ∧ search tree10 35 = None ∧
  remove tree10 35 = (false, tree10) ∧
  height (remove tree10 35).2 = height tree10 ∧
  length (entries (remove tree10 35).2) = length (entries tree10) ∧
  entries (remove tree10 35).2 = entries tree10 ∧
  validate (remove tree10 35).2 = validate tree10.
Proof.
  split; [exact Inv_tree10|]. split; [reflexivity|].
  apply (remove_absent tree10 35); [exact Inv_tree10|reflexivity].
Defined.

(** ** Range queries *)

Section RangeQuery.
Context {V : Type}.
Implicit Types (t : BPlusTree V).

Lemma filter_keyIn_sorted (s e : Z) (es : list (Z * V)) :
  StronglySorted Z.lt (map fst es) →
  StronglySorted Z.lt (map fst (List.filter (keyIn s e) es)).
Proof.
  induction es as [|p es IH]; simpl; [done|]. intros Hs.
  apply StronglySorted_inv in Hs as [Hs Hall]. destruct (keyIn s e p); [|by apply IH].
  simpl. constructor; [by apply IH|].
  clear -Hall. induction es as [|q es IH]; simpl; [constructor|].
  apply Forall_cons in Hall as [? ?]. destruct (keyIn s e q); [constructor|]; auto.
Qed.

Lemma filter_keyIn_none (s e : Z) (es : list (Z * V)) :
  Forall (fun p => ¬ (s <= p.1 <= e)) es → List.filter (keyIn s e) es = [].
Proof.
  induction 1 as [|p es Hp _ IH]; [done|]. simpl. unfold keyIn at 1.
  destruct (Z.leb_spec s p.1), (Z.leb_spec p.1 e); simpl; try done. lia.
Qed.

Lemma filter_keyIn_keys (s e : Z) (es : list (Z * V)) :
  map fst (List.filter (keyIn s e) es)
  = List.filter (fun k => (s <=? k) && (k <=? e)) (map fst es).
Proof.
  induction es as [|p es IH]; [done|]. simpl. unfold keyIn at 1.
  destruct ((s <=? p.1) && (p.1 <=? e)); simpl; by rewrite IH.
Qed.

(** C7.  On a tree that satisfies the invariant, [rangeQuery start end],
    a function of the tree that returns nothing but its result, returns
    the stored pairs whose key is in [[start, end]], in the order of the
    stored entries, which is by strictly increasing key; the result is
    empty when the tree is empty, when [start > end], and when no key is
    in the range.  If the keys of the tree are 0..99, the result for
    [(25, 35)] has the 11 keys 25..35 in increasing order. *)
Theorem rangeQuery_correct t (s e : Z) :
  Inv t →
  ∃ result,
    rangeQuery t s e = Some result ∧
    result = List.filter (keyIn s e) (entries t) ∧
    (∀ k v, (k, v) ∈ result ↔ (k, v) ∈ entries t ∧ s <= k <= e) ∧
    StronglySorted Z.lt (map fst result) ∧
    (isEmpty t = true → result = []) ∧
    (e < s → result = []) ∧
    (Forall (fun p => ¬ (s <= p.1 <= e)) (entries t) → result = []) ∧
    (map fst (entries t) = map fst (upTo 100) → s = 25 → e = 35 →
     map fst result = [25; 26; 27; 28; 29; 30; 31; 32; 33; 34; 35] ∧
     length result = 11%nat).
Proof.
  intros HInv. exists (List.filter (keyIn s e) (entries t)).
  split; [by apply rangeQuery_spec|]. split; [done|]. split_and!.
  - intros k v. rewrite !list_elem_of_In, filter_In, <-!list_elem_of_In.
    unfold keyIn. simpl. rewrite andb_true_iff, !Z.leb_le. done.
  - apply filter_keyIn_sorted. by apply entries_sorted.
  - unfold isEmpty, entries. by destruct (root t).
  - intros Hes. apply filter_keyIn_none. apply Forall_forall. intros p _. lia.
  - apply filter_keyIn_none.
  - intros Hkeys -> ->.
    assert (map fst (List.filter (keyIn 25 35) (entries t))
            = [25; 26; 27; 28; 29; 30; 31; 32; 33; 34; 35]) as E.
    { rewrite filter_keyIn_keys, Hkeys. reflexivity. }
    split; [done|]. by rewrite <-(length_map fst), E.
Qed.

End RangeQuery.

Lemma rangeQuery_correct_witness :
  Inv tree100 ∧ map fst (entries tree100) = map fst (upTo 100) ∧
  ∃ result,
    rangeQuery tree100 25 35 = Some result ∧
    map fst result = [25; 26; 27; 28; 29; 30; 31; 32; 33; 34; 35] ∧
    length result = 11%nat.
Proof.
  split; [exact Inv_tree100|]. split; [vm_compute; reflexivity|].
  destruct (rangeQuery_correct tree100 25 35 Inv_tree100)
    as (result & Hr & _ & _ & _ & _ & _ & _ & H100).
  exists result. split; [exact Hr|].
  apply H100; [vm_compute; reflexivity|reflexivity|reflexivity].
Defined.

(** ** Upsert *)

Section Upsert.
Context {V : Type}.
Implicit Types (t : BPlusTree V) (r : Node V) (leaf : LeafNode V) (path : list (Frame V)).

(** The test for a duplicate key in [insert] succeeds exactly when the
    leaf holds the key. *)
Lemma duplicate_test (keys : list Z) (values : list V) (k : Z) :
  StronglySorted Z.lt keys → length values = length keys →
  let pos := lowerBound keys k in
  (Z.of_nat pos <? Z.of_nat (length keys)) && (nth pos keys 0 =? k) = true ↔
  is_Some (assoc k (zip keys values)).
Proof.
  intros Hs. revert values. induction Hs as [|k' keys Hs IH Hall]; intros values Hlen.
  { simpl. split; [done|]. by intros [? ?]. }
  destruct values as [|v' values]; [done|]. injection Hlen as Hlen.
  specialize (IH values Hlen). cbn [lowerBound zip zip_with assoc].
  destruct (Z.ltb_spec k' k) as [Hlt|Hge].
  - destruct (Z.eqb_spec k' k); [lia|]. rewrite <-IH. cbn [nth length].
    destruct (Z.ltb_spec (Z.of_nat (lowerBound keys k)) (Z.of_nat (length keys)));
      destruct (Z.ltb_spec (Z.of_nat (S (lowerBound keys k))) (Z.of_nat (S (length keys))));
      try lia; done.
  - simpl. destruct (Z.eqb_spec k' k) as [->|Hne]; [done|].
    split; [done|]. intros Hsome. exfalso.
    rewrite assoc_above in Hsome; [by destruct Hsome|].
    change (zip_with pair keys values) with (zip keys values).
    apply zip_keys_above. eapply Forall_impl; [exact Hall|]. simpl. intros. lia.
Qed.

(** What [insert] does when the key is present. *)
Lemma insert_present t (k : Z) (v : V) :
  Inv t → is_Some (search t k) →
  ∃ r path leaf pos,
    root t = Some r ∧ findLeaf [] r k = Some (path, leaf) ∧
    Z.of_nat pos = findKeyPosition (lkeys leaf) k ∧
    lkeys leaf !! pos = Some k ∧
    rebuild path (Leaf leaf) = r ∧
    insert t k v = withRoot t (Some (rebuild path (Leaf (setValue pos v leaf)))).
Proof.
  intros HInv Hs. unfold search, insert in *.
  destruct (root t) as [r|] eqn:Er; [|by destruct Hs].
  destruct (findLeaf_root t r k HInv Er) as
    (path & leaf & lo & hi & Hf & Hp & Hl & Hc & Hk & Hreb).
  rewrite Hf in *. pose proof Hl as (Hlen & Hss & Hr).
  rewrite findValue_assoc in Hs. unfold leafEntries in Hs.
  apply (duplicate_test _ _ _ Hss Hlen) in Hs. cbn zeta in Hs.
  rewrite findKeyPosition_sorted, Nat2Z.id by done. rewrite Hs.
  exists r, path, leaf, (lowerBound (lkeys leaf) k).
  apply andb_true_iff in Hs as [Hs1 Hs2].
  apply Z.ltb_lt in Hs1. apply Z.eqb_eq in Hs2.
  split_and!; try done.
  - by rewrite findKeyPosition_sorted.
  - destruct (lookup_lt_is_Some_2 (lkeys leaf) (lowerBound (lkeys leaf) k)) as [y Hy];
      [lia|].
    rewrite Hy. f_equal. rewrite <-Hs2. symmetry. by apply nth_lookup_Some.
Qed.

(** C8.  On a tree that satisfies the invariant and holds the key,
    [insert] stores the value in the slot of the key and nothing else:
    the result is the tree with that one value slot of that one leaf
    assigned, no leaf allocated; [search] then returns the new value, and
    keys, number of entries and height are unchanged.  So after
    [insert k v1], [insert k v2] makes [search k] return [v2] and leaves
    the number of entries as it was. *)
Theorem upsert_in_place t (k : Z) (v1 v2 : V) :
  Inv t →
  (is_Some (search t k) →
   (∃ r path leaf pos,
      root t = Some r ∧ findLeaf [] r k = Some (path, leaf) ∧
      lkeys leaf !! pos = Some k ∧
      insert t k v2 = withRoot t (Some (rebuild path (Leaf (setValue pos v2 leaf))))) ∧
   search (insert t k v2) k = Some v2 ∧
   map fst (entries (insert t k v2)) = map fst (entries t) ∧
   length (entries (insert t k v2)) = length (entries t) ∧
   nextLeaf (insert t k v2) = nextLeaf t) ∧
  search (insert (insert t k v1) k v2) k = Some v2 ∧
  length (entries (insert (insert t k v1) k v2)) = length (entries (insert t k v1)).
Proof.
  intros HInv.
  assert (∀ t' : BPlusTree V, Inv t' → is_Some (search t' k) →
            search (insert t' k v2) k = Some v2 ∧
            map fst (entries (insert t' k v2)) = map fst (entries t')) as Hgen.
  { intros t' HI' Hs'. destruct (insert_spec t' k v2 HI') as [HI2 He2]. split.
    - by rewrite search_spec, He2, assoc_upsert.
    - rewrite He2. apply upsert_present_keys; [by apply entries_sorted|].
      by rewrite <-search_spec. }
  split.
  - intros Hs. destruct (Hgen t HInv Hs) as [Hs2 Hk2].
    destruct (insert_present t k v2 HInv Hs) as
      (r & path & leaf & pos & Er & Hf & Hpos & Hlk & Hreb & Hins).
    split_and!; try done.
    + by exists r, path, leaf, pos.
    + by rewrite <-(length_map fst), Hk2, length_map.
    + by rewrite Hins.
  - destruct (insert_spec t k v1 HInv) as [HI1 He1].
    assert (is_Some (search (insert t k v1) k)) as Hs1.
    { rewrite search_spec, He1, assoc_upsert by done. by eexists. }
    destruct (Hgen _ HI1 Hs1) as [Hs2 Hk2]. split; [done|].
    by rewrite <-(length_map fst), Hk2, length_map.
Qed.

End Upsert.

Lemma tree10_has_30 : is_Some (search tree10 30).
Proof. exists 3. vm_compute. reflexivity. Qed.

Lemma upsert_in_place_witness :
  Inv tree10 ∧ is_Some (search tree10 30) ∧
  search (insert tree10 30 33) 30 = Some 33 ∧
  length (entries (insert tree10 30 33)) = length (entries tree10) ∧
  search (insert (insert tree10 35 1) 35 2) 35 = Some 2.
Proof.
  split; [exact Inv_tree10|]. split; [exact tree10_has_30|].
  destruct (upsert_in_place tree10 30 0 33 Inv_tree10) as [H _].
  destruct (H tree10_has_30) as (_ & Hs & _ & Hl & _).
  split; [exact Hs|]. split; [exact Hl|].
  apply (upsert_in_place tree10 35 1 2 Inv_tree10).
Defined.

(** ** Splitting a leaf *)

Section LeafSplit.
Context {V : Type}.
Implicit Types (t : BPlusTree V) (r : Node V) (leaf : LeafNode V) (path : list (Frame V)).

(** C3, as the code has it.  On a tree that satisfies the invariant, an
    insert that makes the key count of a leaf exceed [maxKeys] splits the
    leaf at [(maxKeys + 1) / 2], the quotient of the integer division:
    the leaf keeps the entries [[0, splitPoint)], the new leaf receives
    [[splitPoint, count)], and the first key of the new leaf is handed to
    [insertIntoParent] as the separator while it stays in the new leaf,
    which is in the tree afterwards, next to the old one. *)
Theorem leaf_split_point t (key : Z) (value : V) :
  Inv t → overflows t key →
  splitsAt (Z.to_nat ((maxKeys t + 1) / 2)) t key value.
Proof.
  intros HInv (r0 & path0 & leaf0 & Er0 & Hf0 & Habs & Hfull) r path leaf Er Hf full.
  assert (r0 = r) as -> by congruence.
  assert (path0 = path ∧ leaf0 = leaf) as [-> ->] by (split; congruence).
  clear Er0 Hf0. pose proof HInv as [Hpar Hroot].
  destruct (findLeaf_root t r key HInv Er) as
    (path' & leaf' & lo & hi & Hf' & Hp & Hl & Hc & Hk & Hreb).
  assert (path' = path ∧ leaf' = leaf) as [-> ->] by (split; congruence).
  pose proof Hl as (Hlen & Hss & Hr).
  assert (Z.to_nat (findKeyPosition (lkeys leaf) key) = lowerBound (lkeys leaf) key) as Epos.
  { by rewrite findKeyPosition_sorted, Nat2Z.id. }
  unfold full. clear full. rewrite Epos.
  set (pos := lowerBound (lkeys leaf) key).
  set (full := insertAt pos key value leaf).
  pose proof (lowerBound_le (lkeys leaf) key) as Hpos. fold pos in Hpos.
  assert ((Z.of_nat pos <? Z.of_nat (length (lkeys leaf)))
          && (nth pos (lkeys leaf) 0 =? key) = false) as Etest.
  { destruct (_ && _) eqn:E; [|done].
    apply (duplicate_test _ (lvalues leaf) _ Hss Hlen) in E.
    rewrite findValue_assoc in Habs. unfold leafEntries in Habs.
    rewrite Habs in E. by destruct E. }
  assert ((pos < length (lkeys leaf))%nat → nth pos (lkeys leaf) 0 ≠ key) as Hne.
  { intros Hlt Heq. apply andb_false_iff in Etest as [E|E]; lia. }
  pose proof (wf_leaf_insertAt lo hi leaf key value Hl Hk Hne) as Hl'.
  pose proof (length_insertAt leaf pos key value Hpos) as Hlen'.
  fold pos in Hl'. fold full in Hl', Hlen'.
  assert (Z.of_nat (length (lkeys full)) = maxKeys t + 1) as Hcount by lia.
  assert (insert t key value
          = withRootAlloc t (Some (splitLeaf (maxKeys t) (nextLeaf t) path full))) as Hins.
  { unfold insert. rewrite Er, Hf, Epos. fold pos.
    rewrite (findKeyPosition_sorted _ _ Hss). fold pos. rewrite Etest. fold full.
    unfold isFull. destruct (Z.ltb_spec (maxKeys t) (Z.of_nat (length (lkeys full))));
      [done|lia]. }
  assert (splitPointOf (maxKeys t) = Z.to_nat ((maxKeys t + 1) / 2)) as Esp.
  { unfold splitPointOf. destruct Hpar as [? [?|?]]; f_equal; lia. }
  pose proof (splitLeaf_parts_wf _ _ _ _ (nextLeaf t) _ Hpar Hl' Hcount) as Hparts.
  rewrite Hins. unfold splitLeaf.
  destruct (splitLeaf_parts (maxKeys t) (nextLeaf t) full) as [[l1 pk] l2] eqn:Eparts.
  destruct Hparts as (Hw1 & Hw2 & Hlo & Hhi & Hent).
  set (f := setPrev (V:=V) (lnext full) (nextLeaf t)).
  pose proof (setPrev_keepsData (V:=V) (lnext full) (nextLeaf t)) as Hfd. fold f in Hfd.
  pose proof (wf_path_mapPath _ _ f Hfd _ _ _ _ Hp) as Hp'.
  destruct (insertIntoParent_spec _ _ Hpar _ _ _ _ _ _ _ Hp' Hw1 Hw2 Hlo Hhi)
    as [_ Hlv'].
  assert (∀ l : list Z, (0 < length l)%nat → head l = Some (nth 0 l 0)) as Hhd.
  { intros [|? ?]; simpl; [lia|done]. }
  unfold splitLeaf_parts in Eparts. injection Eparts as E1 Epk E2.
  rewrite Esp in E1, Epk, E2.
  exists l1, l2, pk, (insertIntoParent (maxKeys t) (mapPath f path) (Leaf l1) pk (Leaf l2)).
  split_and!; [by rewrite <-E1|by rewrite <-E1|by rewrite <-E2|by rewrite <-E2|
               |reflexivity|reflexivity|].
  - rewrite <-Epk, <-E2. cbn [lkeys]. apply Hhd. rewrite length_drop.
    change (take pos (lkeys leaf) ++ key :: drop pos (lkeys leaf)) with (lkeys full).
    destruct Hpar as [? [?|?]]; lia.
  - eexists _, _. rewrite Hlv'. cbn [leaves app]. reflexivity.
Qed.

End LeafSplit.

Lemma fullLeaf5_overflows : overflows fullLeaf5 5.
Proof.
  eexists _, _, _. split_and!; [reflexivity|reflexivity|reflexivity|].
  vm_compute. reflexivity.
Qed.

Lemma leaf_split_point_witness :
  Inv fullLeaf5 ∧ overflows fullLeaf5 5 ∧
  splitsAt (Z.to_nat ((maxKeys fullLeaf5 + 1) / 2)) fullLeaf5 5 5.
Proof.
  split; [exact Inv_fullLeaf5|]. split; [exact fullLeaf5_overflows|].
  apply (leaf_split_point fullLeaf5 5 5 Inv_fullLeaf5 fullLeaf5_overflows).
Defined.

(** The split point of the specification is not the one of the code: in a
    tree of order 5 ([maxKeys = 4]), the insert of a fifth key overflows
    the root leaf, and the leaf does not keep the first
    [⌈(maxKeys + 1) / 2⌉ = 3] entries: it keeps two. *)
Lemma leaf_split_point_counterexample :
  overflows fullLeaf5 5 ∧
  ceilHalf (maxKeys fullLeaf5 + 1) = 3 ∧
  ¬ splitsAt (Z.to_nat (ceilHalf (maxKeys fullLeaf5 + 1))) fullLeaf5 5 5.
Proof.
  split; [exact fullLeaf5_overflows|]. split; [reflexivity|].
  intros H.
  destruct (H _ _ _ eq_refl eq_refl) as
    (left & right & sep & r' & Hk & _ & _ & _ & _ & -> & Hroot & _).
  vm_compute in Hroot. injection Hroot as _ <- _.
  vm_compute in Hk. discriminate Hk.
Qed.

(** ** Splitting an internal node *)

Section InternalSplit.
Context {V : Type}.
Implicit Types (parent : Frame V) (up : list (Frame V)) (left right : Node V).



End InternalSplit.


(** ** Underflow *)

Section Underflow.
Context {V : Type}.
Implicit Types (parent : Frame V) (up : list (Frame V)) (node : Node V).

Lemma noSurplus_hasSurplus (minKeys : Z) (sibling : option (Node V)) :
  (∀ s, sibling = Some s → numKeys s <= minKeys) →
  hasSurplus minKeys sibling = false.
Proof.
  intros H. destruct sibling as [s|]; [|done]. simpl.
  specialize (H s eq_refl). lia.
Qed.

(** C5.  [deleteEntry] on a node that has a parent: if there is a left
    sibling with more than [minKeys] keys, the result is that of
    [redistributeNodes] with it; otherwise, that is if there is no left
    sibling or it holds at most [minKeys] keys, and there is a right
    sibling with more than [minKeys] keys, that of [redistributeNodes]
    with that one; and only when each sibling that exists holds at most
    [minKeys] keys, that of [mergeNodes], with the left sibling if there
    is one and with the right sibling otherwise. *)
Theorem redistribute_before_merge (minKeys : Z) parent up node :
  let i := fidx parent in
  let children := <[i := node]> (fchildren parent) in
  let leftSibling := if (0 <? i)%nat then children !! (i - 1)%nat else None in
  let rightSibling :=
    if Z.of_nat i <? Z.of_nat (length (fkeys parent))
    then children !! (i + 1)%nat else None in
  (∀ s, leftSibling = Some s → minKeys < numKeys s →
     deleteEntry minKeys (parent :: up) node
     = let '(node', s', keys') :=
         redistributeNodes node s (fkeys parent) (i - 1) true in
       Some (rebuild up
               (Internal keys' (<[(i - 1)%nat := s']> (<[i := node']> children))))) ∧
  (∀ s, (∀ l, leftSibling = Some l → numKeys l <= minKeys) →
     rightSibling = Some s → minKeys < numKeys s →
     deleteEntry minKeys (parent :: up) node
     = let '(node', s', keys') :=
         redistributeNodes node s (fkeys parent) i false in
       Some (rebuild up
               (Internal keys' (<[(i + 1)%nat := s']> (<[i := node']> children))))) ∧
  ((∀ l, leftSibling = Some l → numKeys l <= minKeys) →
   (∀ r, rightSibling = Some r → numKeys r <= minKeys) →
   (∀ s, (0 < i)%nat → children !! (i - 1)%nat = Some s →
      deleteEntry minKeys (parent :: up) node
      = mergeNodes minKeys s node (fkeys parent) children (i - 1) up) ∧
   (∀ s, i = O → children !! (i + 1)%nat = Some s →
      deleteEntry minKeys (parent :: up) node
      = mergeNodes minKeys node s (fkeys parent) children i up)).
Proof.
  intros i children leftSibling rightSibling. split_and!.
  - intros s Hl Hs. cbn [deleteEntry]. fold i children leftSibling.
    rewrite Hl. unfold hasSurplus.
    destruct (Z.ltb_spec minKeys (numKeys s)); [done|lia].
  - intros s Hl Hr Hs. apply noSurplus_hasSurplus in Hl.
    cbn [deleteEntry]. fold i children leftSibling rightSibling.
    rewrite Hl, Hr. unfold hasSurplus.
    destruct (Z.ltb_spec minKeys (numKeys s)); [done|lia].
  - intros Hl Hr. apply noSurplus_hasSurplus in Hl, Hr. split.
    + intros s Hi Hs. cbn [deleteEntry]. fold i children leftSibling rightSibling.
      rewrite Hl, Hr. destruct (Nat.ltb_spec 0 i); [|lia].
      rewrite Hs. unfold mergeNodes. done.
    + intros s Hi Hs. cbn [deleteEntry]. fold i children leftSibling rightSibling.
      rewrite Hl, Hr. destruct (Nat.ltb_spec 0 i); [lia|].
      rewrite Hs. unfold mergeNodes. done.
Qed.

End Underflow.

(** With [minKeys = 1], a leaf left with no key: it borrows from a left
    sibling that holds two keys; beside a left sibling that holds one key
    it borrows from a right sibling that holds two; between two siblings
    that hold one key each it is merged into the left one; and without a
    left sibling, the right one that holds one key is merged into it. *)
Lemma redistribute_before_merge_witness :
  deleteEntry 1 [underflowParent] emptied
  = Some (Internal [5; 20]
            [Leaf (mkLeaf 0 [1] [0] (Some 1%nat) None);
             Leaf (mkLeaf 1 [5] [0] (Some 2%nat) (Some 0%nat));
             Leaf (mkLeaf 2 [20] [0] None (Some 1%nat))]) ∧
  deleteEntry 1 [underflowParentR] emptied
  = Some (Internal [10; 25]
            [Leaf (mkLeaf 0 [1] [0] (Some 1%nat) None);
             Leaf (mkLeaf 1 [20] [0] (Some 2%nat) (Some 0%nat));
             Leaf (mkLeaf 2 [25] [0] None (Some 1%nat))]) ∧
  deleteEntry 1 [underflowParentM] emptied
  = Some (Internal [20]
            [Leaf (mkLeaf 0 [1] [0] (Some 2%nat) None);
             Leaf (mkLeaf 2 [20] [0] None (Some 0%nat))]) ∧
  deleteEntry 1 [underflowParentF] emptiedF
  = Some (Internal [20]
            [Leaf (mkLeaf 0 [10] [0] (Some 2%nat) None);
             Leaf (mkLeaf 2 [20] [0] None (Some 0%nat))]).
Proof.
  split_and!.
  - destruct (redistribute_before_merge 1 underflowParent [] emptied) as [H _].
    rewrite (H (Leaf (mkLeaf 0 [1; 5] [0; 0] (Some 1%nat) None)));
      [reflexivity|reflexivity|vm_compute; reflexivity].
  - destruct (redistribute_before_merge 1 underflowParentR [] emptied) as (_ & H & _).
    rewrite (H (Leaf (mkLeaf 2 [20; 25] [0; 0] None (Some 1%nat))));
      [reflexivity| |reflexivity|vm_compute; reflexivity].
    intros l [= <-]. vm_compute. discriminate.
  - destruct (redistribute_before_merge 1 underflowParentM [] emptied) as (_ & _ & H).
    destruct H as [H _].
    + intros l [= <-]. vm_compute. discriminate.
    + intros r [= <-]. vm_compute. discriminate.
    + rewrite (H (Leaf (mkLeaf 0 [1] [0] (Some 1%nat) None)));
        [reflexivity|simpl; lia|reflexivity].
  - destruct (redistribute_before_merge 1 underflowParentF [] emptiedF) as (_ & _ & H).
    destruct H as [_ H].
    + intros l [=].
    + intros r [= <-]. vm_compute. discriminate.
    + rewrite (H (Leaf (mkLeaf 1 [10] [0] (Some 2%nat) (Some 0%nat))));
        [reflexivity|reflexivity|reflexivity].
Defined.

(** ** Bulk loading *)

Section BulkLoadEquiv.
Context {V : Type}.
Implicit Types (t : BPlusTree V) (data : list (Z * V)).

Lemma upsert_last (k : Z) (v : V) (es : list (Z * V)) :
  Forall (fun p => p.1 < k) es → upsert k v es = es ++ [(k, v)].
Proof.
  induction 1 as [|[k' v'] es Hk _ IH]; [done|]. simpl in *.
  destruct (Z.ltb_spec k' k); [|lia]. by rewrite IH.
Qed.

Lemma upsertAll_sorted_id (es : list (Z * V)) :
  StronglySorted Z.lt (map fst es) → upsertAll es = es.
Proof.
  unfold upsertAll.
  assert (∀ acc : list (Z * V), StronglySorted Z.lt (map fst (acc ++ es)) →
            foldl (fun acc p => upsert p.1 p.2 acc) acc es = acc ++ es) as H.
  { induction es as [|p es IH]; intros acc Hs; simpl; [by rewrite app_nil_r|].
    rewrite upsert_last.
    - replace (p.1, p.2) with p by (by destruct p).
      rewrite IH; [by rewrite <-app_assoc|]. by rewrite <-app_assoc.
    - rewrite map_app in Hs. apply StronglySorted_app in Hs as (Hlt & _ & _).
      apply Forall_forall. intros q Hq. apply Hlt.
      + by apply (list_elem_of_fmap_2 fst).
      + simpl. left. }
  intros Hs. by apply (H []).
Qed.

(** C9.  With [bulkLoad] as the specification describes it: whatever the
    tree held, [bulkLoad] of a sequence gives a tree that holds what
    upserting the pairs in input order into nothing gives, which is the
    sequence stably sorted and deduplicated keeping the last pair of each
    key.  A tree built by inserting the sequence, or the deduplicated
    sequence, into an empty tree holds the same entries, and [validate]
    accepts the trees. *)
Theorem bulkLoad_equivalence t (t0 : BPlusTree V) data :
  Inv t → Inv t0 → root t0 = None →
  bulkLoad t data = bulkLoad (withRoot t None) data ∧
  dedupLast (sortByKey data) = upsertAll data ∧
  entries (bulkLoad t data) = upsertAll data ∧
  entries (insertAll t0 data) = entries (bulkLoad t data) ∧
  entries (insertAll t0 (dedupLast (sortByKey data))) = entries (bulkLoad t data) ∧
  (∀ k, search (bulkLoad t data) k = search (insertAll t0 data) k) ∧
  (∀ a b : V, search (bulkLoad t [(1, a); (1, b)]) 1 = Some b) ∧
  validate (bulkLoad t data) = true ∧
  validate (insertAll t0 data) = true ∧
  validate (insertAll t0 (dedupLast (sortByKey data))) = true.
Proof.
  intros [Hpar _] HI0 Hr0.
  destruct (bulkLoad_spec t data Hpar) as [HIb Heb].
  destruct (insertAll_spec t0 data HI0) as [HIi Hei].
  destruct (insertAll_spec t0 (dedupLast (sortByKey data)) HI0) as [HId Hed].
  assert (entries t0 = []) as He0 by (unfold entries; by rewrite Hr0).
  rewrite He0 in Hei, Hed. fold (upsertAll data) in Hei.
  fold (upsertAll (dedupLast (sortByKey data))) in Hed.
  rewrite dedupLast_sortByKey in Hed |- *.
  rewrite (upsertAll_sorted_id (upsertAll data)) in Hed by apply upsertAll_sorted.
  split_and!; try done; try congruence.
  - intros k. rewrite !search_spec by done. congruence.
  - intros a b. destruct (bulkLoad_spec t [(1, a); (1, b)] Hpar) as [HIab Heab].
    by rewrite search_spec, Heab.
  - by apply Inv_validate.
  - by apply Inv_validate.
  - apply Inv_validate. by rewrite <-(dedupLast_sortByKey data).
Qed.

End BulkLoadEquiv.

Lemma Inv_emptyS : Inv emptyS.
Proof. apply Inv_new; unfold INT_MAX; lia. Qed.

Lemma bulkLoad_equivalence_witness :
  Inv emptyS ∧ root emptyS = None ∧
  search (bulkLoad emptyS [(1, "a"); (1, "b")]) 1 = Some "b" ∧
  entries (bulkLoad emptyS [(3, "x"); (1, "y"); (3, "z")]) = [(1, "y"); (3, "z")] ∧
  entries (insertAll emptyS [(3, "x"); (1, "y"); (3, "z")]) = [(1, "y"); (3, "z")] ∧
  validate (bulkLoad emptyS [(3, "x"); (1, "y"); (3, "z")]) = true.
Proof.
  split; [exact Inv_emptyS|]. split; [reflexivity|].
  destruct (bulkLoad_equivalence emptyS emptyS [(3, "x"); (1, "y"); (3, "z")]
              Inv_emptyS Inv_emptyS eq_refl)
    as (_ & _ & Hb & Hi & _ & _ & Hab & Hv & _).
  split; [exact (Hab "a" "b")|].
  split; [exact Hb|]. split; [rewrite Hi; exact Hb|exact Hv].
Defined.

(** ** The validator *)

Section Validator.
Context {V : Type}.

(** C10.  [validate] accepts a tree exactly when the root is absent or
    the nodes it reads, those in the child slots [0 .. numKeys] of
    every internal node, have the three properties: keys strictly
    increasing within every node, between [minKeys] and [maxKeys] keys
    in every node but the root, all leaves at one depth.  The number of
    children of an internal node is not among them, and neither is the
    order between a separator and the keys below its children:
    [validate] accepts a tree whose root has the separator 10 with the
    key 20 below the child before it and the key 5 below the child after
    it. *)
Theorem validate_ignores_separators :
  (∀ t : BPlusTree V,
     validate t = true ↔
     match root t with
     | None => True
     | Some r => Validated (minKeys t) (maxKeys t) r
     end) ∧
  (∀ (t : BPlusTree V) r,
     root t = Some r → Checked (minKeys t) (maxKeys t) r → validate t = true) ∧
  ∃ (t : BPlusTree Z) ks cs (i : nat) sep c c' k k',
    root t = Some (Internal ks cs) ∧ ks !! i = Some sep ∧
    cs !! i = Some c ∧ k ∈ leafKeys (leaves c) ∧ sep <= k ∧
    cs !! S i = Some c' ∧ k' ∈ leafKeys (leaves c') ∧ k' < sep ∧
    validate t = true.
Proof.
  split; [apply validate_iff|]. split.
  { intros t r Er Hc. apply validate_iff. rewrite Er. by apply Checked_Validated. }
  exists misplaced. eexists _, _, O, _, _, _, 20, 5.
  split; [reflexivity|]. split; [reflexivity|]. split; [reflexivity|].
  split; [left|]. split; [lia|]. split; [reflexivity|].
  split; [left|]. split; [lia|reflexivity].
Qed.

End Validator.

(** The validator does not check the number of children: it accepts a
    tree whose root holds one key and one child, the slot of the second
    child being null, so that what it accepts need not have the four
    properties. *)
Lemma validate_child_count_counterexample :
  ∃ ks cs,
    root missingChild = Some (Internal ks cs) ∧
    length cs ≠ S (length ks) ∧
    validate missingChild = true ∧
    ¬ Checked (minKeys missingChild) (maxKeys missingChild) (Internal ks cs).
Proof.
  eexists _, _. split; [reflexivity|]. split; [simpl; lia|]. split; [reflexivity|].
  intros [_ _ _ Hc]. apply Forall_cons in Hc as [Hc _]. simpl in Hc. lia.
Qed.

(** * Further properties of the code *)

(** ** Searching within a node *)

Lemma sorted_drop_head_eq (keys : list Z) (key : Z) (pos : nat) :
  StronglySorted Z.lt keys →
  Forall (fun k => k < key) (take pos keys) →
  Forall (fun k => key <= k) (drop pos keys) →
  key ∈ keys → keys !! pos = Some key.
Proof.
  intros Hs Ht Hd Hin. rewrite <-(take_drop pos keys) in Hin, Hs.
  apply elem_of_app in Hin as [Hin|Hin].
  { rewrite Forall_forall in Ht. specialize (Ht _ Hin). lia. }
  apply StronglySorted_app_1_r in Hs.
  rewrite <-(Nat.add_0_r pos), <-lookup_drop.
  destruct (drop pos keys) as [|x rest]; [by apply elem_of_nil in Hin|].
  simpl. f_equal. apply elem_of_cons in Hin as [->|Hin]; [done|].
  apply StronglySorted_inv in Hs as [_ Hall].
  apply Forall_cons in Hd as [Hx _].
  rewrite Forall_forall in Hall. specialize (Hall _ Hin). lia.
Qed.

(** X1.  The binary search of [findKeyPosition] on strictly increasing
    keys returns the position where the key is or belongs: an index
    between 0 and the number of keys, with only smaller keys before it
    and no smaller key from it on; the key is in the node exactly when
    it is the key at that index. *)
Theorem findKeyPosition_correct (keys : list Z) (key : Z) :
  StronglySorted Z.lt keys →
  ∃ pos : nat,
    findKeyPosition keys key = Z.of_nat pos ∧ (pos <= length keys)%nat ∧
    Forall (fun k => k < key) (take pos keys) ∧
    Forall (fun k => key <= k) (drop pos keys) ∧
    (key ∈ keys ↔ keys !! pos = Some key).
Proof.
  intros Hs. exists (lowerBound keys key).
  pose proof (lowerBound_take keys key) as Ht.
  pose proof (lowerBound_drop keys key Hs) as Hd.
  split_and!; [by apply findKeyPosition_sorted|apply lowerBound_le|done|done|].
  split; [by apply sorted_drop_head_eq|apply list_elem_of_lookup_2].
Qed.

Lemma findKeyPosition_correct_witness :
  StronglySorted Z.lt [10; 20; 30; 40] ∧
  ∃ pos : nat,
    findKeyPosition [10; 20; 30; 40] 25 = Z.of_nat pos ∧ (pos <= 4)%nat ∧
    Forall (fun k => k < 25) (take pos [10; 20; 30; 40]) ∧
    Forall (fun k => 25 <= k) (drop pos [10; 20; 30; 40]) ∧
    (25 ∈ [10; 20; 30; 40] ↔ [10; 20; 30; 40] !! pos = Some 25).
Proof.
  assert (StronglySorted Z.lt [10; 20; 30; 40]) as Hs by (repeat constructor; lia).
  split; [exact Hs|]. exact (findKeyPosition_correct [10; 20; 30; 40] 25 Hs).
Defined.



(** X3.  The scan of [findChildIndex], whatever the keys, stops at an
    index between 0 and the number of keys with no key greater than the
    search key before it and, if it is the index of a key, that key
    greater than the search key; on strictly increasing keys all the keys
    from the index on are greater, so the index is the number of keys
    that are not greater than the search key. *)
Theorem findChildIndex_correct (keys : list Z) (key : Z) :
  (findChildIndex keys key <= length keys)%nat ∧
  Forall (fun k => k <= key) (take (findChildIndex keys key) keys) ∧
  (∀ k, keys !! findChildIndex keys key = Some k → key < k) ∧
  (StronglySorted Z.lt keys →
   Forall (fun k => key < k) (drop (findChildIndex keys key) keys) ∧
   findChildIndex keys key
   = length (List.filter (fun k => k <=? key) keys)).
Proof.
  split_and!.
  - apply findChildIndex_le.
  - apply findChildIndex_take.
  - induction keys as [|k0 keys IH]; simpl; [done|].
    destruct (Z.leb_spec k0 key); simpl; [done|]. intros k [= <-]. done.
  - intros Hs. induction Hs as [|k0 keys Hs IH Hall]; simpl; [done|].
    destruct (Z.leb_spec k0 key) as [Hle|Hgt]; simpl.
    + destruct IH as [IH1 IH2]. split; [done|]. by rewrite IH2.
    + assert (Forall (fun k => key < k) keys) as Hk.
      { eapply Forall_impl; [exact Hall|]. simpl. intros. lia. }
      split; [by constructor|].
      clear -Hk. induction Hk as [|k keys Hk _ IH]; simpl; [done|].
      destruct (Z.leb_spec k key); [lia|done].
Qed.

Lemma remove_insert_slot {A} (pos : nat) (x : A) (l : list A) :
  (pos <= length l)%nat →
  take pos (take pos l ++ x :: drop pos l)
  ++ drop (S pos) (take pos l ++ x :: drop pos l) = l.
Proof.
  revert l. induction pos as [|pos IH]; intros l Hle.
  - simpl. by rewrite drop_0.
  - destruct l as [|a l]; simpl in *; [lia|]. f_equal. apply IH. lia.
Qed.

(** ** Leaves *)

Section LeafOps.
Context {V : Type}.
Implicit Types (l : LeafNode V).

Lemma findValue_scan_first (keys : list Z) (values : list V) (key : Z) (v : V) :
  findValue_scan keys values key = Some v →
  ∃ i : nat, keys !! i = Some key ∧ values !! i = Some v ∧
             ∀ j : nat, (j < i)%nat → keys !! j ≠ Some key.
Proof.
  revert values. induction keys as [|k keys IH]; intros [|v0 values]; simpl; try done.
  destruct (Z.eqb_spec k key) as [->|Hne].
  - intros [= ->]. exists O. split_and!; [done|done|]. intros j Hj. lia.
  - intros H. destruct (IH _ H) as (i & Hk & Hv & Hfirst).
    exists (S i). split_and!; [done|done|].
    intros [|j] Hj; simpl; [congruence|]. apply Hfirst. lia.
Qed.

Lemma findValue_scan_none (keys : list Z) (values : list V) (key : Z) :
  length values = length keys →
  findValue_scan keys values key = None ↔ key ∉ keys.
Proof.
  revert values. induction keys as [|k keys IH]; intros [|v0 values] Hlen;
    simplify_eq/=.
  { split; [intros _ Hin; by apply elem_of_nil in Hin|done]. }
  destruct (Z.eqb_spec k key) as [->|Hne].
  - split; [done|]. intros Hn. destruct Hn. left.
  - rewrite IH by done. rewrite not_elem_of_cons. split; [intros ?; split; [congruence|done] | by intros [_ ?]].
Qed.

(** X4.  [findValue] on a leaf with as many values as keys: it reports
    not-found exactly when the key is not among the keys of the leaf, and
    otherwise returns the value stored at the first index that holds the
    key. *)
Theorem findValue_correct l (key : Z) :
  length (lvalues l) = length (lkeys l) →
  (findValue l key = None ↔ key ∉ lkeys l) ∧
  (∀ v, findValue l key = Some v →
     ∃ i : nat, lkeys l !! i = Some key ∧ lvalues l !! i = Some v ∧
                ∀ j : nat, (j < i)%nat → lkeys l !! j ≠ Some key).
Proof.
  intros Hlen. split.
  - by apply findValue_scan_none.
  - intros v. apply findValue_scan_first.
Qed.

(** X5.  [removeAt] undoes [insertAt] at the same position: the leaf is
    what it was, after [insertAt] had put the key and the value at that
    position and made the leaf one entry longer. *)
Theorem insertAt_removeAt l (pos : nat) (key : Z) (value : V) :
  (pos <= length (lkeys l))%nat → (pos <= length (lvalues l))%nat →
  removeAt pos (insertAt pos key value l) = l ∧
  lkeys (insertAt pos key value l) !! pos = Some key ∧
  lvalues (insertAt pos key value l) !! pos = Some value ∧
  length (lkeys (insertAt pos key value l)) = S (length (lkeys l)).
Proof.
  intros Hk Hv. destruct l as [id ks vs nx pv]. simpl in *.
  unfold removeAt, insertAt, removeKeyAt. simpl. split_and!.
  - f_equal; by apply remove_insert_slot.
  - apply list_lookup_middle. rewrite length_take. lia.
  - apply list_lookup_middle. rewrite length_take. lia.
  - rewrite length_app, length_take. simpl. rewrite length_drop. lia.
Qed.

(** X6.  Inserting a new key into a leaf at the position
    [findKeyPosition] gives keeps the keys strictly increasing, makes
    [findValue] return the value for the key, and changes the answer of
    [findValue] for no other key. *)
Theorem insertAt_findValue l (key : Z) (value : V) :
  StronglySorted Z.lt (lkeys l) → length (lvalues l) = length (lkeys l) →
  key ∉ lkeys l →
  let l' := insertAt (Z.to_nat (findKeyPosition (lkeys l) key)) key value l in
  StronglySorted Z.lt (lkeys l') ∧
  findValue l' key = Some value ∧
  ∀ k', k' ≠ key → findValue l' k' = findValue l k'.
Proof.
  intros Hs Hlen Hnot l'. unfold l'.
  rewrite findKeyPosition_sorted, Nat2Z.id by done.
  set (pos := lowerBound (lkeys l) key).
  assert ((pos < length (lkeys l))%nat → nth pos (lkeys l) 0 ≠ key) as Hne.
  { intros Hlt E. apply Hnot. rewrite <-E. apply list_elem_of_lookup_2 with pos.
    destruct (lookup_lt_is_Some_2 (lkeys l) pos Hlt) as [y Hy].
    rewrite Hy. f_equal. symmetry. by apply nth_lookup_Some. }
  assert (leafEntries (insertAt pos key value l) = upsert key value (leafEntries l)) as Hup.
  { pose proof (leaf_upsert (lkeys l) (lvalues l) key value Hlen) as H. simpl in H.
    fold pos in H. unfold leafEntries. rewrite <-H.
    destruct ((Z.of_nat pos <? Z.of_nat (length (lkeys l)))
              && (nth pos (lkeys l) 0 =? key)) eqn:E; [|done].
    apply andb_true_iff in E as [E1 E2]. apply Z.ltb_lt in E1. apply Z.eqb_eq in E2.
    exfalso. apply Hne; [lia|done]. }
  split_and!.
  - apply sorted_insert; [done|apply lowerBound_take|].
    by apply lowerBound_drop_strict.
  - by rewrite findValue_assoc, Hup, assoc_upsert.
  - intros k' Hk'. by rewrite !findValue_assoc, Hup, assoc_upsert_ne.
Qed.

End LeafOps.

Lemma findValue_correct_witness :
  length [1; 2] = length [10; 20] ∧
  (findValue (mkLeaf 0 [10; 20] [1; 2] None None) 15 = None ↔ 15 ∉ [10; 20]).
Proof.
  split; [reflexivity|].
  exact (proj1 (findValue_correct (mkLeaf 0 [10; 20] [1; 2] None None) 15 eq_refl)).
Defined.

Lemma insertAt_removeAt_witness :
  (1 <= 2)%nat ∧
  removeAt 1 (insertAt 1 15 7 (mkLeaf 0 [10; 20] [1; 2] None None))
  = mkLeaf 0 [10; 20] [1; 2] None None.
Proof.
  split; [lia|].
  exact (proj1 (insertAt_removeAt (mkLeaf 0 [10; 20] [1; 2] None None) 1 15 7
                  ltac:(simpl; lia) ltac:(simpl; lia))).
Defined.

Lemma insertAt_findValue_witness :
  StronglySorted Z.lt [10; 20] ∧ (15 ∉ [10; 20]) ∧
  findValue
    (insertAt (Z.to_nat (findKeyPosition [10; 20] 15)) 15 7
       (mkLeaf 0 [10; 20] [1; 2] None None)) 15 = Some 7.
Proof.
  assert (StronglySorted Z.lt [10; 20]) as Hs by (repeat constructor; lia).
  assert (15 ∉ [10; 20]) as Hn.
  { rewrite !not_elem_of_cons. split_and!; [lia|lia|apply not_elem_of_nil]. }
  split; [exact Hs|]. split; [exact Hn|].
  exact (proj1 (proj2 (insertAt_findValue (mkLeaf 0 [10; 20] [1; 2] None None) 15 7
                         Hs eq_refl Hn))).
Defined.

(** ** The stored map *)

Section Assoc.
Context {V : Type}.
Implicit Types (es : list (Z * V)).

Lemma assoc_Some_elem (k : Z) (v : V) es : assoc k es = Some v → (k, v) ∈ es.
Proof.
  induction es as [|[k' v'] es IH]; simpl; [done|].
  destruct (Z.eqb_spec k' k) as [->|Hne].
  - intros [= ->]. left.
  - intros H. right. by apply IH.
Qed.

Lemma assoc_sorted_elem (k : Z) (v : V) es :
  StronglySorted Z.lt (map fst es) → (k, v) ∈ es → assoc k es = Some v.
Proof.
  induction es as [|[k' v'] es IH]; simpl; intros Hs Hin.
  { by apply elem_of_nil in Hin. }
  apply StronglySorted_inv in Hs as [Hs Hall].
  apply elem_of_cons in Hin as [[= -> ->]|Hin].
  - by rewrite Z.eqb_refl.
  - destruct (Z.eqb_spec k' k) as [->|Hne]; [|by apply IH].
    rewrite Forall_forall in Hall.
    assert (k < k); [|lia]. apply Hall.
    by apply (list_elem_of_fmap_2 fst es (k, v)).
Qed.

Lemma assoc_above_head (k : Z) (v : V) es :
  StronglySorted Z.lt (map fst ((k, v) :: es)) → assoc k es = None.
Proof.
  intros Hs. apply assoc_not_in. by apply sorted_head_not_in.
Qed.

Lemma assoc_below_head (k k' : Z) (v' : V) es :
  StronglySorted Z.lt (map fst ((k', v') :: es)) → k < k' →
  assoc k ((k', v') :: es) = None.
Proof.
  intros Hs Hlt. apply assoc_above. simpl in Hs.
  apply StronglySorted_inv in Hs as [_ Hall]. constructor; [done|].
  rewrite Forall_forall in Hall. apply Forall_forall. intros p Hp. simpl.
  assert (k' < p.1); [|lia]. apply Hall. by apply list_elem_of_fmap_2.
Qed.

(** Two strictly increasing association lists that answer every lookup
    alike are equal. *)
Lemma sorted_assoc_ext es1 es2 :
  StronglySorted Z.lt (map fst es1) → StronglySorted Z.lt (map fst es2) →
  (∀ k, assoc k es1 = assoc k es2) → es1 = es2.
Proof.
  revert es2. induction es1 as [|[k1 v1] es1 IH]; intros [|[k2 v2] es2] H1 H2 Hext.
  - done.
  - specialize (Hext k2). simpl in Hext. by rewrite Z.eqb_refl in Hext.
  - specialize (Hext k1). simpl in Hext. by rewrite Z.eqb_refl in Hext.
  - assert (k1 = k2) as ->.
    { destruct (Z.lt_trichotomy k1 k2) as [Hlt|[->|Hgt]]; [|done|].
      - pose proof (Hext k1) as E. rewrite (assoc_below_head k1 k2) in E by done.
        simpl in E. by rewrite Z.eqb_refl in E.
      - pose proof (Hext k2) as E. rewrite (assoc_below_head k2 k1) in E by done.
        simpl in E. by rewrite Z.eqb_refl in E. }
    pose proof (Hext k2) as E. simpl in E. rewrite Z.eqb_refl in E.
    injection E as ->. f_equal. apply IH.
    + simpl in H1. by apply StronglySorted_inv in H1 as [? _].
    + simpl in H2. by apply StronglySorted_inv in H2 as [? _].
    + intros k. destruct (Z.eq_dec k k2) as [->|Hne].
      * by rewrite (assoc_above_head k2 v2 es1), (assoc_above_head k2 v2 es2).
      * specialize (Hext k). simpl in Hext.
        destruct (Z.eqb_spec k2 k); [congruence|done].
Qed.

Lemma upsert_length (k : Z) (v : V) es :
  StronglySorted Z.lt (map fst es) →
  length (upsert k v es)
  = match assoc k es with Some _ => length es | None => S (length es) end.
Proof.
  induction es as [|[k' v'] es IH]; simpl; intros Hs; [done|].
  destruct (Z.ltb_spec k' k) as [Hlt|Hge].
  - destruct (Z.eqb_spec k' k); [lia|]. simpl. rewrite IH; [by destruct (assoc k es)|].
    by apply StronglySorted_inv in Hs as [? _].
  - destruct (Z.eqb_spec k' k) as [->|Hne]; [done|]. simpl.
    rewrite assoc_above; [done|].
    apply StronglySorted_inv in Hs as [_ Hall].
    rewrite Forall_forall in Hall. apply Forall_forall. intros p Hp.
    assert (k' < p.1); [|lia]. apply Hall. by apply list_elem_of_fmap_2.
Qed.

Lemma erase_length (k : Z) es :
  length (erase k es)
  = match assoc k es with Some _ => pred (length es) | None => length es end.
Proof.
  induction es as [|[k' v'] es IH]; simpl; [done|].
  destruct (Z.eqb_spec k' k); [done|]. simpl. rewrite IH.
  destruct (assoc k es) eqn:E; [|done].
  destruct es; [done|]. done.
Qed.

Lemma erase_upsert (k : Z) (v : V) es :
  assoc k es = None → erase k (upsert k v es) = es.
Proof.
  induction es as [|[k' v'] es IH]; simpl.
  - by rewrite Z.eqb_refl.
  - destruct (Z.eqb_spec k' k) as [->|Hne]; [done|]. intros Hn.
    destruct (Z.ltb_spec k' k).
    + simpl. destruct (Z.eqb_spec k' k); [done|]. by rewrite IH.
    + simpl. by rewrite Z.eqb_refl.
Qed.

Lemma upsert_erase (k : Z) (v : V) es :
  StronglySorted Z.lt (map fst es) → assoc k es = Some v →
  upsert k v (erase k es) = es.
Proof.
  intros Hs Ha. apply sorted_assoc_ext; [| done |].
  - apply upsert_sorted.
    clear Ha. induction es as [|[k' v'] es IH]; simpl; [done|].
    pose proof Hs as Hs'. simpl in Hs'. apply StronglySorted_inv in Hs' as [Hs' Hall].
    destruct (k' =? k); [done|]. simpl. constructor; [by apply IH|].
    rewrite Forall_forall in Hall. apply Forall_forall. intros x Hx.
    apply Hall. clear -Hx. induction es as [|[k2 v2] es IH]; simpl in *; [done|].
    destruct (k2 =? k); [by right|].
    simpl in Hx. apply elem_of_cons in Hx as [->|Hx]; [left|right; by apply IH].
  - intros k0. destruct (Z.eq_dec k0 k) as [->|Hne].
    + by rewrite assoc_upsert.
    + by rewrite assoc_upsert_ne, assoc_erase_ne.
Qed.

Lemma upsert_comm (k1 k2 : Z) (v1 v2 : V) es :
  StronglySorted Z.lt (map fst es) → k1 ≠ k2 →
  upsert k1 v1 (upsert k2 v2 es) = upsert k2 v2 (upsert k1 v1 es).
Proof.
  intros Hs Hne. apply sorted_assoc_ext; [by do 2 apply upsert_sorted..|].
  intros k. destruct (Z.eq_dec k k1) as [->|H1].
  - by rewrite assoc_upsert, assoc_upsert_ne, assoc_upsert.
  - rewrite (assoc_upsert_ne k1 k) by done.
    destruct (Z.eq_dec k k2) as [->|H2].
    + by rewrite !assoc_upsert.
    + by rewrite !assoc_upsert_ne.
Qed.

Lemma upsert_idem (k : Z) (v v' : V) es :
  StronglySorted Z.lt (map fst es) →
  upsert k v (upsert k v' es) = upsert k v es.
Proof.
  intros Hs. apply sorted_assoc_ext; [by repeat apply upsert_sorted..|].
  intros k0. destruct (Z.eq_dec k0 k) as [->|Hne].
  - by rewrite !assoc_upsert.
  - by rewrite !assoc_upsert_ne.
Qed.

Lemma filter_keyIn_cons (s e k : Z) (v : V) es :
  List.filter (keyIn s e) ((k, v) :: es)
  = if (s <=? k) && (k <=? e) then (k, v) :: List.filter (keyIn s e) es
    else List.filter (keyIn s e) es.
Proof. reflexivity. Qed.

Lemma filter_keyIn_point (k : Z) es :
  StronglySorted Z.lt (map fst es) →
  List.filter (keyIn k k) es
  = match assoc k es with Some v => [(k, v)] | None => [] end.
Proof.
  induction es as [|[k' v'] es IH]; intros Hs; [done|].
  pose proof Hs as Hs'. apply StronglySorted_inv in Hs' as [Hs' Hall].
  rewrite filter_keyIn_cons. simpl.
  destruct (Z.eqb_spec k' k) as [->|Hne].
  - rewrite Z.leb_refl. simpl. f_equal. apply filter_keyIn_above.
    rewrite Forall_forall in Hall. apply Forall_forall. intros p Hp.
    apply Hall. by apply list_elem_of_fmap_2.
  - replace ((k <=? k') && (k' <=? k)) with false by lia. by apply IH.
Qed.

Lemma filter_keyIn_split (a b c : Z) es :
  StronglySorted Z.lt (map fst es) → a <= b + 1 → b <= c →
  List.filter (keyIn a c) es
  = List.filter (keyIn a b) es ++ List.filter (keyIn (b + 1) c) es.
Proof.
  intros Hs Hab Hbc. induction es as [|[k v] es IH]; [done|].
  pose proof Hs as Hs'. simpl in Hs'. apply StronglySorted_inv in Hs' as [Hs' Hall].
  rewrite !filter_keyIn_cons.
  destruct (Z.leb_spec k b) as [Hkb|Hkb].
  - replace (b + 1 <=? k) with false by lia. simpl.
    replace (k <=? c) with true by lia. rewrite Bool.andb_true_r.
    destruct (a <=? k); simpl; by rewrite IH.
  - rewrite Bool.andb_false_r.
    replace (a <=? k) with true by lia. replace (b + 1 <=? k) with true by lia. simpl.
    assert (Forall (fun p : Z * V => b < p.1) es) as Habove.
    { rewrite Forall_forall in Hall. apply Forall_forall. intros p Hp.
      assert (k < p.1); [|lia]. apply Hall. by apply list_elem_of_fmap_2. }
    rewrite (filter_keyIn_above a b es Habove). simpl.
    assert (List.filter (keyIn a c) es = List.filter (keyIn (b + 1) c) es) as ->; [|done].
    clear -Habove Hab. induction es as [|[k' v'] es IH]; [done|].
    apply Forall_cons in Habove as [Hk' Habove]. simpl in Hk'.
    rewrite !filter_keyIn_cons.
    replace (a <=? k') with true by lia. replace (b + 1 <=? k') with true by lia.
    simpl. rewrite IH by done. done.
Qed.

End Assoc.

(** ** The operations on the stored map *)

Section TreeOps.
Context {V : Type}.
Implicit Types (t : BPlusTree V).

(** X7.  On a tree that satisfies the invariant, [search] finds a value
    under a key exactly when some leaf stores the pair, and no key is
    stored twice: pairs of the tree with one key have one value. *)
Theorem search_iff_stored t (k : Z) (v : V) :
  Inv t →
  (search t k = Some v ↔ (k, v) ∈ entries t) ∧
  (∀ v', (k, v) ∈ entries t → (k, v') ∈ entries t → v = v') ∧
  NoDup (map fst (entries t)).
Proof.
  intros HI. pose proof (entries_sorted t HI) as Hs.
  rewrite (search_spec t k HI). split_and!.
  - split; [apply assoc_Some_elem|by apply assoc_sorted_elem].
  - intros v' H1 H2. apply (assoc_sorted_elem _ _ _ Hs) in H1, H2. congruence.
  - clear -Hs. induction Hs as [|x l Hs IH Hall]; constructor; [|done].
    intros Hin. rewrite Forall_forall in Hall. specialize (Hall _ Hin). lia.
Qed.

(** X8.  On a tree that satisfies the invariant, [insert] and [remove] of
    a key change the answer of [search] for no other key. *)
Theorem search_other_keys t (k k' : Z) (v : V) :
  Inv t → k' ≠ k →
  search (insert t k v) k' = search t k' ∧
  search (remove t k).2 k' = search t k'.
Proof.
  intros HI Hne.
  destruct (insert_spec t k v HI) as [HIi Ei].
  destruct (remove_spec t k HI) as (HIr & Er & _).
  rewrite !search_spec by done. rewrite Ei, Er. split.
  - by apply assoc_upsert_ne.
  - by apply assoc_erase_ne.
Qed.

(** X9.  On a tree that satisfies the invariant, [remove] returns true
    exactly when [search] finds the key; the tree then holds one entry
    less, and as many as before otherwise. *)
Theorem remove_found t (k : Z) :
  Inv t →
  (remove t k).1 = bool_decide (is_Some (search t k)) ∧
  length (entries (remove t k).2)
  = match search t k with
    | Some _ => pred (length (entries t))
    | None => length (entries t)
    end ∧
  (is_Some (search t k) → (0 < length (entries t))%nat).
Proof.
  intros HI. destruct (remove_spec t k HI) as (_ & Er & Eb & _).
  rewrite (search_spec t k HI), Er, Eb. split_and!; [done|apply erase_length|].
  intros [v Hv]. apply assoc_Some_elem in Hv.
  destruct (entries t); [by apply elem_of_nil in Hv|simpl; lia].
Qed.

(** X10.  On a tree that satisfies the invariant, [insert] of a key that
    [search] does not find makes the tree one entry larger: the new pair
    is stored, and every pair stored before is still stored. *)
Theorem insert_new_key t (k : Z) (v : V) :
  Inv t → search t k = None →
  length (entries (insert t k v)) = S (length (entries t)) ∧
  (∀ p, p ∈ entries (insert t k v) ↔ p = (k, v) ∨ p ∈ entries t).
Proof.
  intros HI Hn. destruct (insert_spec t k v HI) as [HIi Ei].
  pose proof (entries_sorted t HI) as Hs.
  pose proof (entries_sorted _ HIi) as Hsi.
  rewrite (search_spec t k HI) in Hn. split.
  - rewrite Ei, upsert_length, Hn by done. done.
  - intros [k0 v0]. split.
    + intros Hin. apply (assoc_sorted_elem _ _ _ Hsi) in Hin. rewrite Ei in Hin.
      destruct (Z.eq_dec k0 k) as [->|Hne].
      * rewrite assoc_upsert in Hin. left. congruence.
      * rewrite assoc_upsert_ne in Hin by done. right. by apply assoc_Some_elem.
    + intros [[= -> ->]|Hin]; apply assoc_Some_elem; rewrite Ei.
      * apply assoc_upsert.
      * apply (assoc_sorted_elem _ _ _ Hs) in Hin.
        rewrite assoc_upsert_ne; [done|]. congruence.
Qed.

(** X11.  On a tree that satisfies the invariant: [remove] after [insert]
    of a key that [search] did not find returns true and leaves the
    entries that were stored before the two; [insert] after [remove] of a
    key, with the value that [search] found, does likewise. *)
Theorem insert_remove_cancel t (k : Z) (v : V) :
  Inv t →
  (search t k = None →
   (remove (insert t k v) k).1 = true ∧
   entries (remove (insert t k v) k).2 = entries t) ∧
  (search t k = Some v → entries (insert (remove t k).2 k v) = entries t).
Proof.
  intros HI. destruct (insert_spec t k v HI) as [HIi Ei].
  destruct (remove_spec t k HI) as (HIr & Er & _).
  rewrite (search_spec t k HI). split.
  - intros Hn. destruct (remove_spec _ k HIi) as (_ & Er' & Eb' & _).
    rewrite Eb', Er', Ei, assoc_upsert. split.
    + apply bool_decide_eq_true_2. by eexists.
    + by apply erase_upsert.
  - intros Hs. destruct (insert_spec _ k v HIr) as [_ Ei'].
    rewrite Ei', Er. apply upsert_erase; [by apply entries_sorted|done].
Qed.

(** X12.  On a tree that satisfies the invariant, the entries stored
    after two [insert]s with different keys do not depend on the order of
    the two, and an [insert] followed by an [insert] of the same key
    stores what the second alone stores. *)
Theorem insert_commute t (k1 k2 : Z) (v1 v2 : V) :
  Inv t →
  (k1 ≠ k2 →
   entries (insert (insert t k1 v1) k2 v2) = entries (insert (insert t k2 v2) k1 v1)) ∧
  entries (insert (insert t k1 v1) k1 v2) = entries (insert t k1 v2).
Proof.
  intros HI. pose proof (entries_sorted t HI) as Hs.
  destruct (insert_spec t k1 v1 HI) as [HI1 E1].
  destruct (insert_spec t k2 v2 HI) as [HI2 E2].
  destruct (insert_spec _ k2 v2 HI1) as [_ E12].
  destruct (insert_spec _ k1 v1 HI2) as [_ E21].
  destruct (insert_spec _ k1 v2 HI1) as [_ E11].
  destruct (insert_spec t k1 v2 HI) as [_ E1'].
  split.
  - intros Hne. rewrite E12, E21, E1, E2. symmetry. by apply upsert_comm.
  - rewrite E11, E1, E1'. by apply upsert_idem.
Qed.

(** X13.  On a tree that satisfies the invariant, [remove] leaves the
    tree empty, without a root and of height 0, exactly when it held no
    key other than the removed one. *)
Theorem remove_last_entry t (k : Z) :
  Inv t →
  (isEmpty (remove t k).2 = true ↔ Forall (fun p => p.1 = k) (entries t)) ∧
  (isEmpty (remove t k).2 = true →
   root (remove t k).2 = None ∧ height (remove t k).2 = 0 ∧
   (length (entries t) <= 1)%nat).
Proof.
  intros HI. destruct (remove_spec t k HI) as (HIr & Er & _).
  pose proof (Inv_empty _ HIr) as Hemp. pose proof (entries_sorted t HI) as Hs.
  assert (isEmpty (remove t k).2 = true ↔ root (remove t k).2 = None) as Hiff.
  { unfold isEmpty. destruct (root (remove t k).2); split; done. }
  assert (erase k (entries t) = [] ↔ Forall (fun p => p.1 = k) (entries t)) as Hone.
  { destruct (entries t) as [|[k1 w1] es]; simpl; [done|].
    destruct (Z.eqb_spec k1 k) as [->|Hne].
    - split.
      + intros ->. by repeat constructor.
      + intros Hall. apply Forall_cons in Hall as [_ Hall].
        destruct es as [|[k2 w2] es]; [done|].
        apply Forall_cons in Hall as [E _]. simpl in E, Hs.
        apply StronglySorted_inv in Hs as [_ Hlt].
        apply Forall_cons in Hlt as [Hlt _]. lia.
    - split; [done|]. intros Hall. apply Forall_cons in Hall as [E _]. done. }
  split.
  - rewrite Hiff, Hemp, Er. done.
  - intros He. apply Hiff in He. split_and!; [done|unfold height; by rewrite He|].
    apply Hemp in He. rewrite Er in He. apply (f_equal length) in He.
    rewrite erase_length in He. destruct (assoc k (entries t)); simpl in He; lia.
Qed.

(** X14.  On a tree that satisfies the invariant, [rangeQuery] from a key
    to the same key returns the pair that [search] finds for the key, and
    nothing when [search] finds none. *)
Theorem rangeQuery_point t (k : Z) :
  Inv t →
  rangeQuery t k k
  = Some (match search t k with Some v => [(k, v)] | None => [] end).
Proof.
  intros HI. rewrite (rangeQuery_spec t k k HI), (search_spec t k HI).
  f_equal. apply filter_keyIn_point. by apply entries_sorted.
Qed.

(** X15.  On a tree that satisfies the invariant, the result of
    [rangeQuery] for [[a, c]] is that for [[a, b]] followed by that for
    [[b + 1, c]], for every [b] from [a - 1] to [c]; and a range that
    covers every stored key returns all the entries. *)
Theorem rangeQuery_split t (a b c : Z) :
  Inv t → a <= b + 1 → b <= c →
  (∃ r1 r2,
     rangeQuery t a b = Some r1 ∧ rangeQuery t (b + 1) c = Some r2 ∧
     rangeQuery t a c = Some (r1 ++ r2)) ∧
  (Forall (fun p => a <= p.1 <= c) (entries t) → rangeQuery t a c = Some (entries t)).
Proof.
  intros HI Hab Hbc. rewrite !rangeQuery_spec by done. split.
  - eexists _, _. split_and!; [done|done|]. f_equal.
    apply filter_keyIn_split; [by apply entries_sorted|done|done].
  - intros Hall. f_equal. induction (entries t) as [|[k v] es IH]; [done|].
    apply Forall_cons in Hall as [Hk Hall]. simpl in Hk.
    rewrite filter_keyIn_cons.
    replace ((a <=? k) && (k <=? c)) with true by lia. f_equal. by apply IH.
Qed.

(** X16.  On a tree that satisfies the invariant, [findLeaf] returns a
    leaf, never the null pointer; the leaf is a leaf of the tree, every
    key of the leaves before it is less than the key searched for and
    every key of the leaves after it is greater: it is the one leaf that
    can hold the key, and it does hold it if any leaf does. *)
Theorem findLeaf_correct t r (k : Z) :
  Inv t → root t = Some r →
  ∃ path leaf L R,
    findLeaf [] r k = Some (path, leaf) ∧
    rebuild path (Leaf leaf) = r ∧
    leaves r = L ++ leaf :: R ∧
    Forall (fun l => Forall (fun x => x < k) (lkeys l)) L ∧
    Forall (fun l => Forall (fun x => k < x) (lkeys l)) R ∧
    (∀ l, l ∈ leaves r → k ∈ lkeys l → k ∈ lkeys leaf).
Proof.
  intros HI Er.
  destruct (findLeaf_root t r k HI Er)
    as (path & leaf & lo & hi & Hf & Hp & Hl & Hcnt & [Hlo Hhi] & Hr).
  destruct (wf_path_keys _ _ _ _ _ _ Hp) as [HL HR].
  assert (leaves r = pathLeft path ++ leaf :: pathRight path) as Hls.
  { rewrite <-Hr. by erewrite leaves_rebuild. }
  assert (Forall (fun l => Forall (fun x => x < k) (lkeys l)) (pathLeft path)) as HL'.
  { eapply Forall_impl; [exact HL|]. intros l Hall. simpl in Hall.
    eapply Forall_impl; [exact Hall|]. intros x Hx. by apply Hx. }
  assert (Forall (fun l => Forall (fun x => k < x) (lkeys l)) (pathRight path)) as HR'.
  { eapply Forall_impl; [exact HR|]. intros l Hall. simpl in Hall.
    eapply Forall_impl; [exact Hall|]. intros x Hx. by apply Hx. }
  exists path, leaf, (pathLeft path), (pathRight path).
  split_and!; try done.
  intros l Hin Hk. rewrite Hls in Hin.
  apply elem_of_app in Hin as [Hin|Hin].
  - rewrite Forall_forall in HL'. specialize (HL' _ Hin).
    rewrite Forall_forall in HL'. specialize (HL' _ Hk). lia.
  - apply elem_of_cons in Hin as [->|Hin]; [done|].
    rewrite Forall_forall in HR'. specialize (HR' _ Hin).
    rewrite Forall_forall in HR'. specialize (HR' _ Hk). lia.
Qed.

End TreeOps.

Lemma tree10_lacks_35 : search tree10 35 = None.
Proof. vm_compute. reflexivity. Qed.

Lemma search_iff_stored_witness :
  Inv tree10 ∧ (search tree10 30 = Some 3 ↔ (30, 3) ∈ entries tree10).
Proof.
  split; [exact Inv_tree10|].
  exact (proj1 (search_iff_stored tree10 30 3 Inv_tree10)).
Defined.

Lemma search_other_keys_witness :
  Inv tree10 ∧ 30 ≠ 35 ∧
  search (insert tree10 35 0) 30 = search tree10 30 ∧
  search (remove tree10 35).2 30 = search tree10 30.
Proof.
  split; [exact Inv_tree10|]. split; [lia|].
  exact (search_other_keys tree10 35 30 0 Inv_tree10 ltac:(lia)).
Defined.

Lemma remove_found_witness :
  Inv tree10 ∧ (remove tree10 30).1 = bool_decide (is_Some (search tree10 30)).
Proof.
  split; [exact Inv_tree10|].
  exact (proj1 (remove_found tree10 30 Inv_tree10)).
Defined.

Lemma insert_new_key_witness :
  Inv tree10 ∧ search tree10 35 = None ∧
  length (entries (insert tree10 35 0)) = S (length (entries tree10)).
Proof.
  split; [exact Inv_tree10|]. split; [exact tree10_lacks_35|].
  exact (proj1 (insert_new_key tree10 35 0 Inv_tree10 tree10_lacks_35)).
Defined.

Lemma insert_remove_cancel_witness :
  Inv tree10 ∧ search tree10 35 = None ∧
  (remove (insert tree10 35 0) 35).1 = true ∧
  entries (remove (insert tree10 35 0) 35).2 = entries tree10.
Proof.
  split; [exact Inv_tree10|]. split; [exact tree10_lacks_35|].
  exact (proj1 (insert_remove_cancel tree10 35 0 Inv_tree10) tree10_lacks_35).
Defined.

Lemma insert_commute_witness :
  Inv tree10 ∧
  entries (insert (insert tree10 35 1) 35 2) = entries (insert tree10 35 2).
Proof.
  split; [exact Inv_tree10|].
  exact (proj2 (insert_commute tree10 35 45 1 2 Inv_tree10)).
Defined.

Lemma remove_last_entry_witness :
  Inv (insert empty4 7 7) ∧
  (isEmpty (remove (insert empty4 7 7) 7).2 = true
   ↔ Forall (fun p => p.1 = 7) (entries (insert empty4 7 7))).
Proof.
  assert (Inv (insert empty4 7 7)) as HI by (apply insert_spec, Inv_empty4).
  split; [exact HI|].
  exact (proj1 (remove_last_entry (insert empty4 7 7) 7 HI)).
Defined.

Lemma rangeQuery_point_witness :
  Inv tree10 ∧
  rangeQuery tree10 30 30
  = Some (match search tree10 30 with Some v => [(30, v)] | None => [] end).
Proof.
  split; [exact Inv_tree10|]. exact (rangeQuery_point tree10 30 Inv_tree10).
Defined.

Lemma rangeQuery_split_witness :
  Inv tree10 ∧ 20 <= 45 + 1 ∧ 45 <= 70 ∧
  ∃ r1 r2,
    rangeQuery tree10 20 45 = Some r1 ∧ rangeQuery tree10 (45 + 1) 70 = Some r2 ∧
    rangeQuery tree10 20 70 = Some (r1 ++ r2).
Proof.
  split; [exact Inv_tree10|]. split; [lia|]. split; [lia|].
  exact (proj1 (rangeQuery_split tree10 20 45 70 Inv_tree10 ltac:(lia) ltac:(lia))).
Defined.

Lemma findLeaf_correct_witness :
  Inv tree10 ∧ root tree10 = Some root10 ∧
  ∃ path leaf L R,
    findLeaf [] root10 55 = Some (path, leaf) ∧
    rebuild path (Leaf leaf) = root10 ∧
    leaves root10 = L ++ leaf :: R ∧
    Forall (fun l => Forall (fun x => x < 55) (lkeys l)) L ∧
    Forall (fun l => Forall (fun x => 55 < x) (lkeys l)) R ∧
    (∀ l, l ∈ leaves root10 → 55 ∈ lkeys l → 55 ∈ lkeys leaf).
Proof.
  assert (root tree10 = Some root10) as Er by (vm_compute; reflexivity).
  split; [exact Inv_tree10|]. split; [exact Er|].
  exact (findLeaf_correct tree10 root10 55 Inv_tree10 Er).
Defined.

(** ** The shape of the tree *)

Section Shape.
Context {V : Type}.
Implicit Types (t : BPlusTree V) (n r : Node V).

Lemma wf_children_separates minK maxK h lo hi ks (cs : list (Node V)) :
  wf_children (fun lo hi c => wf_body minK maxK h lo hi c ∧ countOk minK maxK c)
    lo hi ks cs →
  separates ks cs.
Proof.
  intros Hc i sep Hi.
  assert (drop i ks = sep :: drop (S i) ks) as Hd.
  { by apply drop_S. }
  assert (take (S i) ks = take i ks ++ [sep]) as Ht.
  { by apply take_S_r. }
  split; intros c Hci.
  - destruct (wf_children_lookup _ _ _ _ _ _ _ Hc Hci) as (_ & _ & [Hb _] & _ & _).
    rewrite Hd in Hb. simpl in Hb.
    apply wf_body_keys in Hb. unfold allKeys in Hb. unfold leafKeys.
    apply Forall_flat_map. eapply Forall_impl; [exact Hb|].
    intros l Hl. simpl in Hl. eapply Forall_impl; [exact Hl|].
    intros k [_ Hk]. exact Hk.
  - destruct (wf_children_lookup _ _ _ _ _ _ _ Hc Hci) as (_ & _ & [Hb _] & _ & _).
    rewrite Ht in Hb. unfold lastB in Hb. rewrite last_snoc in Hb.
    apply wf_body_keys in Hb. unfold allKeys in Hb. unfold leafKeys.
    apply Forall_flat_map. eapply Forall_impl; [exact Hb|].
    intros l Hl. simpl in Hl. eapply Forall_impl; [exact Hl|].
    intros k [Hk _]. exact Hk.
Qed.

Lemma wf_body_separates minK maxK n :
  ∀ h lo hi, wf_body minK maxK h lo hi n →
    ∀ ks cs, Internal ks cs ∈ subnodes n → separates ks cs.
Proof.
  induction n as [l|ks0 cs0 IH] using Node_ind'; intros h lo hi Hn ks cs Hin.
  - simpl in Hin. apply elem_of_cons in Hin as [Hin|Hin]; [done|].
    by apply elem_of_nil in Hin.
  - destruct h as [|h]; [done|]. simpl in Hn, Hin.
    apply elem_of_cons in Hin as [[= -> ->]|Hin].
    + by eapply wf_children_separates.
    + apply list_elem_of_In, in_flat_map in Hin as (c & Hc & Hin).
      apply list_elem_of_In in Hc, Hin.
      assert (Forall (fun c => ∃ lo hi, wf_body minK maxK h lo hi c) cs0) as Hall.
      { eapply wf_children_Forall; [|exact Hn].
        intros lo' hi' c' _ Hp. simpl in Hp. destruct Hp as [Hb _]. by exists lo', hi'. }
      rewrite Forall_forall in Hall, IH.
      destruct (Hall _ Hc) as (lo' & hi' & Hb).
      by eapply (IH _ Hc).
Qed.

(** X17.  On a tree that satisfies the invariant, every internal node has
    one child more than keys, and each of its keys separates the
    children around it: every key stored below the child before the
    separator is less than it, and every key stored below the child
    after it is at least it.  [validate] does not check this order; the
    operations keep it. *)
Theorem separators_ordered t r (ks : list Z) (cs : list (Node V)) :
  Inv t → root t = Some r → Internal ks cs ∈ subnodes r →
  length cs = S (length ks) ∧ StronglySorted Z.lt ks ∧ separates ks cs.
Proof.
  intros HI Er Hin.
  destruct (Inv_Structure t r HI Er) as [[Hsorted _ _ Hcc] _].
  rewrite Forall_forall in Hsorted, Hcc.
  split_and!.
  - exact (Hcc _ Hin).
  - exact (Hsorted _ Hin).
  - destruct HI as [_ HI]. rewrite Er in HI. destruct HI as [(h & Hb & _) _].
    by eapply wf_body_separates.
Qed.

End Shape.

Lemma separators_ordered_witness :
  Inv tree10 ∧ root tree10 = Some root10 ∧
  separates [30; 50; 80] (match root10 with Internal _ cs => cs | Leaf _ => [] end).
Proof.
  assert (root tree10 = Some root10) as Er by (vm_compute; reflexivity).
  split; [exact Inv_tree10|]. split; [exact Er|].
  refine (proj2 (proj2 (separators_ordered tree10 root10 [30; 50; 80] _ Inv_tree10 Er _))).
  simpl. left.
Defined.

(** ** The chain and the height *)

Section Chain.
Context {V : Type}.
Implicit Types (t : BPlusTree V) (n r : Node V).

(** X18.  On a tree that satisfies the invariant, the [prev] links of the
    leaves mirror the [next] links: of two adjacent leaves, [next] of
    the first is the second and [prev] of the second is the first;
    [prev] of the first leaf and [next] of the last are null, and no two
    leaves are the same. *)
Theorem chain_links_mirror t r :
  Inv t → root t = Some r →
  (∀ (i : nat) a b, leaves r !! i = Some a → leaves r !! S i = Some b →
     lnext a = Some (lid b) ∧ lprev b = Some (lid a)) ∧
  (∀ a, head (leaves r) = Some a → lprev a = None) ∧
  (∀ b, last (leaves r) = Some b → lnext b = None) ∧
  NoDup (map lid (leaves r)).
Proof.
  intros [_ HI] Er. rewrite Er in HI. destruct HI as (_ & [Hnd Hc] & _).
  destruct (chainSeg_adjacent _ _ _ Hc) as (H1 & H2 & H3). by split_and!.
Qed.

Lemma height_from_pos n : 1 <= height_from n.
Proof.
  induction n as [l|ks cs IH] using Node_ind'; simpl; [lia|].
  destruct cs as [|c cs]; [lia|]. apply Forall_cons in IH as [IH _]. lia.
Qed.

Lemma wf_body_height minK maxK n :
  ∀ h lo hi, wf_body minK maxK h lo hi n → height_from n = Z.of_nat h + 1.
Proof.
  induction n as [l|ks cs IH] using Node_ind'; intros h lo hi Hn.
  - destruct Hn as [-> _]. done.
  - destruct h as [|h]; [done|]. simpl in Hn.
    destruct cs as [|c cs]; [done|].
    apply wf_children_head in Hn as ([Hb _] & _ & _).
    apply Forall_cons in IH as [IH _]. simpl. rewrite (IH _ _ _ Hb). lia.
Qed.

(** X19.  [height] is 0 exactly on the empty tree; on a tree that
    satisfies the invariant it is the number of levels of the whole
    tree, not of its leftmost path only: every leaf is [height - 1]
    levels below the root. *)
Theorem height_correct t :
  (height t = 0 ↔ isEmpty t = true) ∧
  (Inv t → ∀ r, root t = Some r → Forall (fun d => d = height t - 1) (leafDepths 0 r)).
Proof.
  unfold height, isEmpty. split.
  - destruct (root t) as [r|]; [|done].
    pose proof (height_from_pos r). split; [lia|done].
  - intros [_ HI] r Er. rewrite Er in HI |- *. destruct HI as ((h & Hb & _) & _).
    rewrite (wf_body_height _ _ _ _ _ _ Hb).
    pose proof (wf_body_valid_sub _ _ _ _ _ _ 0 Hb) as (_ & _ & _ & Hd).
    eapply Forall_impl; [exact Hd|]. intros d ->. lia.
Qed.

End Chain.

(** ** The number of entries and the height *)

Section Size.
Context {V : Type}.
Implicit Types (t : BPlusTree V) (n r : Node V).

Lemma flat_map_length_bounds {A B} (f : A → list B) (a b : Z) (l : list A) :
  Forall (fun x => a <= Z.of_nat (length (f x)) <= b) l →
  a * Z.of_nat (length l) <= Z.of_nat (length (flat_map f l)) <= b * Z.of_nat (length l).
Proof.
  induction 1 as [|x l Hx _ IH]; simpl; [lia|].
  rewrite length_app. lia.
Qed.

Lemma entriesOf_Internal ks (cs : list (Node V)) :
  entriesOf (Internal ks cs) = flat_map entriesOf cs.
Proof.
  unfold entriesOf. simpl. induction cs as [|c cs IH]; simpl; [done|].
  by rewrite flat_map_app, IH.
Qed.

Lemma wf_children_sizes minK maxK h lo hi ks (cs : list (Node V)) (a b : Z) :
  Forall (fun c => ∀ lo hi, wf_body minK maxK h lo hi c → countOk minK maxK c →
                   a <= Z.of_nat (length (entriesOf c)) <= b) cs →
  wf_children (fun lo hi c => wf_body minK maxK h lo hi c ∧ countOk minK maxK c)
    lo hi ks cs →
  a * (Z.of_nat (length ks) + 1) <= Z.of_nat (length (entriesOf (Internal ks cs)))
  <= b * (Z.of_nat (length ks) + 1).
Proof.
  intros IH Hc. rewrite entriesOf_Internal.
  pose proof (wf_children_length _ _ _ _ _ Hc) as Hlen.
  replace (Z.of_nat (length ks) + 1) with (Z.of_nat (length cs)) by lia.
  apply flat_map_length_bounds.
  rewrite Forall_forall in IH. apply Forall_forall. intros c Hin.
  assert (Forall (fun c => ∃ lo hi, wf_body minK maxK h lo hi c ∧ countOk minK maxK c) cs)
    as Hall.
  { eapply wf_children_Forall; [|exact Hc].
    intros lo' hi' c' _ Hp. by exists lo', hi'. }
  rewrite Forall_forall in Hall. destruct (Hall _ Hin) as (lo' & hi' & Hb & Hcnt).
  by eapply IH.
Qed.

Lemma wf_node_size minK maxK n :
  1 <= minK → minK <= maxK →
  ∀ h lo hi, wf_body minK maxK h lo hi n → countOk minK maxK n →
    minK * (minK + 1) ^ Z.of_nat h <= Z.of_nat (length (entriesOf n))
    <= maxK * (maxK + 1) ^ Z.of_nat h.
Proof.
  intros Hmin Hmax.
  induction n as [l|ks cs IH] using Node_ind'; intros h lo hi Hn Hcnt.
  - destruct Hn as (-> & Hlen & _). unfold countOk, numKeys in Hcnt. simpl in Hcnt.
    unfold entriesOf, leafEntries. simpl. rewrite app_nil_r, length_zip, Hlen.
    rewrite Nat.min_id, !Z.pow_0_r. lia.
  - destruct h as [|h]; [done|]. simpl in Hn.
    unfold countOk, numKeys in Hcnt. simpl in Hcnt.
    assert (Forall (fun c => ∀ lo hi, wf_body minK maxK h lo hi c → countOk minK maxK c →
                      minK * (minK + 1) ^ Z.of_nat h
                      <= Z.of_nat (length (entriesOf c))
                      <= maxK * (maxK + 1) ^ Z.of_nat h) cs) as IH'.
    { eapply Forall_impl; [exact IH|]. intros c Hc lo' hi'. apply Hc. }
    pose proof (wf_children_sizes _ _ _ _ _ _ _ _ _ IH' Hn) as Hsz.
    rewrite Nat2Z.inj_succ, !Z.pow_succ_r by lia.
    assert (0 < (minK + 1) ^ Z.of_nat h) by (apply Z.pow_pos_nonneg; lia).
    assert (0 < (maxK + 1) ^ Z.of_nat h) by (apply Z.pow_pos_nonneg; lia).
    nia.
Qed.

(** X20.  On a tree that satisfies the invariant and is not empty, the
    number of entries is bounded by the height [H]: it is at least 1 and
    at most [maxKeys * (maxKeys + 1) ^ (H - 1)], and when the root is an
    internal node at least [2 * minKeys * (minKeys + 1) ^ (H - 2)]; so
    the height grows with the logarithm of the number of entries. *)
Theorem size_bounds t :
  Inv t → isEmpty t = false →
  1 <= height t ∧
  1 <= Z.of_nat (length (entries t))
  <= maxKeys t * (maxKeys t + 1) ^ (height t - 1) ∧
  (2 <= height t →
   2 * minKeys t * (minKeys t + 1) ^ (height t - 2) <= Z.of_nat (length (entries t))).
Proof.
  intros [[Hmin Hpar] HI] Hne. unfold isEmpty, height, entries in *.
  destruct (root t) as [r|]; [|done].
  destruct HI as ((h & Hb & Hcnt) & _).
  rewrite (wf_body_height _ _ _ _ _ _ Hb).
  assert (minKeys t <= maxKeys t) as Hmm by lia.
  destruct r as [l|ks cs].
  - destruct Hb as (-> & Hlen & _). unfold numKeys in Hcnt. simpl in Hcnt.
    unfold entriesOf, leafEntries. simpl. rewrite app_nil_r, length_zip, Hlen, Nat.min_id.
    rewrite Z.pow_0_r. lia.
  - destruct h as [|h]; [done|]. unfold numKeys in Hcnt. simpl in Hb, Hcnt.
    assert (Forall (fun c => ∀ lo hi, wf_body (minKeys t) (maxKeys t) h lo hi c →
                      countOk (minKeys t) (maxKeys t) c →
                      minKeys t * (minKeys t + 1) ^ Z.of_nat h
                      <= Z.of_nat (length (entriesOf c))
                      <= maxKeys t * (maxKeys t + 1) ^ Z.of_nat h) cs) as IH.
    { apply Forall_forall. intros c _ lo hi. by apply wf_node_size. }
    pose proof (wf_children_sizes _ _ _ _ _ _ _ _ _ IH Hb) as Hsz.
    replace (Z.of_nat (S h) + 1 - 1) with (Z.succ (Z.of_nat h)) by lia.
    replace (Z.of_nat (S h) + 1 - 2) with (Z.of_nat h) by lia.
    rewrite Z.pow_succ_r by lia.
    assert (0 < (minKeys t + 1) ^ Z.of_nat h) by (apply Z.pow_pos_nonneg; lia).
    assert (0 < (maxKeys t + 1) ^ Z.of_nat h) by (apply Z.pow_pos_nonneg; lia).
    split; [lia|]. split; [nia|]. intros _. nia.
Qed.

End Size.

Lemma chain_links_mirror_witness :
  Inv tree10 ∧ root tree10 = Some root10 ∧ NoDup (map lid (leaves root10)).
Proof.
  assert (root tree10 = Some root10) as Er by (vm_compute; reflexivity).
  split; [exact Inv_tree10|]. split; [exact Er|].
  exact (proj2 (proj2 (proj2 (chain_links_mirror tree10 root10 Inv_tree10 Er)))).
Defined.

Lemma size_bounds_witness :
  Inv tree10 ∧ isEmpty tree10 = false ∧
  1 <= Z.of_nat (length (entries tree10))
  <= maxKeys tree10 * (maxKeys tree10 + 1) ^ (height tree10 - 1).
Proof.
  assert (isEmpty tree10 = false) as Hne by (vm_compute; reflexivity).
  split; [exact Inv_tree10|]. split; [exact Hne|].
  exact (proj1 (proj2 (size_bounds tree10 Inv_tree10 Hne))).
Defined.

(** ** The constructor *)

Section Constructor.
Context {V : Type}.

(** X21.  With a minimum order of at least 3, and the orders below
    [INT_MAX] so that [order + 1] is an [int], the constructor raises an
    order below the minimum to it, and derives [maxKeys] and [minKeys]
    so that every node may hold a key, both halves of a split of a leaf
    or of an internal node hold at least [minKeys] keys, and the keys of
    an underflowing node, of a sibling with [minKeys] keys and their
    separator fit into one node.  The new tree is empty, of height 0,
    accepted by [validate], and [search] and [rangeQuery] find nothing
    in it. *)
Theorem BPlusTree_new_params (MIN_ORDER ord : Z) :
  3 <= MIN_ORDER < INT_MAX → ord < INT_MAX →
  let t := BPlusTree_new (V:=V) MIN_ORDER ord in
  let sp := Z.of_nat (splitPointOf (maxKeys t)) in
  order t = Z.max MIN_ORDER ord ∧
  maxKeys t = order t - 1 ∧
  minKeys t = (order t + 1) / 2 - 1 ∧
  1 <= minKeys t ∧
  2 * minKeys t <= maxKeys t <= 2 * minKeys t + 1 ∧
  (minKeys t <= sp ∧ minKeys t <= maxKeys t + 1 - sp <= maxKeys t) ∧
  (sp <= maxKeys t ∧ minKeys t <= maxKeys t - sp) ∧
  (minKeys t - 1) + 1 + minKeys t <= maxKeys t ∧
  isEmpty t = true ∧ height t = 0 ∧ validate t = true ∧
  (∀ k, search t k = None) ∧ (∀ s e, rangeQuery t s e = Some []).
Proof.
  intros Hmin Hord t sp.
  pose proof (paramsOk_new (V:=V) MIN_ORDER ord Hmin Hord) as Hpar. fold t in Hpar.
  pose proof (splitPoint_bounds _ _ Hpar) as (H1 & H2 & H3 & H4 & H5).
  fold sp in H1, H3, H4, H5.
  destruct Hpar as [Hp1 Hp2].
  pose proof (BPlusTree_new_fields (V:=V) MIN_ORDER ord Hmin Hord) as Et.
  fold t in Et. simpl in Et.
  assert (order t = Z.max MIN_ORDER ord) as Eo by (by rewrite Et).
  assert (maxKeys t = order t - 1) as Em by (by rewrite Et).
  assert (minKeys t = (order t + 1) / 2 - 1) as En by (by rewrite Et).
  assert (root t = None) as Er by done.
  split_and!; try done; try lia.
Qed.

(** With the order [INT_MAX] the constructor's [order + 1] is not an
    [int], and [minKeys] comes out negative. *)
Lemma BPlusTree_new_overflow (MIN_ORDER : Z) :
  MIN_ORDER <= INT_MAX →
  minKeys (BPlusTree_new (V:=V) MIN_ORDER INT_MAX) = -1073741825.
Proof.
  intros HM. unfold BPlusTree_new. simpl.
  destruct (Z.ltb_spec INT_MAX MIN_ORDER); [lia|]. reflexivity.
Qed.

End Constructor.

Lemma BPlusTree_new_params_witness :
  3 <= 3 < INT_MAX ∧ 1 < INT_MAX ∧
  order (BPlusTree_new (V:=Z) 3 1) = Z.max 3 1 ∧
  maxKeys (BPlusTree_new (V:=Z) 3 1) = order (BPlusTree_new (V:=Z) 3 1) - 1.
Proof.
  assert (3 <= 3 < INT_MAX) as HM by (unfold INT_MAX; lia).
  assert (1 < INT_MAX) as Ho by (unfold INT_MAX; lia).
  split; [exact HM|]. split; [exact Ho|].
  pose proof (BPlusTree_new_params (V:=Z) 3 1 HM Ho) as H.
  exact (conj (proj1 H) (proj1 (proj2 H))).
Defined.

(** ** Redistribution *)

Section Redistribute.
Context {V : Type}.

(** X22.  [redistributeNodes] on two leaves with as many values as keys,
    the sibling holding a key to give and one to keep: one entry moves
    from the sibling to the node, the last of a left sibling or the
    first of a right one; the entries of the two leaves in order are
    what they were, the chain links are untouched, and the separator in
    the parent becomes the first key of the right one of the two
    leaves. *)
Theorem redistribute_leaves (leaf sib : LeafNode V) (ks : list Z) (pi : nat)
    (isLeft : bool) :
  length (lvalues leaf) = length (lkeys leaf) →
  length (lvalues sib) = length (lkeys sib) →
  (2 <= length (lkeys sib))%nat →
  ∃ leaf' sib' sep',
    redistributeNodes (Leaf leaf) (Leaf sib) ks pi isLeft
    = (Leaf leaf', Leaf sib', <[pi := sep']> ks) ∧
    sameLinks leaf' leaf ∧ sameLinks sib' sib ∧
    length (lkeys leaf') = S (length (lkeys leaf)) ∧
    S (length (lkeys sib')) = length (lkeys sib) ∧
    length (lvalues leaf') = length (lkeys leaf') ∧
    length (lvalues sib') = length (lkeys sib') ∧
    if isLeft
    then leafEntries sib' ++ leafEntries leaf' = leafEntries sib ++ leafEntries leaf ∧
         head (lkeys leaf') = Some sep' ∧ last (lkeys sib) = Some sep'
    else leafEntries leaf' ++ leafEntries sib' = leafEntries leaf ++ leafEntries sib ∧
         head (lkeys sib') = Some sep' ∧ last (lkeys leaf') = head (lkeys sib).
Proof.
  intros Hl Hs Hn. destruct leaf as [lid lk lv lnx lpv], sib as [sid sk sv snx spv].
  simpl in *. destruct isLeft; simpl.
  - destruct (snoc_inv sk (length sk - 1)) as (sk0 & x & -> & Hk0); [lia|].
    destruct (snoc_inv sv (length sk0)) as (sv0 & y & -> & Hv0).
    { rewrite Hs, length_app. simpl. lia. }
    rewrite length_app. simpl.
    replace (length sk0 + 1 - 1)%nat with (length sk0) by lia.
    rewrite !drop_app_length, !take_app_length.
    rewrite <-Hv0, !drop_app_length, !take_app_length.
    eexists _, _, x. split; [reflexivity|]. simpl.
    split_and!; try done.
    + rewrite length_app in Hn. simpl in Hn. lia.
    + by rewrite Hl.
    + unfold leafEntries. simpl.
      rewrite (zip_app_eq sk0 [x] sv0 [y]) by done. by rewrite <-app_assoc.
    + by rewrite last_snoc.
  - destruct sk as [|x sk]; [simpl in Hn; lia|]. destruct sv as [|y sv]; [done|].
    destruct sk as [|x2 sk]; [simpl in Hn; lia|].
    simpl. rewrite !drop_0, !take_0.
    eexists _, _, x2. split; [reflexivity|]. simpl.
    split_and!; try done.
    + rewrite length_app. simpl. lia.
    + rewrite !length_app. simpl. lia.
    + simpl in Hs. lia.
    + unfold leafEntries. simpl. rewrite zip_app_eq by done. simpl.
      by rewrite <-app_assoc.
    + by rewrite last_snoc.
Qed.

(** X23.  [redistributeNodes] on two internal nodes, each with one child
    more than keys, the sibling holding at least one key, is a rotation
    through the parent: the separator comes down into the node, a key
    of the sibling goes up in its place, and a child of the sibling
    follows to the node; the keys of the left node, the separator and
    the keys of the right node are in order what they were, and so are
    the children. *)
Theorem redistribute_internal (nks sks : list Z) (ncs scs : list (Node V))
    (ks : list Z) (pi : nat) (sep : Z) (isLeft : bool) :
  length ncs = S (length nks) → length scs = S (length sks) →
  (1 <= length sks)%nat → ks !! pi = Some sep →
  ∃ nks' ncs' sks' scs' sep',
    redistributeNodes (Internal nks ncs) (Internal sks scs) ks pi isLeft
    = (Internal nks' ncs', Internal sks' scs', <[pi := sep']> ks) ∧
    length ncs' = S (length nks') ∧ length scs' = S (length sks') ∧
    length nks' = S (length nks) ∧ S (length sks') = length sks ∧
    if isLeft
    then sks' ++ sep' :: nks' = sks ++ sep :: nks ∧ scs' ++ ncs' = scs ++ ncs
    else nks' ++ sep' :: sks' = nks ++ sep :: sks ∧ ncs' ++ scs' = ncs ++ scs.
Proof.
  intros Hn Hs H1 Hpi. simpl. rewrite (nth_lookup_Some _ _ _ _ Hpi).
  destruct isLeft.
  - destruct (snoc_inv sks (length sks - 1)) as (sks0 & x & -> & Hk0); [lia|].
    rewrite length_app in *. simpl in *.
    replace (length sks0 + 1 - 1)%nat with (length sks0) by lia.
    rewrite take_app_length.
    assert (nth (length sks0) (sks0 ++ [x]) 0 = x) as ->.
    { by apply nth_mid0. }
    destruct (snoc_inv scs (length sks0 + 1)) as (scs0 & c & -> & Hc0); [lia|].
    rewrite <-Hc0, take_app_length, drop_app_length.
    eexists _, _, _, _, x. split; [reflexivity|]. simpl.
    split_and!; try done; try lia.
    + by rewrite <-app_assoc.
    + by rewrite <-app_assoc.
  - destruct sks as [|x sks]; [simpl in H1; lia|].
    destruct scs as [|c scs]; [done|]. simpl in *. rewrite !drop_0, take_0.
    eexists _, _, _, _, x. split; [reflexivity|]. simpl.
    split_and!; try done; try lia.
    + rewrite !length_app. simpl. lia.
    + rewrite length_app. simpl. lia.
    + by rewrite <-app_assoc.
    + by rewrite <-app_assoc.
Qed.

End Redistribute.

Lemma redistribute_leaves_witness :
  (2 <= length [1; 5])%nat ∧
  ∃ leaf' sib' sep',
    redistributeNodes
      (Leaf (mkLeaf 1 ([] : list Z) ([] : list Z) (Some 2%nat) (Some 0%nat)))
      (Leaf (mkLeaf 0 [1; 5] [0; 0] (Some 1%nat) None)) [10; 20] 0 true
    = (Leaf leaf', Leaf sib', <[0%nat := sep']> [10; 20]) ∧
    length (lkeys leaf') = 1%nat ∧ head (lkeys leaf') = Some sep'.
Proof.
  split; [simpl; lia|].
  destruct (redistribute_leaves
              (mkLeaf 1 ([] : list Z) ([] : list Z) (Some 2%nat) (Some 0%nat))
              (mkLeaf 0 [1; 5] [0; 0] (Some 1%nat) None) [10; 20] 0 true
              eq_refl eq_refl ltac:(simpl; lia))
    as (leaf' & sib' & sep' & E & _ & _ & Hlen & _ & _ & _ & _ & Hhd & _).
  exists leaf', sib', sep'. split; [exact E|]. split; [exact Hlen|exact Hhd].
Defined.

Lemma redistribute_internal_witness :
  [10; 20] !! 0%nat = Some 10 ∧
  ∃ nks' ncs' sks' scs' sep',
    redistributeNodes (Internal [] [emptied]) (Internal [1; 5] [emptied; emptied; emptied])
      [10; 20] 0 true
    = (Internal nks' ncs', Internal sks' scs', <[0%nat := sep']> [10; 20]) ∧
    sks' ++ sep' :: nks' = [1; 5] ++ 10 :: [].
Proof.
  split; [reflexivity|].
  destruct (redistribute_internal [] [1; 5] [emptied] [emptied; emptied; emptied]
              [10; 20] 0 10 true eq_refl eq_refl ltac:(simpl; lia) eq_refl)
    as (nks' & ncs' & sks' & scs' & sep' & E & _ & _ & _ & _ & Hk & _).
  exists nks', ncs', sks', scs', sep'. split; [exact E|exact Hk].
Defined.

(** ** How the operations change the height *)

Section HeightPath.
Context {V : Type}.
Variables (minK maxK : Z).
Hypothesis Hparams : paramsOk minK maxK.

Local Abbreviation wf_body := (@wf_body V minK maxK).
Local Abbreviation wf_node := (@wf_node V minK maxK).
Local Abbreviation wf_path := (@wf_path V minK maxK).
Local Abbreviation countLo := (@countLo V minK).

(** The node put back at the end of a path lies as many levels below the
    root as the path has frames. *)
Lemma rebuild_wf_height h lo hi (path : list (Frame V)) n :
  wf_path h lo hi path → wf_body h lo hi n →
  countLo path <= numKeys n <= maxK →
  wf_body (length path + h) None None (rebuild path n).
Proof.
  revert h lo hi n. induction path as [|f up IH]; intros h lo hi n Hp Hn Hc.
  - destruct Hp as [-> ->]. done.
  - pose proof (wf_path_idx _ _ _ _ _ _ _ Hp) as Hi.
    destruct Hp as (plo & phi & Hik & Hlen & HL & HR & -> & -> & Hlt & Hcnt & Hup).
    simpl. replace (S (length up + h)) with (length up + S h)%nat by lia.
    eapply IH; [done| |done].
    rewrite insert_take_drop by done.
    rewrite <-(take_drop (fidx f) (fkeys f)) at 1.
    simpl. apply wf_children_focus.
    { rewrite !length_take. lia. }
    split_and!; done.
Qed.

Lemma rebuild_height h lo hi (path : list (Frame V)) n :
  wf_path h lo hi path → wf_body h lo hi n →
  countLo path <= numKeys n <= maxK →
  height_from (rebuild path n) = Z.of_nat (length path + h) + 1.
Proof.
  intros Hp Hn Hc. eapply wf_body_height. by eapply rebuild_wf_height.
Qed.

Lemma insertIntoParent_height (path : list (Frame V)) :
  ∀ h lo hi left key right,
    wf_path h lo hi path →
    wf_node h lo (Some key) left → wf_node h (Some key) hi right →
    blt lo (Some key) → blt (Some key) hi →
    Z.of_nat (length path + h) + 1
    <= height_from (insertIntoParent maxK path left key right)
    <= Z.of_nat (length path + h) + 2.
Proof.
  pose proof (splitPoint_bounds _ _ Hparams) as Hsp.
  induction path as [|f up IH]; intros h lo hi left key right Hp Hl Hr Hlo Hhi.
  - destruct Hp as [-> ->]. destruct Hl as [Hl _]. simpl.
    rewrite (wf_body_height _ _ _ _ _ _ Hl). lia.
  - pose proof (wf_path_idx _ _ _ _ _ _ _ Hp) as Hi.
    destruct Hp as (plo & phi & Hik & Hlen & HL & HR & -> & -> & Hlt & Hcnt & Hup).
    destruct (frame_lowerBound _ _ _ _ _ _ _ Hik HL HR Hlo Hhi) as [Hs Hlb].
    cbn [insertIntoParent].
    rewrite findKeyPosition_sorted, Nat2Z.id, Hlb by done.
    rewrite insertChildAt_after by done.
    unfold insertKeyAt.
    set (ks := fkeys f) in *. set (cs := fchildren f) in *. set (i := fidx f) in *.
    assert (wf_children (wf_node h) plo phi
              (take i ks ++ key :: drop i ks)
              (take i cs ++ left :: right :: drop (S i) cs)) as Hwf.
    { apply wf_children_focus; [rewrite !length_take; lia|].
      destruct Hl, Hr. simpl. split_and!; done. }
    assert (length (take i ks ++ key :: drop i ks) = S (length ks)) as Hlk.
    { rewrite length_app, length_take. simpl. rewrite length_drop. lia. }
    unfold isFull. rewrite Hlk.
    destruct (Z.ltb_spec maxK (Z.of_nat (S (length ks)))) as [Hfull|Hfull].
    + unfold splitInternal_parts.
      set (sp := splitPointOf maxK) in *.
      set (ks' := take i ks ++ key :: drop i ks) in *.
      set (cs' := take i cs ++ left :: right :: drop (S i) cs) in *.
      pose proof (wf_children_length _ _ _ _ _ Hwf) as Hlc.
      destruct (lookup_lt_is_Some_2 ks' sp) as [pk Hpk]; [lia|].
      rewrite (nth_lookup_Some _ _ _ _ Hpk).
      rewrite <-(take_drop_middle _ _ _ Hpk), <-(take_drop (S sp) cs') in Hwf.
      apply wf_children_split in Hwf as [Hw1 Hw2].
      2:{ rewrite !length_take. lia. }
      pose proof (IH (S h) plo phi
                    (Internal (take sp ks') (take (S sp) cs')) pk
                    (Internal (drop (S sp) ks') (drop (S sp) cs'))) as IH1.
      simpl. replace (Z.of_nat (S (length up + h))) with (Z.of_nat (length up + S h)) by lia.
      apply IH1.
      * done.
      * split; [done|]. unfold countOk, numKeys. simpl. rewrite length_take. lia.
      * split; [done|]. unfold countOk, numKeys. simpl. rewrite length_drop. lia.
      * by eapply wf_children_blt.
      * by eapply wf_children_blt.
    + erewrite (rebuild_height (S h)); [simpl; lia|done|done|].
      unfold numKeys. simpl. rewrite Hlk.
      pose proof (countLo_bounds _ _ Hparams up). lia.
Qed.

End HeightPath.

Section HeightOps.
Context {V : Type}.
Implicit Types (t : BPlusTree V) (r : Node V).

Lemma height_at t r h lo hi (path : list (Frame V)) (leaf : LeafNode V) :
  root t = Some r → rebuild path (Leaf leaf) = r →
  paramsOk (minKeys t) (maxKeys t) →
  wf_path (minKeys t) (maxKeys t) O lo hi path → wf_leaf lo hi leaf →
  countLo (minKeys t) path <= Z.of_nat (length (lkeys leaf)) <= maxKeys t →
  h = height t → h = Z.of_nat (length path) + 1.
Proof.
  intros Er Hreb Hpar Hp Hl Hc ->. unfold height. rewrite Er, <-Hreb.
  erewrite (rebuild_height _ _ O); [f_equal; lia|done| |done].
  by split.
Qed.

(** X24.  On a tree that satisfies the invariant, [insert] never lowers
    the height and raises it by at most one; it leaves the height as it
    is when the key is present, and makes it 1 on the empty tree. *)
Theorem insert_height t (k : Z) (v : V) :
  Inv t →
  height t <= height (insert t k v) <= height t + 1 ∧
  (is_Some (search t k) → height (insert t k v) = height t) ∧
  (isEmpty t = true → height (insert t k v) = 1).
Proof.
  intros HInv. pose proof HInv as [Hpar Hroot].
  assert (height t <= height (insert t k v) <= height t + 1 ∧
          (isEmpty t = true → height (insert t k v) = 1)) as [H1 H2].
  { unfold insert, isEmpty. destruct (root t) as [r|] eqn:Er.
    2:{ unfold height. rewrite Er. simpl. split; [lia|done]. }
    split; [|done].
    destruct (findLeaf_root t r k HInv Er) as
      (path & leaf & lo & hi & Hf & Hp & Hl & Hc & Hk & Hreb).
    pose proof (height_at t r _ lo hi path leaf Er Hreb Hpar Hp Hl Hc eq_refl) as Hh.
    rewrite Hf. pose proof Hl as (Hlen & Hs & Hr).
    rewrite findKeyPosition_sorted, Nat2Z.id by done.
    pose proof (lowerBound_le (lkeys leaf) k) as Hpos.
    set (pos := lowerBound (lkeys leaf) k) in *.
    destruct ((Z.of_nat pos <? Z.of_nat (length (lkeys leaf)))
              && (nth pos (lkeys leaf) 0 =? k)) eqn:Etest.
    - unfold height at 2 3. simpl.
      erewrite (rebuild_height _ _ O lo hi); [lia|done| |done].
      split; [done|]. by apply wf_leaf_setValue.
    - assert ((pos < length (lkeys leaf))%nat → nth pos (lkeys leaf) 0 ≠ k) as Hne.
      { intros Hlt Heq. apply andb_false_iff in Etest as [E|E]; lia. }
      pose proof (wf_leaf_insertAt lo hi leaf k v Hl Hk Hne) as Hl'.
      pose proof (length_insertAt leaf pos k v Hpos) as Hlen'.
      fold pos in Hl'. unfold isFull. rewrite Hlen'.
      destruct (Z.ltb_spec (maxKeys t) (Z.of_nat (S (length (lkeys leaf))))) as [Hfull|Hfull].
      + unfold height at 2 3. simpl. unfold splitLeaf.
        pose proof (splitLeaf_parts_wf _ _ _ _ (nextLeaf t) _ Hpar Hl'
                      ltac:(rewrite Hlen'; lia)) as Hparts.
        destruct (splitLeaf_parts (maxKeys t) (nextLeaf t) (insertAt pos k v leaf))
          as [[l1 pk] l2] eqn:Eparts.
        destruct Hparts as (Hw1 & Hw2 & Hlo & Hhi & _).
        set (f := setPrev (V:=V) (lnext (insertAt pos k v leaf)) (nextLeaf t)).
        pose proof (setPrev_keepsData (V:=V) (lnext (insertAt pos k v leaf)) (nextLeaf t))
          as Hf'. fold f in Hf'.
        pose proof (wf_path_mapPath _ _ f Hf' _ _ _ _ Hp) as Hp'.
        pose proof (insertIntoParent_height _ _ Hpar _ _ _ _ _ _ _ Hp' Hw1 Hw2 Hlo Hhi)
          as Hh'.
        assert (length (mapPath f path) = length path) as Elen.
        { unfold mapPath. apply length_map. }
        rewrite Elen in Hh'. lia.
      + unfold height at 2 3. simpl.
        erewrite (rebuild_height _ _ O lo hi); [lia|done| |].
        * by split.
        * unfold numKeys. cbn [keysOf]. rewrite Hlen'. lia. }
  split; [exact H1|]. split; [|exact H2].
  intros Hsome.
  destruct (insert_present t k v HInv Hsome)
    as (r & path & leaf & pos & Er & Hf & _ & _ & Hreb & ->).
  destruct (findLeaf_root t r k HInv Er) as
    (path' & leaf' & lo & hi & Hf' & Hp & Hl & Hc & Hk & _).
  rewrite Hf in Hf'. injection Hf' as <- <-.
  pose proof (height_at t r _ lo hi path leaf Er Hreb Hpar Hp Hl Hc eq_refl) as Hh.
  unfold height at 1. simpl.
  erewrite (rebuild_height _ _ O lo hi); [lia|done| |done].
  split; [done|]. by apply wf_leaf_setValue.
Qed.

End HeightOps.

Section HeightDelete.
Context {V : Type}.
Variables (minK maxK : Z).
Hypothesis Hparams : paramsOk minK maxK.

Local Abbreviation wf_body := (@wf_body V minK maxK).
Local Abbreviation wf_node := (@wf_node V minK maxK).
Local Abbreviation wf_path := (@wf_path V minK maxK).
Local Abbreviation countLo := (@countLo V minK).

Lemma height_from_mapLeaves (f : LeafNode V → LeafNode V) (n : Node V) :
  height_from (mapLeaves f n) = height_from n.
Proof.
  induction n as [l|ks cs IH] using Node_ind'; [done|].
  destruct cs as [|c cs]; [done|]. apply Forall_cons in IH as [IH _].
  simpl. by rewrite IH.
Qed.

Lemma deleteEntry_height (path : list (Frame V)) :
  ∀ h lo hi node,
    path ≠ [] →
    wf_path h lo hi path → wf_body h lo hi node → numKeys node = minK - 1 →
    ∃ r', deleteEntry minK path node = Some r' ∧
          Z.of_nat (length path + h) <= height_from r'
          <= Z.of_nat (length path + h) + 1.
Proof.
  destruct Hparams as [Hmin Hmax].
  induction path as [|f up IH]; intros h lo hi node Hne Hp Hn Hcnt; [done|].
  destruct f as [ks cs0 i].
  destruct Hp as (plo & phi & Hik & Hlen & HL & HR & -> & -> & Hlt & Hc & Hup).
  simpl in Hik, Hlen, HL, HR, Hlt, Hc, Hn.
  destruct (frame_decompose ks cs0 i Hik Hlen) as (stale & Ef & HlenT).
  assert (deleteEntry minK (mkFrame ks cs0 i :: up) node
          = deleteEntry minK
              (mkFrame (take i ks ++ drop i ks)
                 (take i cs0 ++ stale :: drop (S i) cs0) (length (take i ks)) :: up)
              node) as Ed by (by rewrite <-Ef).
  rewrite Ed. clear Ed Ef.
  pose proof (countLo_bounds minK maxK Hparams up) as Hlo.
  destruct (deleteEntry_frame minK maxK Hparams h plo phi (take i ks) (drop i ks)
              (take i cs0) stale (drop (S i) cs0) up node HlenT HL HR Hlt Hn Hcnt) as
    [(ks' & cs' & -> & Hwf & Hlk & _)
    |(ks' & cs' & relink & -> & Hwf & Hlk & _)].
  { rewrite take_drop. lia. }
  - rewrite take_drop in Hlk.
    exists (rebuild up (Internal ks' cs')). split; [done|].
    erewrite (rebuild_height minK maxK (S h) plo phi); [simpl; lia|done|done|].
    unfold numKeys. simpl. lia.
  - rewrite take_drop in Hlk. unfold isUnderflow.
    destruct (Z.ltb_spec (Z.of_nat (length ks')) minK) as [Hu|Hu].
    + destruct up as [|g up'].
      * cbn [deleteEntry]. unfold numKeys. cbn [keysOf].
        destruct (Z.eqb_spec (Z.of_nat (length ks')) 0) as [E|E].
        -- destruct ks'; [|done]. destruct cs' as [|c cs']; [done|].
           simpl in Hwf. destruct Hwf as (-> & [Hb _] & _).
           exists (mapLeaves relink c). split; [done|].
           rewrite height_from_mapLeaves, (wf_body_height _ _ _ _ _ _ Hb). simpl. lia.
        -- exists (mapLeaves relink (Internal ks' cs')). split; [done|].
           rewrite height_from_mapLeaves.
           rewrite (wf_body_height minK maxK (Internal ks' cs') (S h) plo phi Hwf). simpl. lia.
      * destruct (IH (S h) plo phi (Internal ks' cs') ltac:(done) Hup Hwf)
          as (r0 & -> & Hr0).
        { unfold numKeys. simpl. simpl in Hc. lia. }
        exists (mapLeaves relink r0). split; [done|].
        rewrite height_from_mapLeaves. simpl in Hr0 |- *. lia.
    + exists (mapLeaves relink (rebuild up (Internal ks' cs'))). split; [done|].
      rewrite height_from_mapLeaves.
      erewrite (rebuild_height minK maxK (S h) plo phi); [simpl; lia|done|done|].
      unfold numKeys. simpl. lia.
Qed.

End HeightDelete.

Section HeightRemove.
Context {V : Type}.
Implicit Types (t : BPlusTree V) (r : Node V).

(** X25.  On a tree that satisfies the invariant, [remove] never raises
    the height and lowers it by at most one. *)
Theorem remove_height t (k : Z) :
  Inv t → height t - 1 <= height (remove t k).2 <= height t.
Proof.
  intros HInv. pose proof HInv as [Hpar Hroot].
  unfold remove. destruct (root t) as [r|] eqn:Er; [|simpl; lia].
  destruct (findLeaf_root t r k HInv Er) as
    (path & leaf & lo & hi & Hf & Hp & Hl & Hc & Hk & Hreb).
  pose proof (height_at t r _ lo hi path leaf Er Hreb Hpar Hp Hl Hc eq_refl) as Hh.
  rewrite Hf.
  destruct (findPos (lkeys leaf) k) as [pos|] eqn:Epos; [|simpl; lia].
  pose proof (findPos_Some_lt _ _ _ Epos) as Hpos.
  pose proof (wf_leaf_removeAt lo hi leaf pos Hpos Hl) as Hl'.
  pose proof (length_removeAt leaf pos Hpos) as Hlen'.
  destruct path as [|f up].
  - destruct (Z.eqb_spec (Z.of_nat (length (lkeys (removeAt pos leaf)))) 0) as [E0|E0];
      unfold height at 2 3; simpl; simpl in Hh; lia.
  - unfold isUnderflow.
    destruct (Z.ltb_spec (Z.of_nat (length (lkeys (removeAt pos leaf)))) (minKeys t))
      as [Hu|Hu].
    + destruct (deleteEntry_height _ _ Hpar (f :: up) O lo hi (Leaf (removeAt pos leaf))
                  ltac:(done) Hp ltac:(by split)) as (r' & E & Hr').
      { unfold numKeys. simpl in Hc, Hlen', Hu |- *. lia. }
      cbn [snd]. unfold height at 2 3. cbn [root withRoot]. rewrite E. lia.
    + cbn [snd]. unfold height at 2 3. cbn [root withRoot].
      erewrite (rebuild_height _ _ O lo hi); [lia|done|by split|].
      unfold numKeys. simpl in Hc, Hlen', Hu |- *. lia.
Qed.

End HeightRemove.

Lemma insert_height_witness :
  Inv tree10 ∧ height tree10 <= height (insert tree10 35 0) <= height tree10 + 1.
Proof.
  split; [exact Inv_tree10|].
  exact (proj1 (insert_height tree10 35 0 Inv_tree10)).
Defined.

Lemma remove_height_witness :
  Inv tree10 ∧ height tree10 - 1 <= height (remove tree10 30).2 <= height tree10.
Proof.
  split; [exact Inv_tree10|]. exact (remove_height tree10 30 Inv_tree10).
Defined.

(** ** Merging *)

Section Merge.
Context {V : Type}.

(** X26.  [mergeNodes] on two nodes of one kind, the right one in the
    slot after the left one: the left node receives everything, the keys
    of the two with the parent's separator between them if they are
    internal nodes, so that the entries below it are those below the two
    in order; the parent loses the separator and the slot of the right
    node.  For leaves the left one takes over the [next] link of the
    right one, and the leaf that followed the right one gets the left
    one as its [prev]; no other leaf is touched. *)
Theorem mergeNodes_conserves (left right : Node V) (ks : list Z)
    (cs : list (Node V)) (pi : nat) (sep : Z) :
  isLeaf left = isLeaf right →
  (∀ l, left = Leaf l → length (lvalues l) = length (lkeys l)) →
  ks !! pi = Some sep → (S pi < length cs)%nat →
  let merged := mergeNodes_merged left right ks pi in
  mergeNodes_parent left right ks cs pi
  = (take pi ks ++ drop (S pi) ks, take pi cs ++ merged :: drop (S (S pi)) cs) ∧
  entriesOf merged = entriesOf left ++ entriesOf right ∧
  keysOf merged
  = (if isLeaf left then keysOf left ++ keysOf right
     else keysOf left ++ sep :: keysOf right) ∧
  (∀ l r, left = Leaf l → right = Leaf r →
     ∃ m, merged = Leaf m ∧ lid m = lid l ∧ lprev m = lprev l ∧ lnext m = lnext r ∧
          ∀ x, let x' := mergeNodes_relink left right x in
               lid x' = lid x ∧ lkeys x' = lkeys x ∧ lvalues x' = lvalues x ∧
               lnext x' = lnext x ∧
               lprev x' = if bool_decide (lnext r = Some (lid x))
                          then Some (lid l) else lprev x).
Proof.
  intros Hkind Hlen Hpi Hcs merged.
  assert (mergeNodes_parent left right ks cs pi
          = (take pi ks ++ drop (S pi) ks, take pi cs ++ merged :: drop (S (S pi)) cs))
    as Hparent.
  { unfold mergeNodes_parent, removeKeyAt, removeChildAt. fold merged. f_equal.
    rewrite insert_take_drop by lia.
    replace (pi + 1)%nat with (S pi) by lia.
    rewrite take_S_middle by (rewrite length_take; lia).
    replace (S (S pi)) with (S pi + 1)%nat by lia.
    rewrite <-!drop_drop, drop_S_middle by (rewrite length_take; lia).
    by rewrite <-app_assoc. }
  split; [exact Hparent|].
  destruct left as [l|lks lcs], right as [r|rks rcs]; try done; subst merged; simpl.
  - split_and!.
    + unfold entriesOf, leafEntries. simpl. rewrite !app_nil_r.
      apply zip_app_eq. symmetry. by apply Hlen.
    + done.
    + intros l0 r0 [= <-] [= <-]. eexists. split; [reflexivity|]. simpl.
      split_and!; try done. intros x. unfold setPrev.
      destruct (lnext r) as [id|].
      * destruct (Nat.eqb_spec (lid x) id) as [->|Hne]; simpl.
        -- rewrite bool_decide_eq_true_2 by done. done.
        -- rewrite bool_decide_eq_false_2 by congruence. done.
      * rewrite bool_decide_eq_false_2 by done. done.
  - rewrite (nth_lookup_Some _ _ _ _ Hpi). split_and!.
    + unfold entriesOf. simpl. by rewrite !flat_map_app.
    + done.
    + done.
Qed.

End Merge.

Lemma mergeNodes_conserves_witness :
  [10; 20] !! 0%nat = Some 10 ∧
  entriesOf (mergeNodes_merged
               (Leaf (mkLeaf 0 [1] [0] (Some 1%nat) None))
               (Leaf (mkLeaf 1 [10] [0] (Some 2%nat) (Some 0%nat))) [10; 20] 0)
  = entriesOf (Leaf (mkLeaf 0 [1] [0] (Some 1%nat) None))
    ++ entriesOf (Leaf (mkLeaf 1 [10] [0] (Some 2%nat) (Some 0%nat))).
Proof.
  split; [reflexivity|].
  refine (proj1 (proj2 (mergeNodes_conserves
            (Leaf (mkLeaf 0 [1] [0] (Some 1%nat) None))
            (Leaf (mkLeaf 1 [10] [0] (Some 2%nat) (Some 0%nat)))
            [10; 20]
            [Leaf (mkLeaf 0 [1] [0] (Some 1%nat) None);
             Leaf (mkLeaf 1 [10] [0] (Some 2%nat) (Some 0%nat));
             Leaf (mkLeaf 2 [20] [0] None (Some 1%nat))]
            0 10 eq_refl _ eq_refl _))).
  - intros l [= <-]. reflexivity.
  - simpl. lia.
Defined.
